(** * Grouping strategies: configuration composition and variant resolution

    A shallow embedding of [sentry/grouping/strategies/base.py]:
    the strategy registry, the scoped evaluation context, strategy
    invocation, [create_strategy_configuration] and [call_with_variants].

    Python objects that are mutated through references (grouping components,
    the dictionaries held by a configuration) live in explicit stores and are
    named by locations; everything else is a value. Exceptions are the [Err]
    results of a state-and-exception monad whose state survives a raise, as
    Python's heap does. *)

From Stdlib Require Import Ascii String.
From stdpp Require Import gmap strings list fin_maps pretty sorting.

Local Open Scope string_scope.
Local Open Scope list_scope.

(** ** Values, exceptions, the monad *)

Definition loc := positive.

(** The Python values stored in a context overlay. *)
Inductive pyval :=
  | PyNone
  | PyStr (s : string)
  | PyBool (b : bool)
  | PyInt (n : Z).

(** The exceptions the module raises. The [RuntimeError]s carry the data
    their message is formatted from. [Raised] is an exception thrown by a
    wrapped strategy function; [InvalidReference] is the model's answer to a
    location that is not in the store, which no Python reference can be. *)
Inductive runtime_error :=
  | RequiresName (strategy_id : option string)
  | UnscoredStrategy (strategy_id config_id : string)
  | DuplicateDelegate (config_id interface : string)
  | NoDelegate (path : string).

Inductive exn :=
  | AssertionError
  | KeyError (key : string)
  | IndexError
  | TypeError
  | AttributeError
  | UnboundLocalError
  | LookupError (strategy_id : string)
  | RuntimeError (why : runtime_error)
  | Raised (msg : string)
  | InvalidReference (l : loc).

Inductive result (A : Type) :=
  | Ok (a : A)
  | Err (e : exn).
Arguments Ok {A} a.
Arguments Err {A} e.

Definition M (S A : Type) : Type := S → result A * S.

Definition ret {S A} (a : A) : M S A := λ s, (Ok a, s).
Definition raise {S A} (e : exn) : M S A := λ s, (Err e, s).
Definition bind {S A B} (m : M S A) (k : A → M S B) : M S B :=
  λ s, match m s with
       | (Ok a, s') => k a s'
       | (Err e, s') => (Err e, s')
       end.
Definition modify {S} (f : S → S) : M S unit := λ s, (Ok tt, f s).
Definition lift_result {S A} (r : result A) : M S A := λ s, (r, s).

(** [finally m cleanup]: run [cleanup] on every exit path of [m]
    (the exit half of a [with] block). *)
Definition finally {S A} (m : M S A) (cleanup : M S unit) : M S A :=
  λ s, match m s with
       | (r, s') =>
           match cleanup s' with
           | (Ok _, s'') => (r, s'')
           | (Err e, s'') => (Err e, s'')
           end
       end.

Notation "'let!' x ':=' c1 'in' c2" := (bind c1 (λ x, c2))
  (at level 10, x pattern, c1 at level 100, c2 at level 200).
Notation "c1 '>>' c2" := (bind c1 (λ _, c2))
  (at level 100, c2 at level 200, right associativity).

(** [for x in xs: body x] *)
Fixpoint for_each {S A} (xs : list A) (body : A → M S unit) : M S unit :=
  match xs with
  | [] => ret tt
  | x :: xs' => body x >> for_each xs' body
  end.

(** A loop that threads local variables [acc] through its body. *)
Fixpoint for_fold {S A B} (xs : list A) (body : B → A → M S B) (acc : B)
  : M S B :=
  match xs with
  | [] => ret acc
  | x :: xs' => let! acc' := body acc x in for_fold xs' body acc'
  end.

(** ** Grouping components (external collaborator) *)

(** Modelled from the spec: the grouping component class is imported from
    another module; the engine needs of it a [contributes] flag, a
    deterministic [get_hash] and an [update(contributes=…, hint=…)] mutator
    that overwrites the flag and attaches the reason. *)
Record Component := {
  contributes : bool;
  hint : option string;
  content_hash : string
}.

Definition get_hash (c : Component) : string := content_hash c.

Definition update (c : Component) (contributes' : bool) (hint' : string)
  : Component :=
  {| contributes := contributes'; hint := Some hint';
     content_hash := content_hash c |}.

(** ** GroupingContext *)

(** The part of the interpreter state a strategy function can see and change:
    the context's overlay stack (a Python list, innermost last) and the heap
    of grouping components. *)
Record World := {
  stack : list (gmap string pyval);
  heap : gmap loc Component
}.

Definition set_stack (st : list (gmap string pyval)) (w : World) : World :=
  {| stack := st; heap := heap w |}.
Definition set_heap (h : gmap loc Component) (w : World) : World :=
  {| stack := stack w; heap := h |}.

Module GroupingContext.

(** [for d in reversed(self._stack): if key in d: return d[key]] *)
Fixpoint search (key : string) (reversed : list (gmap string pyval))
  : option pyval :=
  match reversed with
  | [] => None
  | d :: ds =>
      match d !! key with
      | Some v => Some v
      | None => search key ds
      end
  end.

Definition getitem (key : string) : M World pyval :=
  λ w, match search key (rev (stack w)) with
       | Some v => (Ok v, w)
       | None => (Err (KeyError key), w)
       end.

(** [self._stack[-1][key] = value] *)
Definition setitem (key : string) (value : pyval) : M World unit :=
  λ w, match last (stack w) with
       | Some d =>
           (Ok tt,
            set_stack (<[pred (length (stack w)) := <[key := value]> d]>
                         (stack w)) w)
       | None => (Err IndexError, w)
       end.

Definition push : M World unit :=
  modify (λ w, set_stack (stack w ++ [∅]) w).

Definition pop : M World unit :=
  λ w, match stack w with
       | [] => (Err IndexError, w)
       | _ => (Ok tt, set_stack (removelast (stack w)) w)
       end.

(** [__init__]: the stack starts as the configuration's initial context;
    then [self.push()] and [self["variant"] = None]. *)
Definition init (initial_context : gmap string pyval) : M World unit :=
  λ w, (push >> setitem "variant" PyNone) (set_stack [initial_context] w).

End GroupingContext.

(** ** Wrapped strategy functions and the ghost trace *)

(** What a strategy function hands back: [None], or a dictionary from variant
    name to a component reference or [None]. *)
Abbreviation variants_dict := (gmap string (option loc)).
Abbreviation pyret := (option variants_dict).

(** A wrapped function, once its positional and keyword arguments are fixed:
    it reads and writes the world (context and component heap) and returns or
    raises. *)
Abbreviation wrapped := (M World pyret).

(** Ghost events, newest first: every invocation of a wrapped function and
    every [component.update] the engine performs, with the rule that asked
    for it. *)
Inductive rule := NotUsed | HashMatch.

Inductive action :=
  | EvCall
  | EvUpdate (r : rule) (l : loc) (hint : string).

Record Machine := {
  world : World;
  trace : list action
}.

Definition lift_world {A} (m : M World A) : M Machine A :=
  λ s, match m (world s) with
       | (r, w') => (r, {| world := w'; trace := trace s |})
       end.

Definition emit (e : action) : M Machine unit :=
  modify (λ s, {| world := world s; trace := e :: trace s |}).

(** The call [f] with the caller's positional and keyword arguments. *)
Definition invoke (f : wrapped) : M Machine pyret :=
  emit EvCall >> lift_world f.

Definition read_component (l : loc) : M Machine Component :=
  λ s, match heap (world s) !! l with
       | Some c => (Ok c, s)
       | None => (Err (InvalidReference l), s)
       end.

(** [component.update(contributes=False, hint=hint)] *)
Definition component_update (r : rule) (l : loc) (hint' : string)
  : M Machine unit :=
  let! c := read_component l in
  emit (EvUpdate r l hint') >>
  lift_world (modify (λ w, set_heap (<[l := update c false hint']> (heap w)) w)).

(** [with context: body], in the instrumented machine. *)
Definition scoped {A} (body : M Machine A) : M Machine A :=
  lift_world GroupingContext.push >>
  finally body (lift_world GroupingContext.pop).

(** ** call_with_variants *)

(** [variant[:1] == "!"] *)
Definition is_mandatory (variant : string) : bool :=
  String.eqb (String.substring 0 1 variant) "!".

(** [variant.lstrip("!")] *)
Fixpoint lstrip_bang (variant : string) : string :=
  match variant with
  | String c rest =>
      if Ascii.eqb c "!"%char then lstrip_bang rest else variant
  | EmptyString => EmptyString
  end.

(** The local variables of the top-level branch. *)
Record locals := {
  rv : variants_dict;
  has_mandatory_hashes : bool;
  mandatory_contributing_hashes : gmap string string;
  optional_contributing_variants : list string
}.

Definition locals_init : locals :=
  {| rv := ∅; has_mandatory_hashes := false;
     mandatory_contributing_hashes := ∅;
     optional_contributing_variants := [] |}.

(** [assert context["variant"] in variants or
            "!" + context["variant"] in variants] *)
Definition assert_own_variant (pinned : pyval) (variants : list string)
  : M Machine unit :=
  match pinned with
  | PyStr v =>
      if bool_decide (v ∈ variants) || bool_decide ("!" +:+ v ∈ variants)
      then ret tt else raise AssertionError
  | _ => raise TypeError
  end.

(** [assert len(variants) == 1; component = variants[variant]] *)
Definition the_variant (variants : pyret) (variant : string)
  : result (option loc) :=
  match variants with
  | None => Err TypeError
  | Some d =>
      if negb (Nat.eqb (size d) 1) then Err AssertionError
      else match d !! variant with
           | Some component => Ok component
           | None => Err (KeyError variant)
           end
  end.

(** The [with context:] block of the first loop. *)
Definition compute_variant (f : wrapped) (variant : string)
  : M Machine (option loc) :=
  scoped (
    lift_world (GroupingContext.setitem "variant" (PyStr variant)) >>
    let! variants := invoke f in
    lift_result (the_variant variants variant)).

(** The assignments of one iteration of the first loop, for a component that
    is not [None]:
    [if is_mandatory: has_mandatory_hashes = True];
    [if component.contributes:] either
    [mandatory_contributing_hashes[component.get_hash()] = variant] or
    [optional_contributing_variants.append(variant)];
    [rv[variant] = component]. *)
Definition record_component (st : locals) (is_mandatory : bool)
    (variant : string) (l : loc) (c : Component) : locals :=
  {| rv := <[variant := Some l]> (rv st);
     has_mandatory_hashes :=
       if is_mandatory then true else has_mandatory_hashes st;
     mandatory_contributing_hashes :=
       if contributes c && is_mandatory
       then <[get_hash c := variant]> (mandatory_contributing_hashes st)
       else mandatory_contributing_hashes st;
     optional_contributing_variants :=
       if contributes c && negb is_mandatory
       then optional_contributing_variants st ++ [variant]
       else optional_contributing_variants st |}.

(** One iteration of [for variant in variants:]. *)
Definition collect_variant (f : wrapped) (st : locals) (variant : string)
  : M Machine locals :=
  let is_mandatory := is_mandatory variant in
  let variant := lstrip_bang variant in
  let! component := compute_variant f variant in
  match component with
  | None => ret st
  | Some l =>
      let! c := read_component l in
      ret (record_component st is_mandatory variant l c)
  end.

(** [has_mandatory_hashes and not mandatory_contributing_hashes] *)
Definition prevent_contribution (st : locals) : bool :=
  has_mandatory_hashes st &&
  bool_decide (mandatory_contributing_hashes st = ∅).

(** [list(mandatory_contributing_hashes.values())[0]
     if len(mandatory_contributing_hashes) == 1 else "other mandatory"] *)
Definition unused_variant_name (hashes : gmap string string) : result string :=
  if Nat.eqb (size hashes) 1 then
    match (map_to_list hashes).*2 with
    | name :: _ => Ok name
    | [] => Err IndexError
    end
  else Ok "other mandatory".

(** One iteration of [for variant in optional_contributing_variants:]. *)
Definition suppress_variant (st : locals) (variant : string)
  : M Machine unit :=
  match rv st !! variant with
  | None => raise (KeyError variant)
  | Some None => raise AttributeError
  | Some (Some l) =>
      if prevent_contribution st then
        let! name :=
          lift_result (unused_variant_name (mandatory_contributing_hashes st)) in
        component_update NotUsed l
          ("ignored because " +:+ name +:+ " variant is not used")
      else
        let! c := read_component l in
        let hash := get_hash c in
        match mandatory_contributing_hashes st !! hash with
        | Some duplicate_of =>
            component_update HashMatch l
              ("ignored because hash matches " +:+ duplicate_of +:+ " variant")
        | None => ret tt
        end
  end.

Definition call_with_variants (f : wrapped) (variants : list string)
  : M Machine pyret :=
  let! pinned := lift_world (GroupingContext.getitem "variant") in
  match pinned with
  | PyNone =>
      let! st := for_fold variants (collect_variant f) locals_init in
      for_each (optional_contributing_variants st) (suppress_variant st) >>
      ret (Some (rv st))
  | _ =>
      assert_own_variant pinned variants >>
      invoke f
  end.

(** The decorator [produces_variants(variants)(f)] as a wrapped function:
    the ghost trace of the inner calls is local to the call. *)
Definition produces_variants (variants : list string) (f : wrapped) : wrapped :=
  λ w, match call_with_variants f variants {| world := w; trace := [] |} with
       | (r, s) => (r, world s)
       end.

(** ** Strategies and the registry *)

(** Modelled from the spec: typed interfaces and events are built by other
    modules; an interface knows its [path], an event answers
    [interfaces.get(path)] from a dictionary. *)
Record Interface := {
  path : string;
  payload : string
}.

Record Event := {
  event_interfaces : gmap string Interface
}.

(** [id.split(":", 1)[0]] *)
Fixpoint class_of (id : string) : string :=
  match id with
  | String c rest =>
      if Ascii.eqb c ":"%char then EmptyString else String c (class_of rest)
  | EmptyString => EmptyString
  end.

Module Strategy.

(** The keyword [strategy=self] that [_invoke] adds is not passed: a function
    stored in [func] is closed over the metadata it needs. *)
Record t := {
  id : string;
  name : string;
  interfaces : list string;
  score : option Z;
  func : list Interface → Event → wrapped;
  variant_processor_func : option (variants_dict → Event → wrapped)
}.

Definition strategy_class (self : t) : string := class_of (id self).

(** [self(event=event, context=context, *args)], through [_invoke]. *)
Definition call (self : t) (args : list Interface) (event : Event)
  : M Machine pyret :=
  invoke (func self args event).

(** The loop that resolves the bound interfaces, [None] at the first one the
    event lacks. *)
Fixpoint resolve_interfaces (paths : list string) (event : Event)
    (args : list Interface) : option (list Interface) :=
  match paths with
  | [] => Some args
  | iface_path :: paths' =>
      match event_interfaces event !! iface_path with
      | None => None
      | Some iface => resolve_interfaces paths' event (args ++ [iface])
      end
  end.

Definition get_grouping_component (self : t) (event : Event) (variant : pyval)
  : M Machine pyret :=
  match resolve_interfaces (interfaces self) event [] with
  | None => ret None
  | Some args =>
      scoped (
        match variant with
        | PyNone => ret tt
        | _ => lift_world (GroupingContext.setitem "variant" variant)
        end >>
        call self args event)
  end.

Definition get_grouping_component_variants (self : t) (event : Event)
  : M Machine pyret :=
  let! variants := get_grouping_component self event PyNone in
  match variants with
  | None => ret (Some ∅)
  | Some d =>
      match variant_processor_func self with
      | Some processor => invoke (processor d event)
      | None => ret (Some d)
      end
  end.

End Strategy.

(** The module-level table [STRATEGIES]. *)
Abbreviation registry := (gmap string Strategy.t).

(** The decorator [strategy(id, ids, interfaces, name, score)(f)]: registers
    [f] under every id and returns the last strategy built. *)
Definition strategy (id : option string) (ids : option (list string))
    (interfaces : option (list string)) (name : option string)
    (score : option Z) (f : list Interface → Event → wrapped)
  : M registry Strategy.t :=
  match interfaces with
  | None => raise TypeError
  | Some interfaces =>
      let! name :=
        match name with
        | Some name => ret name
        | None =>
            match interfaces with
            | [iface] => ret iface
            | _ => raise (RuntimeError (RequiresName id))
            end
        end in
      let! ids :=
        match id, ids with
        | Some _, Some _ => raise TypeError
        | Some id, None => ret [id]
        | None, Some ids => ret ids
        | None, None => raise TypeError
        end in
      let! rv :=
        for_fold ids (λ _ id,
          let rv := {| Strategy.id := id; Strategy.name := name;
                       Strategy.interfaces := interfaces;
                       Strategy.score := score; Strategy.func := f;
                       Strategy.variant_processor_func := None |} in
          modify (λ STRATEGIES : registry, <[id := rv]> STRATEGIES) >>
          ret (Some rv)) None in
      match rv with
      | Some rv => ret rv
      | None => raise UnboundLocalError
      end
  end.

Definition lookup_strategy (STRATEGIES : registry) (strategy_id : string)
  : result Strategy.t :=
  match STRATEGIES !! strategy_id with
  | Some s => Ok s
  | None => Err (LookupError strategy_id)
  end.

(** ** Strategy configurations *)

Definition RISK_LEVEL_LOW : Z := 0.
Definition RISK_LEVEL_MEDIUM : Z := 1.
Definition RISK_LEVEL_HIGH : Z := 2.

Module StrategyConfiguration.

(** A configuration class. Its three dictionaries are objects in the store,
    held by reference; the other attributes are values. *)
#[warnings="-register-all"] Inductive t := Build {
  id : string;
  base : option t;
  strategies : loc;
  delegates : loc;
  initial_context : loc;
  changelog : string;
  hidden : bool;
  risk : Z
}.

End StrategyConfiguration.

(** The store of dictionary objects: the [strategies] and [delegates]
    dictionaries (string to strategy) and the [initial_context] dictionaries
    (string to value). *)
Record Store := {
  strategy_dicts : gmap loc (gmap string Strategy.t);
  context_dicts : gmap loc (gmap string pyval)
}.

Definition set_strategy_dicts (ds : gmap loc (gmap string Strategy.t))
    (σ : Store) : Store :=
  {| strategy_dicts := ds; context_dicts := context_dicts σ |}.
Definition set_context_dicts (ds : gmap loc (gmap string pyval))
    (σ : Store) : Store :=
  {| strategy_dicts := strategy_dicts σ; context_dicts := ds |}.

(** [dict(d)] and [{}]: a new dictionary object at a fresh location. *)
Definition new_strategy_dict (d : gmap string Strategy.t) : M Store loc :=
  λ σ, let l := fresh (dom (strategy_dicts σ)) in
       (Ok l, set_strategy_dicts (<[l := d]> (strategy_dicts σ)) σ).

Definition new_context_dict (d : gmap string pyval) : M Store loc :=
  λ σ, let l := fresh (dom (context_dicts σ)) in
       (Ok l, set_context_dicts (<[l := d]> (context_dicts σ)) σ).

Definition read_strategy_dict (l : loc) : M Store (gmap string Strategy.t) :=
  λ σ, match strategy_dicts σ !! l with
       | Some d => (Ok d, σ)
       | None => (Err (InvalidReference l), σ)
       end.

Definition read_context_dict (l : loc) : M Store (gmap string pyval) :=
  λ σ, match context_dicts σ !! l with
       | Some d => (Ok d, σ)
       | None => (Err (InvalidReference l), σ)
       end.

(** In-place mutation of the dictionary at [l]. *)
Definition mutate_strategy_dict (l : loc)
    (f : gmap string Strategy.t → gmap string Strategy.t) : M Store unit :=
  let! d := read_strategy_dict l in
  modify (λ σ, set_strategy_dicts (<[l := f d]> (strategy_dicts σ)) σ).

Definition mutate_context_dict (l : loc)
    (f : gmap string pyval → gmap string pyval) : M Store unit :=
  let! d := read_context_dict l in
  modify (λ σ, set_context_dicts (<[l := f d]> (context_dicts σ)) σ).

(** [by_class.setdefault(strategy.strategy_class, []).append(strategy.id)] *)
Definition by_class_add (strategy : Strategy.t)
    (by_class : gmap string (list string)) : gmap string (list string) :=
  <[Strategy.strategy_class strategy :=
      default [] (by_class !! Strategy.strategy_class strategy)
      ++ [Strategy.id strategy]]> by_class.

(** [by_class = {}; for strategy in NewStrategyConfiguration.strategies.values():
    by_class.setdefault(...).append(...)]. The lists are only iterated over
    to pop their members, so the order of the dictionary's values does not
    matter. *)
Definition by_class_of (d : gmap string Strategy.t) : gmap string (list string) :=
  foldr by_class_add ∅ (map_to_list d).*2.

(** The two loops of [create_strategy_configuration]. They reach the
    dictionary they fill only through [mutate], the in-place change of that
    dictionary object. *)
Section Loops.

Context {S : Type}.
Variable mutate : (gmap string Strategy.t → gmap string Strategy.t) → M S unit.

(** [for strategy_id in strategies or {}: ...] *)
Definition add_strategies (STRATEGIES : registry) (id : string)
    (by_class : gmap string (list string)) (strategies : list string)
  : M S unit :=
  for_each strategies (λ strategy_id,
    let! strategy := lift_result (lookup_strategy STRATEGIES strategy_id) in
    match Strategy.score strategy with
    | None => raise (RuntimeError (UnscoredStrategy strategy_id id))
    | Some _ =>
        for_each (default [] (by_class !! Strategy.strategy_class strategy))
          (λ old_id, mutate (delete old_id)) >>
        mutate (<[strategy_id := strategy]>)
    end).

(** The inner loop [for interface in strategy.interfaces: ...]. *)
Definition claim_interfaces (id : string) (strategy : Strategy.t)
    (new_delegates : gset string) : M S (gset string) :=
  for_fold (Strategy.interfaces strategy) (λ new_delegates interface,
    if bool_decide (interface ∈ new_delegates)
    then raise (RuntimeError (DuplicateDelegate id interface))
    else
      mutate (<[interface := strategy]>) >>
      ret ({[interface]} ∪ new_delegates)) new_delegates.

(** [new_delegates = set(); for strategy_id in delegates or (): ...] *)
Definition add_delegates (STRATEGIES : registry) (id : string)
    (delegates : list string) : M S (gset string) :=
  for_fold delegates (λ new_delegates strategy_id,
    let! strategy := lift_result (lookup_strategy STRATEGIES strategy_id) in
    claim_interfaces id strategy new_delegates) ∅.

End Loops.

Section Build.

(** [inspect.cleandoc], from the standard library. *)
Variable cleandoc : string → string.

Definition create_strategy_configuration
    (STRATEGIES : registry)
    (id : string)
    (strategies delegates : option (list string))
    (changelog : option string)
    (hidden : bool)
    (base : option StrategyConfiguration.t)
    (risk : option Z)
    (initial_context : option (gmap string pyval))
  : M Store StrategyConfiguration.t :=
  let! base_strategies :=
    match base with
    | Some b => read_strategy_dict (StrategyConfiguration.strategies b)
    | None => ret ∅
    end in
  let! new_strategies := new_strategy_dict base_strategies in
  let! base_delegates :=
    match base with
    | Some b => read_strategy_dict (StrategyConfiguration.delegates b)
    | None => ret ∅
    end in
  let! new_delegates_dict := new_strategy_dict base_delegates in
  let! base_context :=
    match base with
    | Some b => read_context_dict (StrategyConfiguration.initial_context b)
    | None => ret ∅
    end in
  let! new_context := new_context_dict base_context in
  let risk := default RISK_LEVEL_LOW risk in

  let! seeded := read_strategy_dict new_strategies in
  let by_class := by_class_of seeded in

  add_strategies (mutate_strategy_dict new_strategies)
    STRATEGIES id by_class (default [] strategies) >>

  let! _ :=
    add_delegates (mutate_strategy_dict new_delegates_dict)
      STRATEGIES id (default [] delegates) in

  match initial_context with
  | Some updates =>
      if bool_decide (updates = ∅) then ret tt
      else mutate_context_dict new_context (λ d, updates ∪ d)
  | None => ret tt
  end >>

  ret {| StrategyConfiguration.id := id;
         StrategyConfiguration.base := base;
         StrategyConfiguration.strategies := new_strategies;
         StrategyConfiguration.delegates := new_delegates_dict;
         StrategyConfiguration.initial_context := new_context;
         StrategyConfiguration.changelog := cleandoc (default "" changelog);
         StrategyConfiguration.hidden := hidden;
         StrategyConfiguration.risk := risk |}.

End Build.

(** ** Vocabulary of the statements *)

(** The world inside a [with context:] block that pins [variant], and the
    world after the block's exit. *)
Definition enter (variant : string) (w : World) : World :=
  set_stack (stack w ++ [{["variant" := PyStr variant]}]) w.

Definition leave (w : World) : World :=
  set_stack (removelast (stack w)) w.

(** [extends φ s s']: the trace of [s'] is the trace of [s] with new events
    in front, all satisfying [φ]. *)
Definition extends (φ : action → Prop) (s s' : Machine) : Prop :=
  ∃ new, trace s' = new ++ trace s ∧ Forall φ new.

Definition emits_only {A} (φ : action → Prop) (m : M Machine A) : Prop :=
  ∀ s, extends φ s (m s).2.

(** The store after the dictionary at [l] has been given the contents [d]. *)
Definition write_strategy_dict (l : loc) (d : gmap string Strategy.t)
    (σ : Store) : Store :=
  set_strategy_dicts (<[l := d]> (strategy_dicts σ)) σ.

Definition write_context_dict (l : loc) (d : gmap string pyval)
    (σ : Store) : Store :=
  set_context_dicts (<[l := d]> (context_dicts σ)) σ.

(** [refines l ms md]: on a store whose dictionary at [l] holds [d], the
    store computation [ms] returns what the dictionary computation [md]
    returns on [d], and changes nothing but the contents of [l]. *)
Definition refines {A} (l : loc) (ms : M Store A)
    (md : M (gmap string Strategy.t) A) : Prop :=
  ∀ σ d, strategy_dicts σ !! l = Some d →
    ms σ = ((md d).1, write_strategy_dict l (md d).2 σ).

(** The contents of the dictionaries a build is seeded from. *)
Definition base_dicts (σ : Store) (base : option StrategyConfiguration.t)
    (bs bd : gmap string Strategy.t) (bc : gmap string pyval) : Prop :=
  match base with
  | Some b =>
      strategy_dicts σ !! StrategyConfiguration.strategies b = Some bs ∧
      strategy_dicts σ !! StrategyConfiguration.delegates b = Some bd ∧
      context_dicts σ !! StrategyConfiguration.initial_context b = Some bc
  | None => bs = ∅ ∧ bd = ∅ ∧ bc = ∅
  end.

(** [if initial_context: initial_context.update(...)], on contents. *)
Definition merged_context (initial_context : option (gmap string pyval))
    (d : gmap string pyval) : gmap string pyval :=
  match initial_context with
  | Some updates => if bool_decide (updates = ∅) then d else updates ∪ d
  | None => d
  end.

(** Every entry of the registry is filed under its own id, as the decorator
    [strategy] files it. *)
Definition registry_wf (STRATEGIES : registry) : Prop :=
  ∀ k s, STRATEGIES !! k = Some s → Strategy.id s = k.

(** Every entry of a [strategies] dictionary is filed under its strategy's
    id, as [create_strategy_configuration] files it. *)
Definition keyed_by_id (d : gmap string Strategy.t) : Prop :=
  ∀ k s, d !! k = Some s → Strategy.id s = k.

(** No two entries of a [strategies] dictionary share a strategy class. *)
Definition one_per_class (d : gmap string Strategy.t) : Prop :=
  ∀ k1 s1 k2 s2, d !! k1 = Some s1 → d !! k2 = Some s2 →
    Strategy.strategy_class s1 = Strategy.strategy_class s2 → k1 = k2.

(** The interfaces the requested delegates declare, in request order. *)
Definition claimed_interfaces (STRATEGIES : registry) (delegates : list string)
  : list string :=
  delegates ≫= λ strategy_id,
    match STRATEGIES !! strategy_id with
    | Some s => Strategy.interfaces s
    | None => []
    end.

(** The requested strategy ids name each strategy class at most once. *)
Definition distinct_classes (STRATEGIES : registry) (strategies : list string)
  : Prop :=
  ∀ a b ta tb, a ∈ strategies → b ∈ strategies →
    STRATEGIES !! a = Some ta → STRATEGIES !! b = Some tb →
    Strategy.strategy_class ta = Strategy.strategy_class tb → a = b.

(** The state of the [strategies] dictionary [d] after the ids [done] have been
    added on top of the seed [bs]: an entry is either inherited, and then no
    added strategy has its class, or it is an added strategy under its id. *)
Definition override_inv (STRATEGIES : registry) (bs d : gmap string Strategy.t)
    (done : list string) : Prop :=
  (∀ k s, d !! k = Some s →
     (bs !! k = Some s ∧
      ∀ a ta, a ∈ done → STRATEGIES !! a = Some ta →
        Strategy.strategy_class ta ≠ Strategy.strategy_class s) ∨
     (k ∈ done ∧ STRATEGIES !! k = Some s)) ∧
  (∀ a, a ∈ done → is_Some (STRATEGIES !! a) ∧ d !! a = STRATEGIES !! a).

(** ** Concrete inputs *)

(** A wrapped function that answers from a table, by the pinned variant. *)
Definition by_variant (table : gmap string pyret) : wrapped :=
  λ w, match GroupingContext.getitem "variant" w with
       | (Ok (PyStr variant), _) =>
           match table !! variant with
           | Some r => (Ok r, w)
           | None => (Err (Raised "variant not produced"), w)
           end
       | (Ok _, _) => (Err (Raised "no variant pinned"), w)
       | (Err e, _) => (Err e, w)
       end.

Definition component_h1 : Component :=
  {| contributes := true; hint := None; content_hash := "h1" |}.

Definition component_silent : Component :=
  {| contributes := false; hint := None; content_hash := "h2" |}.

(** A context as [GroupingContext.__init__] leaves it (the initial context,
    then the overlay that holds [variant = None]) and three components. *)
Definition top_level_world : World :=
  {| stack := [∅; {["variant" := PyNone]}];
     heap := {[1%positive := component_h1; 2%positive := component_h1;
               3%positive := component_silent]} |}.

Definition top_level_machine : Machine :=
  {| world := top_level_world; trace := [] |}.

(** Scenario A: both variants contribute, with the same hash. *)
Definition scenario_A_func : wrapped :=
  by_variant {["system" := Some {["system" := Some 1%positive]};
               "app" := Some {["app" := Some 2%positive]}]}.

(** Scenario B: the system variant does not apply. *)
Definition scenario_B_func : wrapped :=
  by_variant {["system" := Some {["system" := None]};
               "app" := Some {["app" := Some 2%positive]}]}.

(** The system variant has a component, which does not contribute. *)
Definition silent_system_func : wrapped :=
  by_variant {["system" := Some {["system" := Some 3%positive]};
               "app" := Some {["app" := Some 2%positive]}]}.

(** Scenario C: a delegate call with [variant = "frames"]. *)
Definition frames_func : wrapped :=
  by_variant {["frames" := Some {["frames" := Some 1%positive]};
               "app" := Some {["app" := Some 2%positive]}]}.

Definition no_component : list Interface → Event → wrapped :=
  λ _ _ w, (Ok None, w).

Definition example_strategy (id : string) (interfaces : list string)
  : Strategy.t :=
  {| Strategy.id := id; Strategy.name := "example";
     Strategy.interfaces := interfaces; Strategy.score := Some 100%Z;
     Strategy.func := no_component;
     Strategy.variant_processor_func := None |}.

Definition frame_v0 := example_strategy "frame:v0" ["frame"].
Definition frame_v1 := example_strategy "frame:v1" ["frame"].
Definition frame_v2 := example_strategy "frame:v2" ["frame"].
Definition stacktrace_v1 := example_strategy "stacktrace:v1" ["stacktrace"].

Definition example_registry : registry :=
  {["frame:v0" := frame_v0; "frame:v1" := frame_v1; "frame:v2" := frame_v2;
    "stacktrace:v1" := stacktrace_v1]}.

Definition empty_event : Event := {| event_interfaces := ∅ |}.

Definition empty_store : Store :=
  {| strategy_dicts := ∅; context_dicts := ∅ |}.

(** The configuration ["base"] with strategy and delegate [frame:v0], and
    the store its build leaves. *)
Definition example_base : StrategyConfiguration.t :=
  {| StrategyConfiguration.id := "base";
     StrategyConfiguration.base := None;
     StrategyConfiguration.strategies := 1%positive;
     StrategyConfiguration.delegates := 2%positive;
     StrategyConfiguration.initial_context := 1%positive;
     StrategyConfiguration.changelog := "";
     StrategyConfiguration.hidden := false;
     StrategyConfiguration.risk := RISK_LEVEL_LOW |}.

Definition example_store : Store :=
  {| strategy_dicts := {[1%positive := {["frame:v0" := frame_v0]};
                         2%positive := {["frame" := frame_v0]}]};
     context_dicts := {[1%positive := ∅]} |}.

(** A state of the first loop in which the mandatory-empty rule fires. *)
Definition prevented_locals : locals :=
  {| rv := {["app" := Some 2%positive]}; has_mandatory_hashes := true;
     mandatory_contributing_hashes := ∅;
     optional_contributing_variants := ["app"] |}.

(** ** The rest of the module *)

(** *** Delegation *)

(** How a dictionary key that is not a string reads in a [KeyError]. *)
Definition key_text (key : pyval) : string :=
  match key with
  | PyNone => "None"
  | PyStr s => s
  | PyBool true => "True"
  | PyBool false => "False"
  | PyInt n => pretty n
  end.

Module Delegation.

(** What [GroupingContext.get_grouping_component] returns: the component of
    the pinned variant, or the delegate's whole dictionary. *)
Inductive outcome :=
  | Component (component : option loc)
  | Variants (rv : variants_dict).

(** [GroupingContext.get_grouping_component(interface, *args, **kwargs)];
    [delegates] is the contents of [self.config.delegates], and the keyword
    arguments are the event (the context is the world). It is defined here,
    after [Strategy], because it calls the delegate strategy. *)
Definition get_grouping_component (delegates : gmap string Strategy.t)
    (interface : Interface) (args : list Interface) (event : Event)
  : M Machine outcome :=
  let path := path interface in
  match delegates !! path with
  | None => raise (RuntimeError (NoDelegate path))
  | Some strategy =>
      let! rv := Strategy.call strategy (interface :: args) event in
      match rv with
      | None => raise AssertionError
      | Some rv =>
          let! variant := lift_world (GroupingContext.getitem "variant") in
          match variant with
          | PyNone => ret (Variants rv)
          | _ =>
              if negb (Nat.eqb (size rv) 1) then raise AssertionError
              else
                match variant with
                | PyStr v =>
                    match rv !! v with
                    | Some component => ret (Component component)
                    | None => raise (KeyError v)
                    end
                | _ => raise (KeyError (key_text variant))
                end
          end
      end
  end.

End Delegation.

(** *** iter_strategies *)

(** [sorted(values, key=...)] on values already paired with their keys: a
    stable sort, ascending by key. *)
Fixpoint insert_by_key (x : Z * Strategy.t) (sorted : list (Z * Strategy.t))
  : list (Z * Strategy.t) :=
  match sorted with
  | [] => [x]
  | y :: rest =>
      if (x.1 <=? y.1)%Z then x :: sorted else y :: insert_by_key x rest
  end.

Definition stable_sort (keyed : list (Z * Strategy.t)) : list (Z * Strategy.t) :=
  foldr insert_by_key [] keyed.

(** [key=lambda x: -x.score], evaluated on every value before the sort;
    negating [None] is a [TypeError]. *)
Fixpoint score_keys (values : list Strategy.t) : result (list (Z * Strategy.t)) :=
  match values with
  | [] => Ok []
  | x :: values' =>
      match Strategy.score x with
      | None => Err TypeError
      | Some score =>
          match score_keys values' with
          | Ok keyed => Ok ((- score, x)%Z :: keyed)
          | Err e => Err e
          end
      end
  end.

Definition sorted_by_score (values : list Strategy.t) : result (list Strategy.t) :=
  match score_keys values with
  | Ok keyed => Ok (stable_sort keyed).*2
  | Err e => Err e
  end.

(** [StrategyConfiguration.iter_strategies]. The dictionary's values are
    taken in the order [map_to_list] gives them, which is not Python's
    insertion order: strategies of equal score may come out in another order
    than in Python. *)
Definition iter_strategies (self : StrategyConfiguration.t)
  : M Store (list Strategy.t) :=
  let! d := read_strategy_dict (StrategyConfiguration.strategies self) in
  lift_result (sorted_by_score (map_to_list d).*2).

(** *** flatten_variants_from_component *)

Section Flatten.

(** The attributes of a grouping component that
    [flatten_variants_from_component] reads; the class is defined in another
    module. *)
Context {C : Type}.
Variable component_id : C → string.
Variable variant_provider : C → bool.
Variable component_values : C → list C.

(** [{c.id: c for c in component.values}]: a later value replaces an earlier
    one of the same id. *)
Definition by_component_id (values : list C) : gmap string C :=
  foldl (λ d c, <[component_id c := c]> d) ∅ values.

Definition flatten_variants_from_component (component : C) : gmap string C :=
  if negb (variant_provider component)
  then {[component_id component := component]}
  else by_component_id (component_values component).

End Flatten.

(** *** More vocabulary and concrete inputs *)

(** The overlay that [Strategy.get_grouping_component] pushes: empty, or
    holding the pinned variant. *)
Definition scope_overlay (variant : pyval) : gmap string pyval :=
  match variant with
  | PyNone => ∅
  | _ => {["variant" := variant]}
  end.

(** A wrapped function that leaves the context's stack as it found it. *)
Definition keeps_stack (f : wrapped) : Prop :=
  ∀ w, stack (f w).2 = stack w.

Definition is_update (e : action) : Prop :=
  match e with
  | EvUpdate _ _ _ => True
  | EvCall => False
  end.

(** The requested strategies up to the first that is not registered with a
    score are all registered with a score. *)
Definition all_scored (STRATEGIES : registry) (strategies : list string) : Prop :=
  Forall (λ strategy_id, ∃ s, STRATEGIES !! strategy_id = Some s ∧
                              is_Some (Strategy.score s)) strategies.

Definition all_registered (STRATEGIES : registry) (delegates : list string)
  : Prop :=
  Forall (λ strategy_id, is_Some (STRATEGIES !! strategy_id)) delegates.

(** A component tree for [flatten_variants_from_component]. *)
#[warnings="-register-all"] Inductive variant_tree :=
  | VariantTree (id : string) (provider : bool) (children : list variant_tree).

Definition tree_id (t : variant_tree) : string :=
  match t with VariantTree id _ _ => id end.
Definition tree_provider (t : variant_tree) : bool :=
  match t with VariantTree _ provider _ => provider end.
Definition tree_children (t : variant_tree) : list variant_tree :=
  match t with VariantTree _ _ children => children end.

Definition example_tree : variant_tree :=
  VariantTree "stacktrace" true
    [VariantTree "app" false []; VariantTree "system" false [];
     VariantTree "app" true []].

Definition unscored_delegate : Strategy.t :=
  {| Strategy.id := "template:v1"; Strategy.name := "template";
     Strategy.interfaces := ["template"]; Strategy.score := None;
     Strategy.func := no_component;
     Strategy.variant_processor_func := None |}.

Definition frame_event : Event :=
  {| event_interfaces := {["frame" := {| path := "frame"; payload := "f" |}]} |}.

(** A delegate strategy that produces the variants of [frames_func]. *)
Definition frames_strategy : Strategy.t :=
  {| Strategy.id := "frame:v1"; Strategy.name := "frame";
     Strategy.interfaces := ["frame"]; Strategy.score := Some 100%Z;
     Strategy.func := λ _ _, produces_variants ["!frames"; "app"] frames_func;
     Strategy.variant_processor_func := None |}.

(** The strategy that the decorator [strategy] files under [id]. *)
Definition registered (id name : string) (interfaces : list string)
    (score : option Z) (f : list Interface → Event → wrapped) : Strategy.t :=
  {| Strategy.id := id; Strategy.name := name;
     Strategy.interfaces := interfaces; Strategy.score := score;
     Strategy.func := f; Strategy.variant_processor_func := None |}.

(** The name the decorator uses: the given one, or the single interface. *)
Definition effective_name (name : option string) (interfaces : list string)
  : option string :=
  match name with
  | Some name => Some name
  | None => match interfaces with [iface] => Some iface | _ => None end
  end.

(** The ids the decorator registers: [[id]], or [ids]; not both, not neither. *)
Definition effective_ids (id : option string) (ids : option (list string))
  : option (list string) :=
  match id, ids with
  | Some id, None => Some [id]
  | None, Some ids => Some ids
  | _, _ => None
  end.

Fixpoint has_colon (s : string) : bool :=
  match s with
  | String c rest => Ascii.eqb c ":"%char || has_colon rest
  | EmptyString => false
  end.

(** What the first loop of [call_with_variants] holds in its local variables
    after some of the candidates [variants]: every entry of [rv] is a
    component filed under a candidate's stripped name; every optional
    contributing variant is the stripped name of a candidate without the
    marker and has an entry in [rv]; every mandatory contributing hash is
    owned by the stripped name of a candidate with the marker. *)
Definition collected (variants : list string) (st : locals) : Prop :=
  (∀ k c, rv st !! k = Some c →
     (∃ v, v ∈ variants ∧ k = lstrip_bang v) ∧ ∃ l, c = Some l) ∧
  (∀ k, k ∈ optional_contributing_variants st →
     (∃ v, v ∈ variants ∧ is_mandatory v = false ∧ k = lstrip_bang v) ∧
     is_Some (rv st !! k)) ∧
  (∀ h m, mandatory_contributing_hashes st !! h = Some m →
     ∃ v, v ∈ variants ∧ is_mandatory v = true ∧ m = lstrip_bang v).

(** A component as [update(contributes=False, hint=...)] leaves it. *)
Definition suppressed (c : Component) : Prop :=
  contributes c = false ∧ is_Some (hint c).

(** * Proofs *)

(** ** The monad *)

Section Monad.
Context {S : Type}.

Lemma bind_ok {A B} (m : M S A) (k : A → M S B) s a s' :
  m s = (Ok a, s') → bind m k s = k a s'.
Proof. intros H. unfold bind. by rewrite H. Qed.

Lemma bind_err {A B} (m : M S A) (k : A → M S B) s e s' :
  m s = (Err e, s') → bind m k s = (Err e, s').
Proof. intros H. unfold bind. by rewrite H. Qed.

End Monad.

(** ** The evaluation context *)

Lemma push_setitem key value w :
  (GroupingContext.push >> GroupingContext.setitem key value) w =
  (Ok tt, set_stack (stack w ++ [{[key := value]}]) w).
Proof.
  unfold bind, GroupingContext.push, modify, GroupingContext.setitem. simpl.
  rewrite last_snoc, length_app. simpl.
  replace (pred (length (stack w) + 1)) with (length (stack w) + 0) by lia.
  rewrite insert_app_r. simpl. by rewrite insert_empty.
Qed.

Lemma pop_nonempty w :
  stack w ≠ [] → GroupingContext.pop w = (Ok tt, leave w).
Proof. unfold GroupingContext.pop, leave. by destruct (stack w). Qed.

Lemma pop_empty w :
  stack w = [] → GroupingContext.pop w = (Err IndexError, w).
Proof. unfold GroupingContext.pop. by intros ->. Qed.

Lemma leave_enter variant w : leave (enter variant w) = w.
Proof.
  destruct w as [st h]. unfold leave, enter, set_stack. simpl.
  by rewrite removelast_last.
Qed.

Lemma getitem_enter variant w :
  GroupingContext.getitem "variant" (enter variant w) =
  (Ok (PyStr variant), enter variant w).
Proof.
  unfold GroupingContext.getitem, enter. simpl. rewrite rev_app_distr. simpl.
  by rewrite lookup_singleton_eq.
Qed.

(** ** Variant resolution *)

(** *** Running one variant *)

Lemma compute_variant_run f variant s :
  compute_variant f variant s =
  match f (enter variant (world s)) with
  | (r, w') =>
      match stack w' with
      | [] => (Err IndexError, {| world := w'; trace := EvCall :: trace s |})
      | _ =>
          (match r with
           | Ok variants => the_variant variants variant
           | Err e => Err e
           end,
           {| world := leave w'; trace := EvCall :: trace s |})
      end
  end.
Proof.
  destruct s as [w tr].
  unfold compute_variant, scoped, finally, invoke, emit, modify, lift_result,
    bind, lift_world, GroupingContext.push, GroupingContext.setitem, modify.
  simpl.
  rewrite last_snoc, length_app. simpl.
  replace (pred (length (stack w) + 1)) with (length (stack w) + 0) by lia.
  rewrite insert_app_r. simpl. rewrite insert_empty.
  unfold enter, leave, set_stack. simpl.
  destruct (f _) as [[d|e] w']; simpl; unfold GroupingContext.pop.
  - destruct (the_variant d variant); simpl; by destruct (stack w').
  - by destruct (stack w').
Qed.

(** *** Trace extension *)

Lemma extends_same φ s s' : trace s' = trace s → extends φ s s'.
Proof. intros H. by exists []. Qed.

Lemma extends_refl φ s : extends φ s s.
Proof. by apply extends_same. Qed.

Lemma extends_trans φ s1 s2 s3 :
  extends φ s1 s2 → extends φ s2 s3 → extends φ s1 s3.
Proof.
  intros (n1 & E1 & F1) (n2 & E2 & F2). exists (n2 ++ n1). split.
  - by rewrite E2, E1, app_assoc.
  - by apply Forall_app.
Qed.

Lemma emits_only_ret {A} φ (a : A) : emits_only φ (ret a).
Proof. intros s. apply extends_refl. Qed.

Lemma emits_only_raise {A} φ e : emits_only φ (raise (A := A) e).
Proof. intros s. apply extends_refl. Qed.

Lemma emits_only_lift_result {A} φ (r : result A) :
  emits_only φ (lift_result r).
Proof. intros s. apply extends_refl. Qed.

Lemma emits_only_lift_world {A} φ (m : M World A) :
  emits_only φ (lift_world m).
Proof.
  intros s. unfold lift_world. destruct (m (world s)). by apply extends_same.
Qed.

Lemma emits_only_read_component φ l : emits_only φ (read_component l).
Proof.
  intros s. unfold read_component.
  destruct (heap (world s) !! l); apply extends_refl.
Qed.

Lemma emits_only_emit (φ : action → Prop) e : φ e → emits_only φ (emit e).
Proof. intros He s. exists [e]. split; [done|]. by constructor. Qed.

Lemma emits_only_bind {A B} φ (m : M Machine A) (k : A → M Machine B) :
  emits_only φ m → (∀ a, emits_only φ (k a)) → emits_only φ (bind m k).
Proof.
  intros Hm Hk s. unfold bind. specialize (Hm s).
  destruct (m s) as [[a|e] s1]; simpl in *; [|done].
  eapply extends_trans; [exact Hm|apply Hk].
Qed.

Lemma emits_only_finally {A} φ (m : M Machine A) (c : M Machine unit) :
  emits_only φ m → emits_only φ c → emits_only φ (finally m c).
Proof.
  intros Hm Hc s. unfold finally. specialize (Hm s).
  destruct (m s) as [r s1]. specialize (Hc s1).
  destruct (c s1) as [[[]|e] s2]; simpl in *; by eapply extends_trans.
Qed.

Lemma emits_only_for_fold {A B} φ (xs : list A) (body : B → A → M Machine B) acc :
  (∀ acc x, x ∈ xs → emits_only φ (body acc x)) →
  emits_only φ (for_fold xs body acc).
Proof.
  revert acc. induction xs as [|x xs IH]; intros acc Hbody; simpl.
  - apply emits_only_ret.
  - apply emits_only_bind; [apply Hbody; left|].
    intros acc'. apply IH. intros ? ? ?. apply Hbody. by right.
Qed.

Lemma emits_only_for_each {A} φ (xs : list A) (body : A → M Machine unit) :
  (∀ x, x ∈ xs → emits_only φ (body x)) →
  emits_only φ (for_each xs body).
Proof.
  induction xs as [|x xs IH]; intros Hbody; simpl.
  - apply emits_only_ret.
  - apply emits_only_bind; [apply Hbody; left|].
    intros _. apply IH. intros ? ?. apply Hbody. by right.
Qed.

Lemma emits_only_invoke (φ : action → Prop) f : φ EvCall → emits_only φ (invoke f).
Proof.
  intros H. unfold invoke. apply emits_only_bind.
  - by apply emits_only_emit.
  - intros _. apply emits_only_lift_world.
Qed.

Lemma emits_only_compute_variant (φ : action → Prop) f variant :
  φ EvCall → emits_only φ (compute_variant f variant).
Proof.
  intros H. unfold compute_variant, scoped.
  apply emits_only_bind; [apply emits_only_lift_world|]. intros _.
  apply emits_only_finally; [|apply emits_only_lift_world].
  apply emits_only_bind; [apply emits_only_lift_world|]. intros _.
  apply emits_only_bind; [by apply emits_only_invoke|]. intros r.
  apply emits_only_lift_result.
Qed.

Lemma emits_only_collect_variant (φ : action → Prop) f st variant :
  φ EvCall → emits_only φ (collect_variant f st variant).
Proof.
  intros H. unfold collect_variant.
  apply emits_only_bind; [by apply emits_only_compute_variant|].
  intros [l|]; [|apply emits_only_ret].
  apply emits_only_bind; [apply emits_only_read_component|].
  intros c. apply emits_only_ret.
Qed.

Lemma emits_only_component_update (φ : action → Prop) r l h :
  φ (EvUpdate r l h) → emits_only φ (component_update r l h).
Proof.
  intros H. unfold component_update.
  apply emits_only_bind; [apply emits_only_read_component|]. intros c.
  apply emits_only_bind; [by apply emits_only_emit|]. intros _.
  apply emits_only_lift_world.
Qed.

(** *** The mandatory-empty rule *)

Lemma prevent_contribution_empty st :
  prevent_contribution st = true → mandatory_contributing_hashes st = ∅.
Proof.
  unfold prevent_contribution. intros [_ H]%andb_prop.
  by apply bool_decide_eq_true in H.
Qed.

Lemma unused_variant_name_empty :
  unused_variant_name ∅ = Ok "other mandatory".
Proof. reflexivity. Qed.

Lemma bind_lift_result_ok {S A B} (a : A) (k : A → M S B) :
  bind (lift_result (Ok a)) k = k a.
Proof. reflexivity. Qed.

Lemma emits_only_suppress_variant st variant :
  emits_only
    (λ e, ∀ l h, e = EvUpdate NotUsed l h →
          h = "ignored because other mandatory variant is not used")
    (suppress_variant st variant).
Proof.
  unfold suppress_variant.
  destruct (rv st !! variant) as [[l|]|]; try apply emits_only_raise.
  destruct (prevent_contribution st) eqn:Hp.
  - rewrite (prevent_contribution_empty _ Hp), unused_variant_name_empty.
    rewrite bind_lift_result_ok.
    apply emits_only_component_update. by intros ? ? [= _ <-].
  - apply emits_only_bind; [apply emits_only_read_component|]. intros c.
    destruct (_ !! _); [|apply emits_only_ret].
    apply emits_only_component_update. by intros ? ? [=].
Qed.

Lemma emits_only_call_with_variants (φ : action → Prop) f variants :
  φ EvCall →
  (∀ st variant, emits_only φ (suppress_variant st variant)) →
  emits_only φ (call_with_variants f variants).
Proof.
  intros Hcall Hsup. unfold call_with_variants.
  apply emits_only_bind; [apply emits_only_lift_world|].
  assert (∀ p, emits_only φ (assert_own_variant p variants >> invoke f)) as Hpin.
  { intros p. apply emits_only_bind; [|intros _; by apply emits_only_invoke].
    unfold assert_own_variant. destruct p; try apply emits_only_raise.
    destruct (_ || _); [apply emits_only_ret|apply emits_only_raise]. }
  intros [| | |]; try apply Hpin.
  apply emits_only_bind.
  { apply emits_only_for_fold. intros. by apply emits_only_collect_variant. }
  intros st. apply emits_only_bind; [|intros _; apply emits_only_ret].
  apply emits_only_for_each. intros. apply Hsup.
Qed.

(** C10. Whenever the mandatory-empty rule fires ([prevent_contribution] is
    true) the dictionary of mandatory contributing hashes is empty, so its
    length is not 1 and the name put in the hint is "other mandatory"; and in
    every run of [call_with_variants], for every wrapped function, candidate
    list and starting state, each update made under that rule carries exactly
    the hint "ignored because other mandatory variant is not used": the branch
    that would name a single mandatory variant is never taken. *)
Theorem not_used_hint_never_names_a_variant :
  (∀ st, prevent_contribution st = true →
     mandatory_contributing_hashes st = ∅ ∧
     size (mandatory_contributing_hashes st) ≠ 1 ∧
     unused_variant_name (mandatory_contributing_hashes st)
       = Ok "other mandatory") ∧
  (∀ f variants s,
     ∃ new, trace (call_with_variants f variants s).2 = new ++ trace s ∧
       ∀ l h, EvUpdate NotUsed l h ∈ new →
         h = "ignored because other mandatory variant is not used").
Proof.
  split.
  - intros st Hp. rewrite (prevent_contribution_empty _ Hp).
    by rewrite map_size_empty.
  - intros f variants s.
    destruct (emits_only_call_with_variants
      (λ e, ∀ l h, e = EvUpdate NotUsed l h →
          h = "ignored because other mandatory variant is not used")
      f variants) with (s := s) as (new & E & F).
    + done.
    + apply emits_only_suppress_variant.
    + exists new. split; [done|]. intros l h Hin.
      rewrite Forall_forall in F. by eapply F.
Qed.

(** *** Candidate sets without mandatory candidates *)

Lemma collect_variant_optional f st variant s st' s' :
  is_mandatory variant = false →
  collect_variant f st variant s = (Ok st', s') →
  has_mandatory_hashes st' = has_mandatory_hashes st ∧
  mandatory_contributing_hashes st' = mandatory_contributing_hashes st.
Proof.
  intros Hopt. unfold collect_variant. rewrite Hopt. unfold bind.
  destruct (compute_variant f _ s) as [[[l|]|e] s1]; [|by intros [= <- _]|done].
  unfold read_component. destruct (heap (world s1) !! l) as [c|]; [|done].
  unfold ret. intros [= <- _]. simpl. by rewrite andb_false_r.
Qed.

Lemma collect_all_optional f variants st s st' s' :
  Forall (λ v, is_mandatory v = false) variants →
  for_fold variants (collect_variant f) st s = (Ok st', s') →
  has_mandatory_hashes st' = has_mandatory_hashes st ∧
  mandatory_contributing_hashes st' = mandatory_contributing_hashes st.
Proof.
  intros Hall. revert st s.
  induction Hall as [|v vs Hv _ IH]; intros st s; simpl.
  - by intros [= <- _].
  - unfold bind. destruct (collect_variant f st v s) as [[st1|e] s1] eqn:E1; [|done].
    intros [-> ->]%IH. by eapply collect_variant_optional.
Qed.

Lemma suppress_variant_idle st variant :
  has_mandatory_hashes st = false →
  mandatory_contributing_hashes st = ∅ →
  emits_only (λ e, e = EvCall) (suppress_variant st variant).
Proof.
  intros Hm He. unfold suppress_variant, prevent_contribution.
  rewrite Hm, He. simpl.
  destruct (rv st !! variant) as [[l|]|]; try apply emits_only_raise.
  apply emits_only_bind; [apply emits_only_read_component|]. intros c.
  rewrite lookup_empty. apply emits_only_ret.
Qed.

Lemma Forall_eq_replicate {A} (x : A) l :
  Forall (λ y, y = x) l → l = replicate (length l) x.
Proof. induction 1 as [|y l -> _ IH]; simpl; [done|]. by rewrite <- IH. Qed.

(** C7. When no candidate carries the "!" marker, [prevent_contribution] is
    false for the locals the first loop collects, and the run of
    [call_with_variants] adds nothing to the trace but invocations of the
    wrapped function: no component is updated, whatever hashes the optional
    components have. *)
Theorem no_mandatory_candidate_no_suppression f variants s :
  Forall (λ v, is_mandatory v = false) variants →
  (∀ st s', for_fold variants (collect_variant f) locals_init s = (Ok st, s') →
     prevent_contribution st = false) ∧
  ∃ calls,
    trace (call_with_variants f variants s).2 = replicate calls EvCall ++ trace s.
Proof.
  intros Hall. split.
  { intros st s' [Hm _]%collect_all_optional; [|done].
    unfold prevent_contribution. by rewrite Hm. }
  cut (extends (λ e, e = EvCall) s (call_with_variants f variants s).2).
  { intros (new & E & F). exists (length new).
    by rewrite <- (Forall_eq_replicate _ _ F). }
  unfold call_with_variants. unfold bind at 1.
  pose proof (emits_only_lift_world (λ e, e = EvCall)
                (GroupingContext.getitem "variant") s) as H0.
  destruct (lift_world _ s) as [[pinned|e] s0]; simpl in H0; [|done].
  assert (extends (λ e, e = EvCall) s
            ((assert_own_variant pinned variants >> invoke f) s0).2) as Hpin.
  { eapply extends_trans; [exact H0|]. apply emits_only_bind.
    - unfold assert_own_variant. destruct pinned; try apply emits_only_raise.
      destruct (_ || _); [apply emits_only_ret|apply emits_only_raise].
    - intros _. by apply emits_only_invoke. }
  destruct pinned; try exact Hpin. clear Hpin.
  unfold bind at 1.
  pose proof (emits_only_for_fold (λ e, e = EvCall) variants
                (collect_variant f) locals_init) as H1.
  specialize (H1 (λ _ _ _, emits_only_collect_variant _ f _ _ eq_refl) s0).
  destruct (for_fold _ _ _ s0) as [[st|e] s1] eqn:E1; simpl in H1.
  2: { by eapply extends_trans. }
  apply collect_all_optional in E1 as [Hm He]; [|done].
  eapply extends_trans; [exact H0|]. eapply extends_trans; [exact H1|].
  apply emits_only_bind; [|intros _; apply emits_only_ret].
  apply emits_only_for_each. intros v _. by apply suppress_variant_idle.
Qed.

Lemma getitem_world key w : (GroupingContext.getitem key w).2 = w.
Proof. unfold GroupingContext.getitem. by destruct (GroupingContext.search _ _). Qed.

(** C6. With a variant [v] pinned in the context: if [v] or ["!" + v] is among
    the candidates, [call_with_variants] is one invocation of the wrapped
    function, whose result and world it hands back unchanged (one [EvCall], no
    update); otherwise it raises [AssertionError] without invoking the
    function and leaves the state as it was. *)
Theorem pinned_variant_invokes_once f variants w tr v :
  (GroupingContext.getitem "variant" w).1 = Ok (PyStr v) →
  (v ∈ variants ∨ "!" +:+ v ∈ variants →
   call_with_variants f variants {| world := w; trace := tr |} =
   ((f w).1, {| world := (f w).2; trace := EvCall :: tr |})) ∧
  (¬ (v ∈ variants ∨ "!" +:+ v ∈ variants) →
   call_with_variants f variants {| world := w; trace := tr |} =
   (Err AssertionError, {| world := w; trace := tr |})).
Proof.
  intros Hpin.
  assert (lift_world (GroupingContext.getitem "variant")
            {| world := w; trace := tr |}
          = (Ok (PyStr v), {| world := w; trace := tr |})) as Hget.
  { unfold lift_world. simpl. pose proof (getitem_world "variant" w) as Hw.
    destruct (GroupingContext.getitem "variant" w) as [r w']. simpl in *.
    by subst. }
  unfold call_with_variants. rewrite (bind_ok _ _ _ _ _ Hget).
  unfold assert_own_variant. split; intros Hin.
  - assert (bool_decide (v ∈ variants) || bool_decide ("!" +:+ v ∈ variants)
            = true) as ->.
    { apply orb_true_iff. destruct Hin; [left|right]; by apply bool_decide_eq_true. }
    unfold bind, ret, invoke, emit, modify, bind, lift_world. simpl.
    by destruct (f w).
  - assert (bool_decide (v ∈ variants) || bool_decide ("!" +:+ v ∈ variants)
            = false) as ->.
    { apply orb_false_iff. split; apply bool_decide_eq_false; tauto. }
    done.
Qed.

Lemma resolve_interfaces_missing paths event args p :
  p ∈ paths → event_interfaces event !! p = None →
  Strategy.resolve_interfaces paths event args = None.
Proof.
  intros Hin Hp. revert args.
  induction paths as [|q paths IH]; intros args; [by apply elem_of_nil in Hin|].
  simpl. destruct (decide (p = q)) as [<-|Hne]; [by rewrite Hp|].
  destruct (event_interfaces event !! q); [|done].
  apply IH. apply elem_of_cons in Hin as [?|?]; done.
Qed.

(** C8. If the event lacks one of the strategy's bound interfaces,
    [get_grouping_component] returns [None] and leaves the machine unchanged
    (no scope is opened and the wrapped function is not invoked, for any
    [variant] argument), and [get_grouping_component_variants] returns the
    empty dictionary. *)
Theorem missing_interface_is_not_applicable self event variant s p :
  p ∈ Strategy.interfaces self →
  event_interfaces event !! p = None →
  Strategy.get_grouping_component self event variant s = (Ok None, s) ∧
  Strategy.get_grouping_component_variants self event s = (Ok (Some ∅), s).
Proof.
  intros Hin Hp.
  assert (∀ v, Strategy.get_grouping_component self event v s = (Ok None, s)) as H.
  { intros v. unfold Strategy.get_grouping_component.
    by rewrite (resolve_interfaces_missing _ _ _ _ Hin Hp). }
  split; [apply H|].
  unfold Strategy.get_grouping_component_variants.
  by rewrite (bind_ok _ _ _ _ _ (H PyNone)).
Qed.

(** *** Step lemmas for the two loops *)

Lemma the_variant_singleton variant component :
  the_variant (Some {[variant := component]}) variant = Ok component.
Proof.
  unfold the_variant. by rewrite map_size_singleton, lookup_singleton_eq.
Qed.

Lemma collect_variant_component f st variant s d w' l c :
  f (enter (lstrip_bang variant) (world s)) = (Ok d, w') →
  stack w' ≠ [] →
  the_variant d (lstrip_bang variant) = Ok (Some l) →
  heap w' !! l = Some c →
  collect_variant f st variant s =
  (Ok (record_component st (is_mandatory variant) (lstrip_bang variant) l c),
   {| world := leave w'; trace := EvCall :: trace s |}).
Proof.
  intros Hf Hst Hv Hl. unfold collect_variant, bind.
  rewrite compute_variant_run, Hf, Hv.
  destruct (stack w') eqn:E; [done|].
  unfold read_component. simpl. by rewrite Hl.
Qed.

Lemma collect_variant_null f st variant s d w' :
  f (enter (lstrip_bang variant) (world s)) = (Ok d, w') →
  stack w' ≠ [] →
  the_variant d (lstrip_bang variant) = Ok None →
  collect_variant f st variant s =
  (Ok st, {| world := leave w'; trace := EvCall :: trace s |}).
Proof.
  intros Hf Hst Hv. unfold collect_variant, bind.
  rewrite compute_variant_run, Hf, Hv.
  by destruct (stack w') eqn:E.
Qed.

Lemma suppress_variant_hash_match st variant s l c duplicate_of :
  rv st !! variant = Some (Some l) →
  prevent_contribution st = false →
  heap (world s) !! l = Some c →
  mandatory_contributing_hashes st !! get_hash c = Some duplicate_of →
  let hint' := "ignored because hash matches " +:+ duplicate_of +:+ " variant" in
  suppress_variant st variant s =
  (Ok tt,
   {| world := set_heap (<[l := update c false hint']> (heap (world s))) (world s);
      trace := EvUpdate HashMatch l hint' :: trace s |}).
Proof.
  intros Hrv Hp Hl Hd. unfold suppress_variant. rewrite Hrv, Hp.
  unfold bind, read_component, component_update, bind, read_component.
  rewrite Hl, Hd. simpl. by rewrite Hl.
Qed.

Lemma suppress_variant_keep st variant s l c :
  rv st !! variant = Some (Some l) →
  prevent_contribution st = false →
  heap (world s) !! l = Some c →
  mandatory_contributing_hashes st !! get_hash c = None →
  suppress_variant st variant s = (Ok tt, s).
Proof.
  intros Hrv Hp Hl Hd. unfold suppress_variant. rewrite Hrv, Hp.
  unfold bind, read_component. by rewrite Hl, Hd.
Qed.

Lemma suppress_variant_not_used st variant s l c :
  rv st !! variant = Some (Some l) →
  prevent_contribution st = true →
  heap (world s) !! l = Some c →
  let hint' := "ignored because other mandatory variant is not used" in
  suppress_variant st variant s =
  (Ok tt,
   {| world := set_heap (<[l := update c false hint']> (heap (world s))) (world s);
      trace := EvUpdate NotUsed l hint' :: trace s |}).
Proof.
  intros Hrv Hp Hl. unfold suppress_variant. rewrite Hrv, Hp.
  rewrite (prevent_contribution_empty _ Hp), unused_variant_name_empty.
  rewrite bind_lift_result_ok.
  unfold component_update, bind, read_component. by rewrite Hl.
Qed.

Lemma top_level_getitem w tr :
  (GroupingContext.getitem "variant" w).1 = Ok PyNone →
  lift_world (GroupingContext.getitem "variant") {| world := w; trace := tr |}
  = (Ok PyNone, {| world := w; trace := tr |}).
Proof.
  intros H. unfold lift_world. simpl.
  pose proof (getitem_world "variant" w) as Hw.
  destruct (GroupingContext.getitem "variant" w) as [r w']. simpl in *.
  by subst.
Qed.

(** C3. Scenario A, for any wrapped function: run top-level with candidates
    ["!system"; "app"], where the function answers the system variant with a
    contributing component of hash "h1" and the app variant with a
    contributing component of hash "h1". The result maps both variants to
    their components; the app component is updated to non-contributing with
    the hint "ignored because hash matches system variant"; the system
    component, when it is another object than the app component, is as the
    function left it. *)
Theorem scenario_A_hash_match f tr w w1 w2 ls la cs ca :
  (GroupingContext.getitem "variant" w).1 = Ok PyNone →
  f (enter "system" w) = (Ok (Some {["system" := Some ls]}), w1) →
  stack w1 ≠ [] →
  heap w1 !! ls = Some cs → contributes cs = true → get_hash cs = "h1" →
  f (enter "app" (leave w1)) = (Ok (Some {["app" := Some la]}), w2) →
  stack w2 ≠ [] →
  heap w2 !! la = Some ca → contributes ca = true → get_hash ca = "h1" →
  let hint' := "ignored because hash matches system variant" in
  let out := call_with_variants f ["!system"; "app"]
               {| world := w; trace := tr |} in
  out.1 = Ok (Some (<["app" := Some la]> {["system" := Some ls]})) ∧
  heap (world out.2) !! la = Some (update ca false hint') ∧
  (ls ≠ la → heap (world out.2) !! ls = heap w2 !! ls) ∧
  trace out.2 = EvUpdate HashMatch la hint' :: EvCall :: EvCall :: tr.
Proof.
  intros Htop Hf1 Hs1 Hls Hcs Hhs Hf2 Hs2 Hla Hca Hha hint' out.
  assert (out =
    (Ok (Some (<["app" := Some la]> {["system" := Some ls]})),
     {| world := set_heap (<[la := update ca false hint']> (heap w2)) (leave w2);
        trace := EvUpdate HashMatch la hint' :: EvCall :: EvCall :: tr |}))
    as ->.
  { subst out. unfold call_with_variants.
    rewrite (bind_ok _ _ _ _ _ (top_level_getitem w tr Htop)).
    erewrite bind_ok; cycle 1.
    { simpl. erewrite bind_ok; cycle 1.
      { eapply (collect_variant_component f locals_init "!system");
          [exact Hf1|done|apply the_variant_singleton|exact Hls]. }
      erewrite bind_ok; cycle 1.
      { eapply (collect_variant_component f _ "app");
          [exact Hf2|done|apply the_variant_singleton|exact Hla]. }
      reflexivity. }
    unfold record_component. simpl. rewrite Hcs, Hca, Hhs. simpl.
    erewrite bind_ok; cycle 1.
    { erewrite bind_ok; cycle 1.
      { eapply (suppress_variant_hash_match _ "app" _ la ca "system").
        - simpl. apply lookup_insert_eq.
        - unfold prevent_contribution. simpl.
          apply bool_decide_eq_false, insert_non_empty.
        - exact Hla.
        - simpl. rewrite Hha. apply lookup_insert_eq. }
      reflexivity. }
    reflexivity. }
  simpl. split; [done|]. split; [apply lookup_insert_eq|].
  split; [|done]. intros Hne. by apply lookup_insert_ne.
Qed.

(** ** The store of dictionaries *)

Lemma write_strategy_dict_same l d σ :
  strategy_dicts σ !! l = Some d → write_strategy_dict l d σ = σ.
Proof.
  intros H. destruct σ as [sd cd]. unfold write_strategy_dict, set_strategy_dicts.
  simpl in *. by rewrite insert_id.
Qed.

Lemma write_strategy_dict_twice l d d' σ :
  write_strategy_dict l d' (write_strategy_dict l d σ) = write_strategy_dict l d' σ.
Proof.
  unfold write_strategy_dict, set_strategy_dicts. simpl.
  by rewrite insert_insert_eq.
Qed.

Lemma lookup_write_strategy_dict l d σ :
  strategy_dicts (write_strategy_dict l d σ) !! l = Some d.
Proof. apply lookup_insert_eq. Qed.

Lemma lookup_write_strategy_dict_ne l l' d σ :
  l ≠ l' →
  strategy_dicts (write_strategy_dict l d σ) !! l' = strategy_dicts σ !! l'.
Proof. intros. by apply lookup_insert_ne. Qed.

Lemma write_context_dict_same l d σ :
  context_dicts σ !! l = Some d → write_context_dict l d σ = σ.
Proof.
  intros H. destruct σ as [sd cd]. unfold write_context_dict, set_context_dicts.
  simpl in *. by rewrite insert_id.
Qed.

Lemma write_context_dict_twice l d d' σ :
  write_context_dict l d' (write_context_dict l d σ) = write_context_dict l d' σ.
Proof.
  unfold write_context_dict, set_context_dicts. simpl.
  by rewrite insert_insert_eq.
Qed.

(** *** Store computations that refine dictionary computations *)

Section Refines.
Context (l : loc).

Lemma refines_ret {A} (a : A) : refines l (ret a) (ret a).
Proof. intros σ d H. unfold ret. simpl. by rewrite write_strategy_dict_same. Qed.

Lemma refines_raise {A} e : refines l (raise (A := A) e) (raise e).
Proof. intros σ d H. unfold raise. simpl. by rewrite write_strategy_dict_same. Qed.

Lemma refines_lift_result {A} (r : result A) :
  refines l (lift_result r) (lift_result r).
Proof.
  intros σ d H. unfold lift_result. simpl. by rewrite write_strategy_dict_same.
Qed.

Lemma refines_mutate g : refines l (mutate_strategy_dict l g) (modify g).
Proof.
  intros σ d H. unfold mutate_strategy_dict, bind, read_strategy_dict.
  by rewrite H.
Qed.

Lemma refines_bind {A B} ms md (ks : A → M Store B) kd :
  refines l ms md → (∀ a, refines l (ks a) (kd a)) →
  refines l (bind ms ks) (bind md kd).
Proof.
  intros Hm Hk σ d H. unfold bind. rewrite (Hm σ d H).
  destruct (md d) as [[a|e] d1]; simpl; [|done].
  rewrite (Hk a _ d1 (lookup_write_strategy_dict l d1 σ)).
  by rewrite write_strategy_dict_twice.
Qed.

Lemma refines_for_each {A} (xs : list A) bs bd :
  (∀ x, refines l (bs x) (bd x)) →
  refines l (for_each xs bs) (for_each xs bd).
Proof.
  intros Hb. induction xs as [|x xs IH]; simpl.
  - apply refines_ret.
  - apply refines_bind; [apply Hb|]. intros _. apply IH.
Qed.

Lemma refines_for_fold {A B} (xs : list A) bs bd (acc : B) :
  (∀ acc x, refines l (bs acc x) (bd acc x)) →
  refines l (for_fold xs bs acc) (for_fold xs bd acc).
Proof.
  intros Hb. revert acc. induction xs as [|x xs IH]; intros acc; simpl.
  - apply refines_ret.
  - apply refines_bind; [apply Hb|]. intros acc'. apply IH.
Qed.

Lemma refines_add_strategies STRATEGIES id by_class strategies :
  refines l
    (add_strategies (mutate_strategy_dict l) STRATEGIES id by_class strategies)
    (add_strategies modify STRATEGIES id by_class strategies).
Proof.
  unfold add_strategies. apply refines_for_each. intros strategy_id.
  apply refines_bind; [apply refines_lift_result|]. intros strategy.
  destruct (Strategy.score strategy); [|apply refines_raise].
  apply refines_bind; [|intros _; apply refines_mutate].
  apply refines_for_each. intros old_id. apply refines_mutate.
Qed.

Lemma refines_add_delegates STRATEGIES id delegates :
  refines l
    (add_delegates (mutate_strategy_dict l) STRATEGIES id delegates)
    (add_delegates modify STRATEGIES id delegates).
Proof.
  unfold add_delegates. apply refines_for_fold. intros nd strategy_id.
  apply refines_bind; [apply refines_lift_result|]. intros strategy.
  unfold claim_interfaces. apply refines_for_fold. intros nd' interface.
  destruct (bool_decide _); [apply refines_raise|].
  apply refines_bind; [apply refines_mutate|]. intros _. apply refines_ret.
Qed.

End Refines.

(** *** The build, stage by stage *)

Lemma fresh_strategy_dict σ :
  strategy_dicts σ !! fresh (dom (strategy_dicts σ)) = None.
Proof. apply not_elem_of_dom, is_fresh. Qed.

Lemma fresh_context_dict σ :
  context_dicts σ !! fresh (dom (context_dicts σ)) = None.
Proof. apply not_elem_of_dom, is_fresh. Qed.

Section BuildRun.
Variable cleandoc : string → string.

Lemma create_strategy_configuration_run
    STRATEGIES id strategies delegates changelog hidden base risk
    initial_context σ bs bd bc :
  base_dicts σ base bs bd bc →
  let sl := fresh (dom (strategy_dicts σ)) in
  let σ1 := write_strategy_dict sl bs σ in
  let dl := fresh (dom (strategy_dicts σ1)) in
  let σ2 := write_strategy_dict dl bd σ1 in
  let cl := fresh (dom (context_dicts σ)) in
  let σ3 := write_context_dict cl bc σ2 in
  let rs := add_strategies modify STRATEGIES id (by_class_of bs)
              (default [] strategies) bs in
  let rd := add_delegates modify STRATEGIES id (default [] delegates) bd in
  create_strategy_configuration cleandoc STRATEGIES id strategies delegates
    changelog hidden base risk initial_context σ =
  match rs.1 with
  | Err e => (Err e, write_strategy_dict sl rs.2 σ3)
  | Ok _ =>
      match rd.1 with
      | Err e =>
          (Err e, write_strategy_dict dl rd.2 (write_strategy_dict sl rs.2 σ3))
      | Ok _ =>
          (Ok {| StrategyConfiguration.id := id;
                 StrategyConfiguration.base := base;
                 StrategyConfiguration.strategies := sl;
                 StrategyConfiguration.delegates := dl;
                 StrategyConfiguration.initial_context := cl;
                 StrategyConfiguration.changelog :=
                   cleandoc (default "" changelog);
                 StrategyConfiguration.hidden := hidden;
                 StrategyConfiguration.risk := default RISK_LEVEL_LOW risk |},
           write_context_dict cl (merged_context initial_context bc)
             (write_strategy_dict dl rd.2 (write_strategy_dict sl rs.2 σ3)))
      end
  end.
Proof.
  intros Hbase sl σ1 dl σ2 cl σ3 rs rd.
  assert (sl ≠ dl) as Hsd.
  { intros E. pose proof (fresh_strategy_dict σ1) as Hf. fold dl in Hf.
    rewrite <- E in Hf. unfold σ1 in Hf.
    by rewrite lookup_write_strategy_dict in Hf. }
  unfold create_strategy_configuration.
  (* seeding *)
  assert ((match base with
           | Some b => read_strategy_dict (StrategyConfiguration.strategies b)
           | None => ret ∅ end) σ = (Ok bs, σ)) as E1.
  { destruct base as [b|]; simpl in Hbase.
    - destruct Hbase as (H & _ & _). unfold read_strategy_dict. by rewrite H.
    - by destruct Hbase as (-> & _ & _). }
  rewrite (bind_ok _ _ _ _ _ E1).
  rewrite (bind_ok (new_strategy_dict bs) _ σ sl σ1 eq_refl).
  assert ((match base with
           | Some b => read_strategy_dict (StrategyConfiguration.delegates b)
           | None => ret ∅ end) σ1 = (Ok bd, σ1)) as E2.
  { destruct base as [b|]; simpl in Hbase.
    - destruct Hbase as (_ & H & _). unfold read_strategy_dict, σ1.
      rewrite lookup_write_strategy_dict_ne, H; [done|].
      intros E. pose proof (fresh_strategy_dict σ) as Hf. fold sl in Hf.
      congruence.
    - by destruct Hbase as (_ & -> & _). }
  rewrite (bind_ok _ _ _ _ _ E2).
  rewrite (bind_ok (new_strategy_dict bd) _ σ1 dl σ2 eq_refl).
  assert ((match base with
           | Some b => read_context_dict (StrategyConfiguration.initial_context b)
           | None => ret ∅ end) σ2 = (Ok bc, σ2)) as E3.
  { destruct base as [b|]; simpl in Hbase.
    - destruct Hbase as (_ & _ & H). unfold read_context_dict. simpl.
      by rewrite H.
    - by destruct Hbase as (_ & _ & ->). }
  rewrite (bind_ok _ _ _ _ _ E3).
  rewrite (bind_ok (new_context_dict bc) _ σ2 cl σ3 eq_refl).
  assert (strategy_dicts σ3 !! sl = Some bs) as Hsl.
  { unfold σ3, σ2. simpl. rewrite lookup_insert_ne by done.
    apply lookup_insert_eq. }
  assert (read_strategy_dict sl σ3 = (Ok bs, σ3)) as E4.
  { unfold read_strategy_dict. by rewrite Hsl. }
  rewrite (bind_ok _ _ _ _ _ E4).
  pose proof (refines_add_strategies sl STRATEGIES id (by_class_of bs)
                (default [] strategies) σ3 bs Hsl) as E5.
  fold rs in E5. unfold bind at 1. rewrite E5.
  destruct (rs.1) as [[]|e]; [|done].
  set (σ4 := write_strategy_dict sl rs.2 σ3).
  assert (strategy_dicts σ4 !! dl = Some bd) as Hdl.
  { unfold σ4, σ3, σ2. simpl. rewrite lookup_insert_ne by done.
    apply lookup_insert_eq. }
  pose proof (refines_add_delegates dl STRATEGIES id
                (default [] delegates) σ4 bd Hdl) as E6.
  fold rd in E6. unfold bind at 1. rewrite E6.
  destruct (rd.1) as [nd|e]; [|done].
  set (σ5 := write_strategy_dict dl rd.2 σ4).
  assert (context_dicts σ5 !! cl = Some bc) as Hcl.
  { unfold σ5, σ4, σ3. simpl. apply lookup_insert_eq. }
  unfold bind, ret, merged_context.
  destruct initial_context as [updates|].
  - destruct (bool_decide (updates = ∅)).
    + by rewrite write_context_dict_same.
    + unfold mutate_context_dict, bind, read_context_dict. by rewrite Hcl.
  - by rewrite write_context_dict_same.
Qed.
End BuildRun.

(** ** The strategies loop *)

Lemma evict_run old_ids (d : gmap string Strategy.t) :
  for_each old_ids (λ old_id, modify (delete old_id)) d =
  (Ok tt, foldl (λ d old_id, delete old_id d) d old_ids).
Proof.
  revert d. induction old_ids as [|o old_ids IH]; intros d; simpl; [done|].
  unfold bind, modify. simpl. apply IH.
Qed.

Lemma lookup_evicted_ne old_ids (d : gmap string Strategy.t) k :
  k ∉ old_ids → (foldl (λ d old_id, delete old_id d) d old_ids) !! k = d !! k.
Proof.
  revert d. induction old_ids as [|o old_ids IH]; intros d Hk; simpl; [done|].
  apply not_elem_of_cons in Hk as [Hne Hk].
  rewrite IH by done. by apply lookup_delete_ne.
Qed.

Lemma lookup_evicted_Some old_ids (d : gmap string Strategy.t) k s :
  (foldl (λ d old_id, delete old_id d) d old_ids) !! k = Some s →
  (k ∉ old_ids) ∧ d !! k = Some s.
Proof.
  revert d. induction old_ids as [|o old_ids IH]; intros d; simpl.
  - intros H. split; [apply not_elem_of_nil|done].
  - intros [Hk H]%IH. apply lookup_delete_Some in H as [Hne H].
    split; [|done]. apply not_elem_of_cons. by split.
Qed.

Lemma add_strategies_cons STRATEGIES id by_class strategy_id strategies d :
  add_strategies modify STRATEGIES id by_class (strategy_id :: strategies) d =
  match STRATEGIES !! strategy_id with
  | None => (Err (LookupError strategy_id), d)
  | Some strategy =>
      match Strategy.score strategy with
      | None => (Err (RuntimeError (UnscoredStrategy strategy_id id)), d)
      | Some _ =>
          add_strategies modify STRATEGIES id by_class strategies
            (<[strategy_id := strategy]>
               (foldl (λ d old_id, delete old_id d) d
                  (default [] (by_class !! Strategy.strategy_class strategy))))
      end
  end.
Proof.
  unfold add_strategies at 1. simpl. unfold bind at 1 2, lift_result, lookup_strategy.
  destruct (STRATEGIES !! strategy_id) as [strategy|]; [|done].
  destruct (Strategy.score strategy); [|done].
  unfold bind at 1. rewrite evict_run. done.
Qed.

Lemma add_strategies_succeeds STRATEGIES id by_class strategies d :
  Forall (λ strategy_id, ∃ s, STRATEGIES !! strategy_id = Some s ∧
                              is_Some (Strategy.score s)) strategies →
  ∃ d', add_strategies modify STRATEGIES id by_class strategies d = (Ok tt, d').
Proof.
  intros Hall. revert d.
  induction Hall as [|sid ids (s & Hs & [z Hz]) _ IH]; intros d.
  - by exists d.
  - rewrite add_strategies_cons, Hs, Hz. apply IH.
Qed.

(** *** What [by_class] lists *)

Lemma elem_of_by_class ss c o :
  o ∈ default [] (foldr by_class_add ∅ ss !! c) ↔
  ∃ s, s ∈ ss ∧ Strategy.strategy_class s = c ∧ Strategy.id s = o.
Proof.
  induction ss as [|s ss IH]; simpl.
  - rewrite lookup_empty. simpl. split; [by intros ?%elem_of_nil|].
    by intros (s & ?%elem_of_nil & _).
  - unfold by_class_add at 1.
    destruct (decide (Strategy.strategy_class s = c)) as [<-|Hne].
    + rewrite lookup_insert_eq. simpl. rewrite elem_of_app, IH, list_elem_of_singleton.
      split.
      * intros [(s' & Hin & Hc & Ho)| ->].
        -- exists s'. split; [by right|done].
        -- exists s. split; [by left|done].
      * intros (s' & [->|Hin]%elem_of_cons & Hc & Ho); [by right|].
        left. by exists s'.
    + rewrite lookup_insert_ne by done. rewrite IH. split.
      * intros (s' & Hin & Hc & Ho). exists s'. split; [by right|done].
      * intros (s' & [->|Hin]%elem_of_cons & Hc & Ho); [done|]. by exists s'.
Qed.

Lemma elem_of_by_class_of d c o :
  o ∈ default [] (by_class_of d !! c) ↔
  ∃ k s, d !! k = Some s ∧ Strategy.strategy_class s = c ∧ Strategy.id s = o.
Proof.
  unfold by_class_of. rewrite elem_of_by_class. split.
  - intros (s & Hin & Hc & Ho).
    apply list_elem_of_fmap in Hin as ([k s'] & -> & Hin).
    apply elem_of_map_to_list in Hin. by exists k, s'.
  - intros (k & s & Hk & Hc & Ho). exists s. split; [|done].
    apply list_elem_of_fmap. exists (k, s). split; [done|].
    by apply elem_of_map_to_list.
Qed.

(** *** Inherited strategies *)

Lemma add_strategies_inherits STRATEGIES id bs strategies d d' k s :
  registry_wf STRATEGIES →
  d !! k = Some s → Strategy.id s = k →
  (∀ strategy_id t, strategy_id ∈ strategies →
     STRATEGIES !! strategy_id = Some t →
     Strategy.strategy_class t ≠ Strategy.strategy_class s) →
  add_strategies modify STRATEGIES id (by_class_of bs) strategies d = (Ok tt, d') →
  d' !! k = Some s.
Proof.
  intros Hreg Hk Hid. revert d Hk.
  induction strategies as [|sid ids IH]; intros d Hk Hcls.
  - by intros [= <-].
  - rewrite add_strategies_cons.
    destruct (STRATEGIES !! sid) as [t|] eqn:Ht; [|done].
    destruct (Strategy.score t); [|done].
    assert (Strategy.strategy_class t ≠ Strategy.strategy_class s) as Hne.
    { eapply Hcls; [left|done]. }
    apply IH.
    + rewrite lookup_insert_ne.
      * rewrite lookup_evicted_ne; [done|].
        intros (k0 & s0 & _ & Hc & Ho)%elem_of_by_class_of.
        apply Hne. rewrite <- Hc. unfold Strategy.strategy_class. congruence.
      * intros ->. apply Hne. unfold Strategy.strategy_class.
        by rewrite (Hreg _ _ Ht), Hid.
    + intros sid' t' Hin. apply Hcls. by right.
Qed.

(** ** The delegates loop *)

Local Abbreviation claim_step id s :=
  (λ (new_delegates : gset string) (interface : string),
     if bool_decide (interface ∈ new_delegates)
     then raise (RuntimeError (DuplicateDelegate id interface))
     else modify (<[interface := s]>) >> ret ({[interface]} ∪ new_delegates)).

Local Abbreviation delegate_step STRATEGIES id :=
  (λ (new_delegates : gset string) (strategy_id : string),
     let! strategy := lift_result (lookup_strategy STRATEGIES strategy_id) in
     claim_interfaces modify id strategy new_delegates).

Lemma claim_loop_cons id (s : Strategy.t) x xs nd (d : gmap string Strategy.t) :
  for_fold (x :: xs) (claim_step id s) nd d =
  if bool_decide (x ∈ nd)
  then (Err (RuntimeError (DuplicateDelegate id x)), d)
  else for_fold xs (claim_step id s) ({[x]} ∪ nd) (<[x := s]> d).
Proof. simpl. unfold bind at 1. by destruct (bool_decide (x ∈ nd)). Qed.

Lemma claim_loop_ok id (s : Strategy.t) xs nd (d : gmap string Strategy.t) nd' d' :
  for_fold xs (claim_step id s) nd d = (Ok nd', d') →
  NoDup xs ∧ (∀ x, x ∈ xs → x ∉ nd) ∧ nd' = list_to_set xs ∪ nd ∧
  (∀ x, x ∈ xs → d' !! x = Some s) ∧ (∀ x, x ∉ xs → d' !! x = d !! x).
Proof.
  revert nd d. induction xs as [|x xs IH]; intros nd d.
  - intros [= <- <-]. split; [constructor|]. split; [by intros ? ?%elem_of_nil|].
    split; [set_solver|]. split; [by intros ? ?%elem_of_nil|done].
  - rewrite claim_loop_cons. case_bool_decide as Hx; [done|].
    intros (Hnd & Hdis & -> & Hin & Hout)%IH.
    assert (x ∉ xs) as Hxs. { intros Hxs. apply (Hdis x Hxs). set_solver. }
    split; [by constructor|]. split.
    { intros y [->|Hy]%elem_of_cons; [done|].
      intros Hynd. apply (Hdis y Hy). set_solver. }
    split; [set_solver|]. split.
    + intros y [->|Hy]%elem_of_cons; [|by apply Hin].
      rewrite Hout by done. apply lookup_insert_eq.
    + intros y [Hne Hy]%not_elem_of_cons. rewrite Hout by done.
      by apply lookup_insert_ne.
Qed.

Lemma claim_loop_kind id (s : Strategy.t) xs nd (d : gmap string Strategy.t) :
  (∃ nd', (for_fold xs (claim_step id s) nd d).1 = Ok nd') ∨
  (∃ x, (for_fold xs (claim_step id s) nd d).1
        = Err (RuntimeError (DuplicateDelegate id x))).
Proof.
  revert nd d. induction xs as [|x xs IH]; intros nd d.
  - left. by exists nd.
  - rewrite claim_loop_cons. case_bool_decide; [right; by exists x|apply IH].
Qed.

Lemma claim_loop_succeeds id (s : Strategy.t) xs nd (d : gmap string Strategy.t) :
  NoDup xs → (∀ x, x ∈ xs → x ∉ nd) →
  ∃ nd' d', for_fold xs (claim_step id s) nd d = (Ok nd', d').
Proof.
  intros Hnd. revert nd d. induction Hnd as [|x xs Hx _ IH]; intros nd d Hdis.
  - by exists nd, d.
  - rewrite claim_loop_cons. rewrite bool_decide_eq_false_2.
    + apply IH. intros y Hy [->%elem_of_singleton|Hynd]%elem_of_union; [done|].
      apply (Hdis y); [by right|done].
    + apply Hdis. by left.
Qed.

Lemma delegates_loop_cons STRATEGIES id strategy_id delegates nd
    (d : gmap string Strategy.t) :
  for_fold (strategy_id :: delegates) (delegate_step STRATEGIES id) nd d =
  match STRATEGIES !! strategy_id with
  | None => (Err (LookupError strategy_id), d)
  | Some s =>
      match for_fold (Strategy.interfaces s) (claim_step id s) nd d with
      | (Ok nd1, d1) => for_fold delegates (delegate_step STRATEGIES id) nd1 d1
      | (Err e, d1) => (Err e, d1)
      end
  end.
Proof.
  simpl. unfold bind at 1 2, lift_result, lookup_strategy.
  by destruct (STRATEGIES !! strategy_id).
Qed.

Lemma claimed_interfaces_cons STRATEGIES strategy_id delegates s :
  STRATEGIES !! strategy_id = Some s →
  claimed_interfaces STRATEGIES (strategy_id :: delegates) =
  Strategy.interfaces s ++ claimed_interfaces STRATEGIES delegates.
Proof. intros H. unfold claimed_interfaces. by rewrite bind_cons, H. Qed.

Lemma delegates_loop_ok STRATEGIES id delegates nd (d : gmap string Strategy.t)
    nd' d' :
  for_fold delegates (delegate_step STRATEGIES id) nd d = (Ok nd', d') →
  NoDup (claimed_interfaces STRATEGIES delegates) ∧
  (∀ x, x ∈ claimed_interfaces STRATEGIES delegates → x ∉ nd) ∧
  nd' = list_to_set (claimed_interfaces STRATEGIES delegates) ∪ nd ∧
  (∀ strategy_id s x, strategy_id ∈ delegates →
     STRATEGIES !! strategy_id = Some s → x ∈ Strategy.interfaces s →
     d' !! x = Some s) ∧
  (∀ x, x ∉ claimed_interfaces STRATEGIES delegates → d' !! x = d !! x).
Proof.
  revert nd d. induction delegates as [|sid ids IH]; intros nd d.
  - intros [= <- <-]. split; [constructor|]. split; [by intros ? ?%elem_of_nil|].
    split; [set_solver|]. split; [by intros ? ? ? ?%elem_of_nil|done].
  - rewrite delegates_loop_cons.
    destruct (STRATEGIES !! sid) as [s|] eqn:Hs; [|done].
    destruct (for_fold (Strategy.interfaces s) _ nd d) as [[nd1|e] d1] eqn:E1;
      [|done].
    apply claim_loop_ok in E1 as (Hnd1 & Hdis1 & -> & Hin1 & Hout1).
    intros (Hnd & Hdis & -> & Hin & Hout)%IH.
    rewrite (claimed_interfaces_cons _ _ _ _ Hs).
    split.
    { apply NoDup_app. split; [done|]. split; [|done].
      intros x Hx Hx'. apply (Hdis x Hx'). set_solver. }
    split.
    { intros x [Hx|Hx]%elem_of_app; [by apply Hdis1|].
      intros Hxnd. apply (Hdis x Hx). set_solver. }
    split; [set_solver|]. split.
    + intros sid' s' x [->|Hsid]%elem_of_cons Hs' Hx.
      * assert (s' = s) as -> by congruence.
        rewrite Hout; [by apply Hin1|].
        intros Hx'. apply (Hdis x Hx'). set_solver.
      * by eapply Hin.
    + intros x [Hx1 Hx2]%not_elem_of_app. rewrite Hout by done. by apply Hout1.
Qed.

Lemma delegates_loop_kind STRATEGIES id delegates nd (d : gmap string Strategy.t) :
  Forall (λ strategy_id, is_Some (STRATEGIES !! strategy_id)) delegates →
  (∃ nd', (for_fold delegates (delegate_step STRATEGIES id) nd d).1 = Ok nd') ∨
  (∃ x, (for_fold delegates (delegate_step STRATEGIES id) nd d).1
        = Err (RuntimeError (DuplicateDelegate id x))).
Proof.
  intros Hall. revert nd d. induction Hall as [|sid ids [s Hs] _ IH]; intros nd d.
  - left. by exists nd.
  - rewrite delegates_loop_cons, Hs.
    destruct (claim_loop_kind id s (Strategy.interfaces s) nd d) as [[nd1 E]|[x E]];
      destruct (for_fold (Strategy.interfaces s) _ nd d) as [[nd2|e] d1];
      simpl in E; try discriminate.
    + apply IH.
    + right. exists x. simpl. congruence.
Qed.

Lemma delegates_loop_succeeds STRATEGIES id delegates nd
    (d : gmap string Strategy.t) :
  Forall (λ strategy_id, is_Some (STRATEGIES !! strategy_id)) delegates →
  NoDup (claimed_interfaces STRATEGIES delegates) →
  (∀ x, x ∈ claimed_interfaces STRATEGIES delegates → x ∉ nd) →
  ∃ nd' d', for_fold delegates (delegate_step STRATEGIES id) nd d = (Ok nd', d').
Proof.
  intros Hall. revert nd d.
  induction Hall as [|sid ids [s Hs] _ IH]; intros nd d Hnd Hdis.
  - by exists nd, d.
  - rewrite delegates_loop_cons, Hs.
    rewrite (claimed_interfaces_cons _ _ _ _ Hs) in Hnd, Hdis.
    apply NoDup_app in Hnd as (Hnd1 & Hcross & Hnd2).
    destruct (claim_loop_succeeds id s (Strategy.interfaces s) nd d Hnd1)
      as (nd1 & d1 & E1).
    { intros x Hx. apply Hdis, elem_of_app. by left. }
    rewrite E1. apply IH; [done|].
    apply claim_loop_ok in E1 as (_ & _ & -> & _ & _).
    intros x Hx [Hx'%elem_of_list_to_set|Hx']%elem_of_union.
    + by apply (Hcross x).
    + apply (Hdis x); [|done]. apply elem_of_app. by right.
Qed.

Lemma shared_interface_not_NoDup STRATEGIES delegates i j a b sa sb x :
  i < j → delegates !! i = Some a → delegates !! j = Some b →
  STRATEGIES !! a = Some sa → STRATEGIES !! b = Some sb →
  x ∈ Strategy.interfaces sa → x ∈ Strategy.interfaces sb →
  ¬ NoDup (claimed_interfaces STRATEGIES delegates).
Proof.
  intros Hij Hi Hj Ha Hb Hxa Hxb.
  rewrite <- (take_drop_middle delegates i a Hi).
  unfold claimed_interfaces. rewrite bind_app, bind_cons, Ha.
  intros (_ & _ & (_ & Hcross & _)%NoDup_app)%NoDup_app.
  apply (Hcross x Hxa). apply list_elem_of_bind. exists b. rewrite Hb.
  split; [done|]. apply (list_elem_of_lookup_2 _ (j - S i)).
  rewrite lookup_drop. by replace (S i + (j - S i)) with j by lia.
Qed.

(** ** The build *)

Lemma mutate_strategy_dict_frame l g σ :
  (∀ l', l' ≠ l →
     strategy_dicts (mutate_strategy_dict l g σ).2 !! l' = strategy_dicts σ !! l') ∧
  context_dicts (mutate_strategy_dict l g σ).2 = context_dicts σ.
Proof.
  unfold mutate_strategy_dict, bind, read_strategy_dict.
  destruct (strategy_dicts σ !! l); simpl; [|done].
  split; [|done]. intros l' Hne. by apply lookup_insert_ne.
Qed.

Lemma mutate_context_dict_frame l g σ :
  (∀ l', l' ≠ l →
     context_dicts (mutate_context_dict l g σ).2 !! l' = context_dicts σ !! l') ∧
  strategy_dicts (mutate_context_dict l g σ).2 = strategy_dicts σ.
Proof.
  unfold mutate_context_dict, bind, read_context_dict.
  destruct (context_dicts σ !! l); simpl; [|done].
  split; [|done]. intros l' Hne. by apply lookup_insert_ne.
Qed.

Lemma add_strategies_keeps_untouched STRATEGIES id by_class strategies
    (d d' : gmap string Strategy.t) k s :
  d !! k = Some s → k ∉ strategies →
  (∀ a t, a ∈ strategies → STRATEGIES !! a = Some t →
     k ∉ default [] (by_class !! Strategy.strategy_class t)) →
  add_strategies modify STRATEGIES id by_class strategies d = (Ok tt, d') →
  d' !! k = Some s.
Proof.
  revert d. induction strategies as [|a l IH]; intros d Hk Hreq Hevict.
  - by intros [= <-].
  - rewrite add_strategies_cons.
    destruct (STRATEGIES !! a) as [t|] eqn:Ht; [|done].
    destruct (Strategy.score t); [|done].
    apply not_elem_of_cons in Hreq as [Hne Hreq].
    apply IH; [|done|].
    + rewrite lookup_insert_ne by done. rewrite lookup_evicted_ne; [done|].
      apply (Hevict a t); [by left|done].
    + intros a' t' Ha'. apply Hevict. by right.
Qed.

Lemma add_strategies_origin STRATEGIES id by_class strategies
    (d d' : gmap string Strategy.t) k s :
  add_strategies modify STRATEGIES id by_class strategies d = (Ok tt, d') →
  d' !! k = Some s →
  d !! k = Some s ∨ (k ∈ strategies ∧ STRATEGIES !! k = Some s).
Proof.
  revert d. induction strategies as [|a l IH]; intros d.
  - intros [= <-]. by left.
  - rewrite add_strategies_cons.
    destruct (STRATEGIES !! a) as [t|] eqn:Ht; [|done].
    destruct (Strategy.score t); [|done].
    intros Hrun Hk. destruct (IH _ Hrun Hk) as [Hd|[Hin Hreg]].
    + destruct (decide (a = k)) as [<-|Hne].
      * rewrite lookup_insert_eq in Hd. injection Hd as <-.
        right. split; [by left|done].
      * rewrite lookup_insert_ne in Hd by done.
        apply lookup_evicted_Some in Hd as [_ Hd]. by left.
    + right. split; [by right|done].
Qed.

Section BuildTheorems.
Variable cleandoc : string → string.

(** C5. For a build whose base dictionaries exist, whose requested strategies
    are registered with a score and whose requested delegates are registered:
    if two requested delegates (at positions [i < j]) declare a common
    interface, the build raises the duplicate-delegate [RuntimeError]; if the
    interfaces declared by the requested delegates are pairwise distinct, the
    build succeeds, every declared interface is mapped to the requested
    delegate that declares it (whatever the base mapped it to), and every
    other interface keeps the base's delegate. *)
Theorem new_delegates_conflict_only_with_each_other
    STRATEGIES id strategies delegates changelog hidden base risk
    initial_context σ bs bd bc :
  base_dicts σ base bs bd bc →
  Forall (λ strategy_id, ∃ s, STRATEGIES !! strategy_id = Some s ∧
                              is_Some (Strategy.score s))
         (default [] strategies) →
  Forall (λ strategy_id, is_Some (STRATEGIES !! strategy_id))
         (default [] delegates) →
  let out := create_strategy_configuration cleandoc STRATEGIES id strategies
               delegates changelog hidden base risk initial_context σ in
  (∀ i j a b sa sb x,
     i < j →
     default [] delegates !! i = Some a → default [] delegates !! j = Some b →
     STRATEGIES !! a = Some sa → STRATEGIES !! b = Some sb →
     x ∈ Strategy.interfaces sa → x ∈ Strategy.interfaces sb →
     ∃ x', out.1 = Err (RuntimeError (DuplicateDelegate id x'))) ∧
  (NoDup (claimed_interfaces STRATEGIES (default [] delegates)) →
   ∃ c dd,
     out.1 = Ok c ∧
     strategy_dicts out.2 !! StrategyConfiguration.delegates c = Some dd ∧
     (∀ strategy_id s x,
        strategy_id ∈ default [] delegates →
        STRATEGIES !! strategy_id = Some s → x ∈ Strategy.interfaces s →
        dd !! x = Some s) ∧
     (∀ x, x ∉ claimed_interfaces STRATEGIES (default [] delegates) →
        dd !! x = bd !! x)).
Proof.
  intros Hbase Hstr Hdel out. subst out.
  rewrite (create_strategy_configuration_run cleandoc _ _ _ _ _ _ _ _ _ _ _ _ _ Hbase).
  destruct (add_strategies_succeeds STRATEGIES id (by_class_of bs)
              (default [] strategies) bs Hstr) as [ds Es].
  rewrite Es. simpl. unfold add_delegates.
  split.
  - intros i j a b sa sb x Hij Hi Hj Ha Hb Hxa Hxb.
    destruct (delegates_loop_kind STRATEGIES id (default [] delegates) ∅ bd Hdel)
      as [[nd E]|[x' E]].
    + exfalso.
      destruct (for_fold (default [] delegates) _ ∅ bd) as [r dd] eqn:Ed.
      simpl in E. subst r.
      apply delegates_loop_ok in Ed as (Hnd & _).
      by eapply shared_interface_not_NoDup.
    + exists x'. by rewrite E.
  - intros Hnd.
    destruct (delegates_loop_succeeds STRATEGIES id (default [] delegates) ∅ bd
                Hdel Hnd) as (nd & dd & Ed); [set_solver|].
    rewrite Ed. simpl. eexists _, dd. split; [done|]. simpl.
    split; [apply lookup_insert_eq|].
    apply delegates_loop_ok in Ed as (_ & _ & _ & Hin & Hout). by split.
Qed.

(** C9. A build from base [b] leaves the contents of every dictionary object
    that existed before, in particular [b]'s three dictionaries, also when it
    fails. It succeeds whenever the requested strategies are registered with
    a score and the requested delegates are registered without a shared
    interface. When it succeeds, the new configuration's three dictionaries
    are new objects that hold the contents of the base's with the request
    laid over them: a base strategy stays under its key unless the key is
    requested or is the id of a base strategy of a requested class, and
    nothing but base entries and requested strategies is there; a base
    delegate stays under every interface that no requested delegate
    declares; the initial context reads as the given one where that has the
    key and as the base's otherwise (so all three equal the base's when
    nothing is requested). In-place changes made afterwards to the base's
    dictionaries do not change them. *)
Theorem build_copies_the_base
    STRATEGIES id strategies delegates changelog hidden b risk
    initial_context σ bs bd bc :
  strategy_dicts σ !! StrategyConfiguration.strategies b = Some bs →
  strategy_dicts σ !! StrategyConfiguration.delegates b = Some bd →
  context_dicts σ !! StrategyConfiguration.initial_context b = Some bc →
  let out := create_strategy_configuration cleandoc STRATEGIES id strategies
               delegates changelog hidden (Some b) risk initial_context σ in
  (∀ l d, strategy_dicts σ !! l = Some d → strategy_dicts out.2 !! l = Some d) ∧
  (∀ l d, context_dicts σ !! l = Some d → context_dicts out.2 !! l = Some d) ∧
  (all_scored STRATEGIES (default [] strategies) →
   all_registered STRATEGIES (default [] delegates) →
   NoDup (claimed_interfaces STRATEGIES (default [] delegates)) →
   ∃ c, out.1 = Ok c) ∧
  ∀ c, out.1 = Ok c →
    strategy_dicts σ !! StrategyConfiguration.strategies c = None ∧
    strategy_dicts σ !! StrategyConfiguration.delegates c = None ∧
    context_dicts σ !! StrategyConfiguration.initial_context c = None ∧
    StrategyConfiguration.strategies c ≠ StrategyConfiguration.delegates c ∧
    (∃ ds dd cd,
       strategy_dicts out.2 !! StrategyConfiguration.strategies c = Some ds ∧
       strategy_dicts out.2 !! StrategyConfiguration.delegates c = Some dd ∧
       context_dicts out.2 !! StrategyConfiguration.initial_context c
         = Some cd ∧
       (∀ k s, bs !! k = Some s →
          k ∉ default [] strategies →
          (∀ a t k' s', a ∈ default [] strategies →
             STRATEGIES !! a = Some t → bs !! k' = Some s' →
             Strategy.strategy_class s' = Strategy.strategy_class t →
             Strategy.id s' ≠ k) →
          ds !! k = Some s) ∧
       (∀ k s, ds !! k = Some s →
          bs !! k = Some s ∨
          (k ∈ default [] strategies ∧ STRATEGIES !! k = Some s)) ∧
       (∀ x, x ∉ claimed_interfaces STRATEGIES (default [] delegates) →
          dd !! x = bd !! x) ∧
       (∀ key,
          cd !! key =
          match initial_context with
          | Some updates =>
              match updates !! key with
              | Some v => Some v
              | None => bc !! key
              end
          | None => bc !! key
          end)) ∧
    (default [] strategies = [] →
     strategy_dicts out.2 !! StrategyConfiguration.strategies c = Some bs) ∧
    (default [] delegates = [] →
     strategy_dicts out.2 !! StrategyConfiguration.delegates c = Some bd) ∧
    (initial_context = None →
     context_dicts out.2 !! StrategyConfiguration.initial_context c = Some bc) ∧
    ∀ g1 g2 g3,
      let σ' :=
        ((mutate_strategy_dict (StrategyConfiguration.strategies b) g1 >>
          mutate_strategy_dict (StrategyConfiguration.delegates b) g2 >>
          mutate_context_dict (StrategyConfiguration.initial_context b) g3)
           out.2).2 in
      strategy_dicts σ' !! StrategyConfiguration.strategies c
        = strategy_dicts out.2 !! StrategyConfiguration.strategies c ∧
      strategy_dicts σ' !! StrategyConfiguration.delegates c
        = strategy_dicts out.2 !! StrategyConfiguration.delegates c ∧
      context_dicts σ' !! StrategyConfiguration.initial_context c
        = context_dicts out.2 !! StrategyConfiguration.initial_context c.
Proof.
  intros Hs Hd Hc out.
  assert (base_dicts σ (Some b) bs bd bc) as Hbase by done.
  pose proof (create_strategy_configuration_run cleandoc STRATEGIES id
                strategies delegates changelog hidden (Some b) risk
                initial_context σ bs bd bc Hbase) as Hrun.
  simpl in Hrun. fold out in Hrun.
  set (sl := fresh (dom (strategy_dicts σ))) in *.
  set (σ1 := write_strategy_dict sl bs σ) in *.
  set (dl := fresh (dom (strategy_dicts σ1))) in *.
  set (cl := fresh (dom (context_dicts σ))) in *.
  pose proof (fresh_strategy_dict σ) as Hsl. fold sl in Hsl.
  pose proof (fresh_strategy_dict σ1) as Hdl. fold dl in Hdl.
  pose proof (fresh_context_dict σ) as Hcl. fold cl in Hcl.
  assert (sl ≠ dl) as Hsd.
  { intros E. rewrite <- E in Hdl. unfold σ1 in Hdl.
    by rewrite lookup_write_strategy_dict in Hdl. }
  assert (strategy_dicts σ !! dl = None) as Hdl'.
  { unfold σ1 in Hdl. by rewrite lookup_write_strategy_dict_ne in Hdl. }
  set (rs := add_strategies modify STRATEGIES id (by_class_of bs)
               (default [] strategies) bs) in *.
  set (rd := add_delegates modify STRATEGIES id (default [] delegates) bd) in *.
  assert (∀ l d, strategy_dicts σ !! l = Some d →
                 strategy_dicts out.2 !! l = Some d) as Hkeep_s.
  { intros l d Hl.
    assert (l ≠ sl) by congruence. assert (l ≠ dl) by congruence.
    rewrite Hrun. destruct (rs.1); [destruct (rd.1)|]; simpl;
      rewrite ?lookup_insert_ne by done; done. }
  assert (∀ l d, context_dicts σ !! l = Some d →
                 context_dicts out.2 !! l = Some d) as Hkeep_c.
  { intros l d Hl. assert (l ≠ cl) by congruence.
    rewrite Hrun. destruct (rs.1); [destruct (rd.1)|]; simpl;
      rewrite ?lookup_insert_ne by done; done. }
  split; [done|]. split; [done|].
  split.
  { intros Hscored Hreg Hnd. rewrite Hrun.
    destruct (add_strategies_succeeds STRATEGIES id (by_class_of bs)
                (default [] strategies) bs Hscored) as [ds Eds].
    destruct (delegates_loop_succeeds STRATEGIES id (default [] delegates)
                ∅ bd Hreg Hnd) as (nd & dd & Edd); [set_solver|].
    unfold rs, rd, add_delegates. rewrite Eds, Edd. simpl. by eexists. }
  intros c Hok. rewrite Hrun in Hok.
  destruct (rs.1) as [[]|] eqn:Ers; [|done].
  destruct (rd.1) as [nd|] eqn:Erd; [|done].
  simpl in Hok. injection Hok as <-. simpl.
  split; [done|]. split; [done|]. split; [done|]. split; [done|].
  rewrite Hrun. simpl.
  split.
  { exists rs.2, rd.2, (merged_context initial_context bc).
    split; [rewrite lookup_insert_ne by done; apply lookup_insert_eq|].
    split; [apply lookup_insert_eq|]. split; [apply lookup_insert_eq|].
    assert (rs = (Ok tt, rs.2)) as Ers'.
    { destruct rs as [r d]. simpl in *. by subst r. }
    assert (rd = (Ok nd, rd.2)) as Erd'.
    { destruct rd as [r d]. simpl in *. by subst r. }
    split.
    { intros k s Hk Hreq Hcls.
      apply (add_strategies_keeps_untouched STRATEGIES id (by_class_of bs)
               (default [] strategies) bs rs.2 k s Hk Hreq); [|exact Ers'].
      intros a t Ha Ht Hin.
      apply elem_of_by_class_of in Hin as (k' & s' & Hk' & Hc' & Hid).
      by apply (Hcls a t k' s'). }
    split.
    { intros k s. by apply (add_strategies_origin STRATEGIES id
                              (by_class_of bs) (default [] strategies) bs). }
    split.
    { unfold rd, add_delegates in Erd'.
      by apply delegates_loop_ok in Erd' as (_ & _ & _ & _ & Hout). }
    intros key. unfold merged_context.
    destruct initial_context as [updates|]; [|done].
    case_bool_decide as He.
    - subst updates. by rewrite lookup_empty.
    - rewrite lookup_union. by destruct (updates !! key), (bc !! key). }
  split.
  { intros E. rewrite lookup_insert_ne by done. rewrite lookup_insert_eq.
    unfold rs. by rewrite E. }
  split.
  { intros E. rewrite lookup_insert_eq. unfold rd. by rewrite E. }
  split.
  { intros ->. by rewrite lookup_insert_eq. }
  intros g1 g2 g3.
  set (σo := write_context_dict cl _ _).
  assert (StrategyConfiguration.strategies b ≠ sl) as N1 by congruence.
  assert (StrategyConfiguration.strategies b ≠ dl) as N2 by congruence.
  assert (StrategyConfiguration.delegates b ≠ sl) as N3 by congruence.
  assert (StrategyConfiguration.delegates b ≠ dl) as N4 by congruence.
  assert (StrategyConfiguration.initial_context b ≠ cl) as N5 by congruence.
  unfold bind.
  pose proof (mutate_strategy_dict_frame (StrategyConfiguration.strategies b)
                g1 σo) as [F1 F1'].
  destruct (mutate_strategy_dict (StrategyConfiguration.strategies b) g1 σo)
    as [[[]|e1] σa]; simpl in *.
  2: { by rewrite !F1, F1' by done. }
  pose proof (mutate_strategy_dict_frame (StrategyConfiguration.delegates b)
                g2 σa) as [F2 F2'].
  destruct (mutate_strategy_dict (StrategyConfiguration.delegates b) g2 σa)
    as [[[]|e2] σb]; simpl in *.
  2: { by rewrite !F2, F2', !F1, F1' by done. }
  pose proof (mutate_context_dict_frame (StrategyConfiguration.initial_context b)
                g3 σb) as [F3 F3'].
  destruct (mutate_context_dict (StrategyConfiguration.initial_context b) g3 σb)
    as [r3 σc]; simpl in *.
  by rewrite F3', F3, !F2, F2', !F1, F1' by done.
Qed.

End BuildTheorems.

(** ** Registries and requests *)

(** *** The registry is filed by id *)

Lemma registry_wf_empty : registry_wf ∅.
Proof. intros k s. by rewrite lookup_empty. Qed.

Lemma registry_wf_insert STRATEGIES s :
  registry_wf STRATEGIES → registry_wf (<[Strategy.id s := s]> STRATEGIES).
Proof.
  intros Hwf k s'. destruct (decide (Strategy.id s = k)) as [<-|Hne].
  - rewrite lookup_insert_eq. by intros [= <-].
  - rewrite lookup_insert_ne by done. apply Hwf.
Qed.

Lemma register_loop_wf name interfaces score f ids acc STRATEGIES :
  registry_wf STRATEGIES →
  registry_wf
    (for_fold ids (λ (_ : option Strategy.t) id,
       let rv := {| Strategy.id := id; Strategy.name := name;
                    Strategy.interfaces := interfaces;
                    Strategy.score := score; Strategy.func := f;
                    Strategy.variant_processor_func := None |} in
       modify (λ STRATEGIES : registry, <[id := rv]> STRATEGIES) >>
       ret (Some rv)) acc STRATEGIES).2.
Proof.
  revert acc STRATEGIES. induction ids as [|i ids IH]; intros acc R Hwf; [done|].
  simpl. unfold bind at 1 2, modify, ret. simpl. apply IH.
  apply (registry_wf_insert R
           {| Strategy.id := i; Strategy.name := name;
              Strategy.interfaces := interfaces; Strategy.score := score;
              Strategy.func := f; Strategy.variant_processor_func := None |}
           Hwf).
Qed.

(** X3. The decorator [strategy] keeps the registry filed by id: if every
    strategy is registered under its own id before the call, so it is after
    it, whether the call returns or raises. *)
Lemma strategy_decorator_wf id ids interfaces name score f STRATEGIES :
  registry_wf STRATEGIES →
  registry_wf (strategy id ids interfaces name score f STRATEGIES).2.
Proof.
  intros Hwf. unfold strategy.
  destruct interfaces as [interfaces|]; [|done].
  assert (∀ name' ids',
    registry_wf
      ((let! rv := for_fold ids' (λ (_ : option Strategy.t) id,
           let rv := {| Strategy.id := id; Strategy.name := name';
                        Strategy.interfaces := interfaces;
                        Strategy.score := score; Strategy.func := f;
                        Strategy.variant_processor_func := None |} in
           modify (λ STRATEGIES : registry, <[id := rv]> STRATEGIES) >>
           ret (Some rv)) None in
         match rv with
         | Some rv => ret rv
         | None => raise UnboundLocalError
         end) STRATEGIES).2) as Hreg.
  { intros name' ids'. unfold bind at 1.
    pose proof (register_loop_wf name' interfaces score f ids' None
                  STRATEGIES Hwf) as H.
    by destruct (for_fold ids' _ None STRATEGIES) as [[[rv|]|e] R]. }
  destruct name as [name|]; [|destruct interfaces as [|iface [|]]];
    destruct id as [id|], ids as [ids|]; try done; apply Hreg.
Qed.

(** *** Requests that name each class once *)

Lemma add_strategies_override_inv STRATEGIES id bs done strategies d d' :
  registry_wf STRATEGIES → keyed_by_id bs →
  distinct_classes STRATEGIES (done ++ strategies) →
  override_inv STRATEGIES bs d done →
  add_strategies modify STRATEGIES id (by_class_of bs) strategies d = (Ok tt, d') →
  override_inv STRATEGIES bs d' (done ++ strategies).
Proof.
  intros Hreg Hbs. revert done d.
  induction strategies as [|sid ids IH]; intros done d Hdist Hinv.
  - intros [= <-]. by rewrite app_nil_r.
  - rewrite add_strategies_cons.
    destruct (STRATEGIES !! sid) as [t|] eqn:Ht; [|done].
    destruct (Strategy.score t); [|done].
    replace (done ++ sid :: ids) with ((done ++ [sid]) ++ ids) in *
      by (by rewrite <- app_assoc).
    apply IH; [done|]. clear IH.
    destruct Hinv as [Hent Hdone].
    assert (∀ o, o ∈ default [] (by_class_of bs !! Strategy.strategy_class t) →
                 class_of o = Strategy.strategy_class t) as Holds.
    { intros o (k0 & s0 & _ & Hc & <-)%elem_of_by_class_of. done. }
    split.
    + intros k s. destruct (decide (sid = k)) as [<-|Hne].
      * rewrite lookup_insert_eq. intros [= <-]. right.
        split; [|done]. apply elem_of_app. right. by left.
      * rewrite lookup_insert_ne by done.
        intros [Hk Hd]%lookup_evicted_Some.
        destruct (Hent k s Hd) as [[Hb Hno]|[Hin Hr]].
        -- left. split; [done|].
           intros a ta [Ha| ->%list_elem_of_singleton]%elem_of_app Hta.
           ++ by eapply Hno.
           ++ assert (ta = t) as -> by congruence. intros Hc.
              apply Hk. apply elem_of_by_class_of. exists k, s.
              split; [done|]. split; [done|]. by apply Hbs.
        -- right. split; [|done]. apply elem_of_app. by left.
    + intros a [Ha| ->%list_elem_of_singleton]%elem_of_app.
      * destruct (Hdone a Ha) as [[ta Hta] Hda]. split; [by exists ta|].
        destruct (decide (sid = a)) as [<-|Hne]; [by rewrite lookup_insert_eq|].
        rewrite lookup_insert_ne by done.
        rewrite lookup_evicted_ne; [done|].
        intros Hin. apply Hne. symmetry.
        apply (Hdist a sid ta t); try done.
        -- apply elem_of_app. left. apply elem_of_app. by left.
        -- apply elem_of_app. left. apply elem_of_app. right. by left.
        -- unfold Strategy.strategy_class at 1. rewrite (Hreg _ _ Hta).
           by apply Holds.
      * split; [by exists t|]. by rewrite lookup_insert_eq.
Qed.

Theorem one_strategy_per_class_for_distinct_requests
    STRATEGIES id bs strategies d' :
  registry_wf STRATEGIES → keyed_by_id bs → one_per_class bs →
  distinct_classes STRATEGIES strategies →
  add_strategies modify STRATEGIES id (by_class_of bs) strategies bs = (Ok tt, d') →
  keyed_by_id d' ∧ one_per_class d' ∧
  (∀ a, a ∈ strategies → is_Some (d' !! a) ∧ d' !! a = STRATEGIES !! a) ∧
  (∀ k s, bs !! k = Some s →
     (∀ a ta, a ∈ strategies → STRATEGIES !! a = Some ta →
        Strategy.strategy_class ta ≠ Strategy.strategy_class s) →
     d' !! k = Some s).
Proof.
  intros Hreg Hbs Hone Hdist Hrun.
  assert (override_inv STRATEGIES bs bs []) as Hinv0.
  { split; [|by intros ? ?%elem_of_nil].
    intros k s Hk. left. split; [done|]. by intros ? ? ?%elem_of_nil. }
  destruct (add_strategies_override_inv STRATEGIES id bs [] strategies bs d'
              Hreg Hbs Hdist Hinv0 Hrun) as [Hent Hdone].
  simpl in *.
  split; [|split; [|split]].
  - intros k s Hk. destruct (Hent k s Hk) as [[Hb _]|[_ Hr]];
      [by apply Hbs|by apply Hreg].
  - intros k1 s1 k2 s2 H1 H2 Hc.
    destruct (Hent k1 s1 H1) as [[Hb1 Hno1]|[Hin1 Hr1]];
      destruct (Hent k2 s2 H2) as [[Hb2 Hno2]|[Hin2 Hr2]].
    + by eapply Hone.
    + exfalso. by eapply Hno1.
    + exfalso. by eapply Hno2.
    + by eapply Hdist.
  - intros a Ha. destruct (Hdone a Ha) as [Hs Hd]. by rewrite Hd.
  - intros k s Hk Hno.
    by apply (add_strategies_inherits STRATEGIES id bs strategies bs d' k s
                Hreg Hk (Hbs k s Hk) Hno).
Qed.

(** X18. The same for a whole build: when the request names each class at
    most once, on a seed that is filed by id with one strategy per class, the
    built [strategies] dictionary is filed by id, has one strategy per class,
    holds every requested strategy under its id and every seed entry whose
    class was not requested. *)
Theorem build_keeps_one_strategy_per_class
    (cleandoc : string → string) STRATEGIES id strategies delegates changelog
    hidden base risk initial_context σ bs bd bc c :
  base_dicts σ base bs bd bc →
  registry_wf STRATEGIES → keyed_by_id bs → one_per_class bs →
  distinct_classes STRATEGIES (default [] strategies) →
  (create_strategy_configuration cleandoc STRATEGIES id strategies delegates
     changelog hidden base risk initial_context σ).1 = Ok c →
  ∃ d,
    strategy_dicts
      (create_strategy_configuration cleandoc STRATEGIES id strategies
         delegates changelog hidden base risk initial_context σ).2
      !! StrategyConfiguration.strategies c = Some d ∧
    keyed_by_id d ∧ one_per_class d ∧
    (∀ a, a ∈ default [] strategies →
       is_Some (d !! a) ∧ d !! a = STRATEGIES !! a) ∧
    (∀ k s, bs !! k = Some s →
       (∀ a ta, a ∈ default [] strategies → STRATEGIES !! a = Some ta →
          Strategy.strategy_class ta ≠ Strategy.strategy_class s) →
       d !! k = Some s).
Proof.
  intros Hbase Hreg Hbs Hone Hdist.
  rewrite (create_strategy_configuration_run cleandoc _ _ _ _ _ _ _ _ _ _ _ _ _
             Hbase).
  destruct (add_strategies modify STRATEGIES id (by_class_of bs)
              (default [] strategies) bs) as [[[]|e] ds] eqn:Es; simpl; [|done].
  destruct (add_delegates modify STRATEGIES id (default [] delegates) bd).1;
    simpl; [|done].
  intros [= <-]. simpl. exists ds. split.
  - assert (fresh (dom (strategy_dicts σ)) ≠
            fresh (dom (strategy_dicts
                          (write_strategy_dict (fresh (dom (strategy_dicts σ)))
                             bs σ)))) as Hne.
    { intros E.
      pose proof (fresh_strategy_dict
                    (write_strategy_dict (fresh (dom (strategy_dicts σ))) bs σ))
        as Hf.
      rewrite <- E in Hf. by rewrite lookup_write_strategy_dict in Hf. }
    rewrite lookup_insert_ne by done. apply lookup_insert_eq.
  - by apply (one_strategy_per_class_for_distinct_requests STRATEGIES id bs
                (default [] strategies) ds).
Qed.

(** ** Concrete runs *)

(** X27. The [continue] of the first loop comes before the mandatory
    candidate is recorded. With candidates ["!system"; "app"] at top level,
    a function that answers [None] for the system variant and a contributing
    component for the app variant gets back the app component alone, after
    two invocations and no update. *)
Lemma null_mandatory_leaves_optional f tr w w1 w2 la ca :
  (GroupingContext.getitem "variant" w).1 = Ok PyNone →
  f (enter "system" w) = (Ok (Some {["system" := None]}), w1) →
  stack w1 ≠ [] →
  f (enter "app" (leave w1)) = (Ok (Some {["app" := Some la]}), w2) →
  stack w2 ≠ [] →
  heap w2 !! la = Some ca → contributes ca = true →
  call_with_variants f ["!system"; "app"] {| world := w; trace := tr |} =
  (Ok (Some {["app" := Some la]}),
   {| world := leave w2; trace := EvCall :: EvCall :: tr |}).
Proof.
  intros Htop Hf1 Hs1 Hf2 Hs2 Hla Hca.
  unfold call_with_variants.
  rewrite (bind_ok _ _ _ _ _ (top_level_getitem w tr Htop)).
  erewrite bind_ok; cycle 1.
  { simpl. erewrite bind_ok; cycle 1.
    { eapply (collect_variant_null f locals_init "!system");
        [exact Hf1|done|apply the_variant_singleton]. }
    erewrite bind_ok; cycle 1.
    { eapply (collect_variant_component f _ "app");
        [exact Hf2|done|apply the_variant_singleton|exact Hla]. }
    reflexivity. }
  unfold record_component. simpl. rewrite Hca. simpl.
  erewrite bind_ok; cycle 1.
  { erewrite bind_ok; cycle 1.
    { eapply (suppress_variant_keep _ "app" _ la ca).
      - simpl. apply lookup_insert_eq.
      - done.
      - exact Hla.
      - apply lookup_empty. }
    reflexivity. }
  unfold ret. by rewrite insert_empty.
Qed.

(** C1. Scenario B evaluated: candidates ["!system"; "app"], the function
    answers [None] for the system variant and a contributing component for
    the app variant. The code skips the system variant before it records that
    a mandatory candidate was seen, so the app component still contributes,
    has no hint, and no update is performed. *)
Theorem scenario_B_app_is_not_suppressed :
  let out := call_with_variants scenario_B_func ["!system"; "app"]
               top_level_machine in
  out.1 = Ok (Some {["app" := Some 2%positive]}) ∧
  heap (world out.2) !! 2%positive = Some component_h1 ∧
  contributes component_h1 = true ∧
  hint component_h1 = None ∧
  trace out.2 = [EvCall; EvCall].
Proof. vm_compute. repeat split. Qed.

Example silent_mandatory_suppresses_optional :
  let out := call_with_variants silent_system_func ["!system"; "app"]
               top_level_machine in
  heap (world out.2) !! 2%positive =
    Some (update component_h1 false
            "ignored because other mandatory variant is not used") ∧
  trace out.2 =
    [EvUpdate NotUsed 2%positive
       "ignored because other mandatory variant is not used";
     EvCall; EvCall].
Proof. vm_compute. repeat split. Qed.

Example example_base_is_built :
  create_strategy_configuration (λ s, s) example_registry "base"
    (Some ["frame:v0"]) (Some ["frame:v0"]) None false None None None
    empty_store
  = (Ok example_base, example_store).
Proof. vm_compute. reflexivity. Qed.

(** C2. A build without base that requests ["frame:v1"; "frame:v2"]
    succeeds and its [strategies] dictionary holds both, two strategies of
    class "frame": [by_class] is computed once from the seed and never sees
    the strategies added by the same call. *)
Theorem two_strategies_of_one_class_survive_a_build :
  let out := create_strategy_configuration (λ s, s) example_registry "c"
               (Some ["frame:v1"; "frame:v2"]) None None false None None None
               empty_store in
  ∃ c d,
    out.1 = Ok c ∧
    strategy_dicts out.2 !! StrategyConfiguration.strategies c = Some d ∧
    d !! "frame:v1" = Some frame_v1 ∧
    d !! "frame:v2" = Some frame_v2 ∧
    Strategy.strategy_class frame_v1 = Strategy.strategy_class frame_v2 ∧
    ¬ one_per_class d.
Proof.
  eexists _, {["frame:v1" := frame_v1; "frame:v2" := frame_v2]}.
  split; [vm_compute; reflexivity|].
  split; [vm_compute; reflexivity|].
  split; [vm_compute; reflexivity|].
  split; [vm_compute; reflexivity|].
  split; [vm_compute; reflexivity|].
  intros Hone.
  assert ("frame:v1" = "frame:v2") as Heq; [|discriminate Heq].
  apply (Hone "frame:v1" frame_v1 "frame:v2" frame_v2);
    vm_compute; reflexivity.
Qed.

(** C4. A build on the base that holds "frame:v0" and requests
    ["frame:v1"; "frame:v2"] evicts "frame:v0" and keeps both requested
    strategies: class "frame" is specified in the base and in the request and
    has two entries in the result. *)
Theorem override_with_two_of_one_class_keeps_both :
  let out := create_strategy_configuration (λ s, s) example_registry "c"
               (Some ["frame:v1"; "frame:v2"]) None None false
               (Some example_base) None None example_store in
  strategy_dicts example_store !! StrategyConfiguration.strategies example_base
    = Some {["frame:v0" := frame_v0]} ∧
  Strategy.strategy_class frame_v0 = "frame" ∧
  ∃ c d,
    out.1 = Ok c ∧
    strategy_dicts out.2 !! StrategyConfiguration.strategies c = Some d ∧
    d !! "frame:v1" = Some frame_v1 ∧
    d !! "frame:v2" = Some frame_v2 ∧
    Strategy.strategy_class frame_v1 = "frame" ∧
    Strategy.strategy_class frame_v2 = "frame" ∧
    "frame:v1" ≠ "frame:v2".
Proof.
  split; [vm_compute; reflexivity|].
  split; [vm_compute; reflexivity|].
  eexists _, {["frame:v1" := frame_v1; "frame:v2" := frame_v2]}.
  split; [vm_compute; reflexivity|].
  split; [vm_compute; reflexivity|].
  split; [vm_compute; reflexivity|].
  split; [vm_compute; reflexivity|].
  split; [vm_compute; reflexivity|].
  split; [vm_compute; reflexivity|].
  discriminate.
Qed.

Lemma scenario_A_hash_match_witness :
  let hint' := "ignored because hash matches system variant" in
  let out := call_with_variants scenario_A_func ["!system"; "app"]
               top_level_machine in
  out.1 = Ok (Some (<["app" := Some 2%positive]>
                      {["system" := Some 1%positive]})) ∧
  heap (world out.2) !! 2%positive = Some (update component_h1 false hint') ∧
  (1%positive ≠ 2%positive →
   heap (world out.2) !! 1%positive = heap top_level_world !! 1%positive) ∧
  trace out.2 = [EvUpdate HashMatch 2%positive hint'; EvCall; EvCall].
Proof.
  apply (scenario_A_hash_match scenario_A_func [] top_level_world
           (enter "system" top_level_world)
           (enter "app" (leave (enter "system" top_level_world)))
           1%positive 2%positive component_h1 component_h1);
    try (vm_compute; reflexivity); done.
Defined.

Lemma pinned_variant_invokes_once_witness :
  let w := enter "frames" top_level_world in
  call_with_variants frames_func ["frames"; "app"] {| world := w; trace := [] |}
    = ((frames_func w).1, {| world := (frames_func w).2; trace := [EvCall] |}) ∧
  call_with_variants frames_func ["!system"; "app"] {| world := w; trace := [] |}
    = (Err AssertionError, {| world := w; trace := [] |}).
Proof.
  assert ((GroupingContext.getitem "variant"
             (enter "frames" top_level_world)).1 = Ok (PyStr "frames")) as Hpin
    by (vm_compute; reflexivity).
  split.
  - apply (pinned_variant_invokes_once frames_func ["frames"; "app"]
             (enter "frames" top_level_world) [] "frames" Hpin).
    left. by left.
  - apply (pinned_variant_invokes_once frames_func ["!system"; "app"]
             (enter "frames" top_level_world) [] "frames" Hpin).
    intros [H|H]; apply (bool_decide_pack _) in H; vm_compute in H; exact H.
Defined.

Lemma no_mandatory_candidate_no_suppression_witness :
  ∃ calls,
    trace (call_with_variants scenario_A_func ["system"; "app"]
             top_level_machine).2 = replicate calls EvCall ++ [].
Proof.
  assert (Forall (λ v, is_mandatory v = false) ["system"; "app"]) as Hall
    by (repeat constructor).
  exact (proj2 (no_mandatory_candidate_no_suppression scenario_A_func
                  ["system"; "app"] top_level_machine Hall)).
Defined.

Lemma missing_interface_is_not_applicable_witness :
  Strategy.get_grouping_component stacktrace_v1 empty_event PyNone
    top_level_machine = (Ok None, top_level_machine) ∧
  Strategy.get_grouping_component_variants stacktrace_v1 empty_event
    top_level_machine = (Ok (Some ∅), top_level_machine).
Proof.
  apply (missing_interface_is_not_applicable stacktrace_v1 empty_event PyNone
           top_level_machine "stacktrace").
  - by left.
  - reflexivity.
Defined.

Lemma not_used_hint_never_names_a_variant_witness :
  unused_variant_name (mandatory_contributing_hashes prevented_locals)
    = Ok "other mandatory" ∧
  ∃ new,
    trace (call_with_variants silent_system_func ["!system"; "app"]
             top_level_machine).2 = new ++ [] ∧
    ∀ l h, EvUpdate NotUsed l h ∈ new →
      h = "ignored because other mandatory variant is not used".
Proof.
  split.
  - apply (proj1 not_used_hint_never_names_a_variant prevented_locals).
    reflexivity.
  - apply (proj2 not_used_hint_never_names_a_variant).
Defined.

Lemma new_delegates_conflict_only_with_each_other_witness :
  (∃ x', (create_strategy_configuration (λ s, s) example_registry "c" None
            (Some ["frame:v1"; "frame:v2"]) None false (Some example_base)
            None None example_store).1
         = Err (RuntimeError (DuplicateDelegate "c" x'))) ∧
  (∃ c dd,
     let out := create_strategy_configuration (λ s, s) example_registry "c"
                  None (Some ["frame:v1"]) None false (Some example_base)
                  None None example_store in
     out.1 = Ok c ∧
     strategy_dicts out.2 !! StrategyConfiguration.delegates c = Some dd ∧
     dd !! "frame" = Some frame_v1).
Proof.
  assert (base_dicts example_store (Some example_base)
            {["frame:v0" := frame_v0]} {["frame" := frame_v0]} ∅) as Hbase
    by (repeat split; vm_compute; reflexivity).
  split.
  - apply (proj1 (new_delegates_conflict_only_with_each_other (λ s, s)
                    example_registry "c" None (Some ["frame:v1"; "frame:v2"])
                    None false (Some example_base) None None example_store
                    _ _ _ Hbase (Forall_nil_2 _)
                    ltac:(repeat constructor; by eexists))
             0 1 "frame:v1" "frame:v2" frame_v1 frame_v2 "frame");
      try (vm_compute; reflexivity); try lia; by left.
  - destruct (proj2 (new_delegates_conflict_only_with_each_other (λ s, s)
                       example_registry "c" None (Some ["frame:v1"])
                       None false (Some example_base) None None example_store
                       _ _ _ Hbase (Forall_nil_2 _)
                       ltac:(repeat constructor; by eexists)))
      as (c & dd & Hok & Hdd & Hin & _).
    { vm_compute. apply NoDup_singleton. }
    exists c, dd. split; [exact Hok|]. split; [exact Hdd|].
    apply (Hin "frame:v1" frame_v1 "frame"); [by left|reflexivity|by left].
Defined.

Lemma build_copies_the_base_witness :
  let out := create_strategy_configuration (λ s, s) example_registry "c"
               (Some ["stacktrace:v1"]) (Some ["stacktrace:v1"]) None false
               (Some example_base) None (Some {["normalize" := PyBool true]})
               example_store in
  ∃ c ds dd cd,
    out.1 = Ok c ∧
    strategy_dicts out.2 !! StrategyConfiguration.strategies c = Some ds ∧
    ds !! "frame:v0" = Some frame_v0 ∧
    strategy_dicts out.2 !! StrategyConfiguration.delegates c = Some dd ∧
    dd !! "frame" = Some frame_v0 ∧
    context_dicts out.2 !! StrategyConfiguration.initial_context c = Some cd ∧
    cd !! "normalize" = Some (PyBool true) ∧
    strategy_dicts out.2 !! 1%positive = Some {["frame:v0" := frame_v0]} ∧
    strategy_dicts out.2 !! 2%positive = Some {["frame" := frame_v0]} ∧
    context_dicts out.2 !! 1%positive = Some ∅ ∧
    let σ' :=
      ((mutate_strategy_dict 1%positive (λ _, ∅) >>
        mutate_strategy_dict 2%positive (λ _, ∅) >>
        mutate_context_dict 1%positive (<["normalize" := PyBool false]>))
         out.2).2 in
    strategy_dicts σ' !! StrategyConfiguration.strategies c = Some ds ∧
    strategy_dicts σ' !! StrategyConfiguration.delegates c = Some dd ∧
    context_dicts σ' !! StrategyConfiguration.initial_context c = Some cd.
Proof.
  intros out.
  destruct (build_copies_the_base (λ s, s) example_registry "c"
              (Some ["stacktrace:v1"]) (Some ["stacktrace:v1"]) None false
              example_base None (Some {["normalize" := PyBool true]})
              example_store {["frame:v0" := frame_v0]} {["frame" := frame_v0]} ∅
              eq_refl eq_refl eq_refl) as (Hs & Hc & Hsucc & Hcopy).
  destruct Hsucc as [c Hok].
  { constructor; [|constructor]. exists stacktrace_v1.
    split; [vm_compute; reflexivity|]. eexists. reflexivity. }
  { constructor; [|constructor]. exists stacktrace_v1. vm_compute. reflexivity. }
  { vm_compute. apply NoDup_singleton. }
  destruct (Hcopy c Hok)
    as (_ & _ & _ & _ & (ds & dd & cd & Hds & Hdd & Hcd & Hkeep & _ & Hdel & Hctx)
        & _ & _ & _ & Hmut).
  destruct (Hmut (λ _, ∅) (λ _, ∅) (<["normalize" := PyBool false]>))
    as (M1 & M2 & M3).
  exists c, ds, dd, cd.
  split; [exact Hok|]. split; [exact Hds|].
  split.
  { apply Hkeep.
    - apply lookup_singleton_eq.
    - intros Hin. apply list_elem_of_singleton in Hin. discriminate Hin.
    - intros a t k' s' Ha Ht Hk' Hcl Hid.
      apply list_elem_of_singleton in Ha. subst a.
      apply lookup_singleton_Some in Hk' as [_ <-].
      vm_compute in Ht. injection Ht as <-. vm_compute in Hcl.
      discriminate Hcl. }
  split; [exact Hdd|].
  split.
  { rewrite Hdel; [apply lookup_singleton_eq|].
    intros Hin. vm_compute in Hin. apply list_elem_of_singleton in Hin.
    discriminate Hin. }
  split; [exact Hcd|].
  split; [rewrite Hctx; vm_compute; reflexivity|].
  split; [apply Hs; vm_compute; reflexivity|].
  split; [apply Hs; vm_compute; reflexivity|].
  split; [apply Hc; vm_compute; reflexivity|].
  split; [rewrite <- Hds; exact M1|].
  split; [rewrite <- Hdd; exact M2|].
  rewrite <- Hcd. exact M3.
Defined.

(** * The rest of the module *)

(** ** The decorator [strategy] *)

Lemma lookup_foldl_insert {V} (g : string → V) (l : list string)
    (R : gmap string V) k :
  (foldl (λ R i, <[i := g i]> R) R l) !! k =
  if bool_decide (k ∈ l) then Some (g k) else R !! k.
Proof.
  revert R. induction l as [|i l IH]; intros R; simpl; [done|].
  rewrite IH. case_bool_decide as Hl.
  - rewrite bool_decide_eq_true_2; [done|by right].
  - destruct (decide (k = i)) as [->|Hne].
    + rewrite bool_decide_eq_true_2 by (by left). apply lookup_insert_eq.
    + rewrite bool_decide_eq_false_2.
      * by apply lookup_insert_ne.
      * by intros [?|?]%elem_of_cons.
Qed.

Lemma register_loop_run name interfaces score f ids acc (R : registry) :
  for_fold ids (λ (_ : option Strategy.t) id,
    modify (λ STRATEGIES : registry,
              <[id := registered id name interfaces score f]> STRATEGIES) >>
    ret (Some (registered id name interfaces score f))) acc R =
  (Ok (match last ids with
       | Some i => Some (registered i name interfaces score f)
       | None => acc
       end),
   foldl (λ R i, <[i := registered i name interfaces score f]> R) R ids).
Proof.
  revert acc R. induction ids as [|i ids IH]; intros acc R; [done|].
  simpl. unfold bind at 1 2, modify, ret. simpl. rewrite IH.
  destruct ids as [|j ids]; [done|].
  change (last (i :: j :: ids)) with (last (j :: ids)).
  destruct (last (j :: ids)) eqn:E; [done|]. by apply last_None in E.
Qed.

Lemma strategy_run id ids interfaces name score f (R : registry) :
  strategy id ids (Some interfaces) name score f R =
  match effective_name name interfaces with
  | None => (Err (RuntimeError (RequiresName id)), R)
  | Some name' =>
      match effective_ids id ids with
      | None => (Err TypeError, R)
      | Some ids' =>
          match last ids' with
          | None => (Err UnboundLocalError, R)
          | Some i =>
              (Ok (registered i name' interfaces score f),
               foldl (λ R i, <[i := registered i name' interfaces score f]> R)
                 R ids')
          end
      end
  end.
Proof.
  unfold strategy, effective_name, effective_ids.
  assert (∀ name' ids',
    (let! rv := for_fold ids' (λ (_ : option Strategy.t) id,
         let rv := {| Strategy.id := id; Strategy.name := name';
                      Strategy.interfaces := interfaces;
                      Strategy.score := score; Strategy.func := f;
                      Strategy.variant_processor_func := None |} in
         modify (λ STRATEGIES : registry, <[id := rv]> STRATEGIES) >>
         ret (Some rv)) None in
       match rv with
       | Some rv => ret rv
       | None => raise UnboundLocalError
       end) R =
    match last ids' with
    | None => (Err UnboundLocalError, R)
    | Some i =>
        (Ok (registered i name' interfaces score f),
         foldl (λ R i, <[i := registered i name' interfaces score f]> R) R ids')
    end) as Hloop.
  { intros name' ids'. unfold bind at 1.
    change (for_fold ids' _ None R) with
      (for_fold ids' (λ (_ : option Strategy.t) id,
         modify (λ STRATEGIES : registry,
                   <[id := registered id name' interfaces score f]> STRATEGIES) >>
         ret (Some (registered id name' interfaces score f))) None R).
    rewrite (register_loop_run name' interfaces score f ids' None R).
    destruct (last ids') eqn:E; [reflexivity|].
    by apply last_None in E as ->. }
  destruct name as [name|]; [|destruct interfaces as [|iface [|]]]; try done;
    (unfold bind at 1, ret;
     destruct id as [id|], ids as [ids|]; try done;
     unfold bind at 1; apply Hloop).
Qed.

(** X1. Registration round trip of the decorator [strategy]. When the call
    returns, interfaces were given, the name is the given one or else the
    single interface, and the ids are [[id]] or [ids], with a last element;
    [lookup_strategy] then finds under every one of these ids the strategy
    built from the decorator's arguments and that id, every other id of the
    registry is as it was, and the value returned is the strategy of the
    last id. *)
Theorem strategy_registers id ids interfaces name score f (R : registry) rv R' :
  strategy id ids interfaces name score f R = (Ok rv, R') →
  ∃ ifaces name' ids' i,
    interfaces = Some ifaces ∧
    effective_name name ifaces = Some name' ∧
    effective_ids id ids = Some ids' ∧
    last ids' = Some i ∧
    rv = registered i name' ifaces score f ∧
    (∀ k, k ∈ ids' →
       lookup_strategy R' k = Ok (registered k name' ifaces score f)) ∧
    (∀ k, k ∉ ids' → R' !! k = R !! k).
Proof.
  destruct interfaces as [ifaces|]; [|done].
  rewrite strategy_run.
  destruct (effective_name name ifaces) as [name'|] eqn:En; [|done].
  destruct (effective_ids id ids) as [ids'|] eqn:Ei; [|done].
  destruct (last ids') as [i|] eqn:Hlast; [|done].
  intros [= <- <-]. exists ifaces, name', ids', i.
  repeat (split; [done|]). split.
  - intros k Hk. unfold lookup_strategy.
    by rewrite lookup_foldl_insert, bool_decide_eq_true_2.
  - intros k Hk. by rewrite lookup_foldl_insert, bool_decide_eq_false_2.
Qed.

(** X2. A failing call of the decorator [strategy] leaves the registry as
    it was, and its error is one of three: a [TypeError] (no interfaces, or
    both or neither of [id] and [ids]), the [RuntimeError] that asks for a
    name (no name given and not exactly one interface), or an
    [UnboundLocalError] (an empty list [ids], so that [rv] is never bound). *)
Theorem strategy_fails_cleanly id ids interfaces name score f (R : registry) e :
  (strategy id ids interfaces name score f R).1 = Err e →
  (strategy id ids interfaces name score f R).2 = R ∧
  ((e = TypeError ∧
    (interfaces = None ∨ effective_ids id ids = None)) ∨
   (e = RuntimeError (RequiresName id) ∧
    ∃ ifaces, interfaces = Some ifaces ∧ name = None ∧ length ifaces ≠ 1) ∨
   (e = UnboundLocalError ∧ id = None ∧ ids = Some [])).
Proof.
  destruct interfaces as [ifaces|].
  2: { intros [= <-]. split; [done|]. left. split; [done|]. by left. }
  rewrite strategy_run.
  destruct (effective_name name ifaces) as [name'|] eqn:En.
  2: { intros [= <-]. split; [done|]. right. left. split; [done|].
       exists ifaces. unfold effective_name in En.
       destruct name; [done|]. split; [done|]. split; [done|].
       by destruct ifaces as [|? []]. }
  destruct (effective_ids id ids) as [ids'|] eqn:Ei.
  2: { intros [= <-]. split; [done|]. left. split; [done|]. by right. }
  destruct (last ids') as [i|] eqn:Hlast; [done|].
  intros [= <-]. split; [done|]. right. right. split; [done|].
  apply last_None in Hlast as ->. unfold effective_ids in Ei.
  by destruct id, ids; simplify_eq.
Qed.

Lemma class_of_no_colon s : has_colon s = false → class_of s = s.
Proof.
  induction s as [|c s IH]; simpl; [done|].
  intros [Hc Hs]%orb_false_iff. rewrite Hc. by rewrite IH.
Qed.

(** X4. [Strategy.__init__] takes as strategy class the id up to its first
    colon: an id [c:rest] whose [c] has no colon has class [c], an id without
    a colon is its own class, a class never holds a colon, and an id with a
    colon is its class, a colon and a rest. *)
Theorem class_of_splits_at_the_first_colon :
  (∀ c rest, has_colon c = false → class_of (c +:+ ":" +:+ rest) = c) ∧
  (∀ id, has_colon id = false → class_of id = id) ∧
  (∀ id, has_colon (class_of id) = false) ∧
  (∀ id, has_colon id = true → ∃ rest, id = class_of id +:+ ":" +:+ rest).
Proof.
  split; [|split; [|split]].
  - intros c rest. induction c as [|a c IH]; simpl; [done|].
    intros [Ha Hc]%orb_false_iff. rewrite Ha. by rewrite IH.
  - apply class_of_no_colon.
  - intros id. induction id as [|a id IH]; simpl; [done|].
    destruct (Ascii.eqb a ":") eqn:Ea; simpl; [done|]. by rewrite Ea.
  - intros id. induction id as [|a id IH]; simpl; [done|].
    destruct (Ascii.eqb a ":") eqn:Ea; simpl.
    + intros _. apply Ascii.eqb_eq in Ea as ->. by exists id.
    + intros [rest Hrest]%IH. exists rest. by rewrite Hrest at 1.
Qed.

(** ** Reading and writing the context *)

Lemma search_snoc key st d :
  GroupingContext.search key (rev (st ++ [d])) =
  match d !! key with
  | Some v => Some v
  | None => GroupingContext.search key (rev st)
  end.
Proof. by rewrite rev_app_distr. Qed.

Lemma search_Some key st v :
  GroupingContext.search key (rev st) = Some v ↔
  ∃ i d, st !! i = Some d ∧ d !! key = Some v ∧
         ∀ j d', i < j → st !! j = Some d' → d' !! key = None.
Proof.
  induction st as [|d st IH] using rev_ind.
  - simpl. split; [done|]. by intros (i & d & ? & _).
  - rewrite search_snoc. destruct (d !! key) as [v'|] eqn:Hd.
    + split.
      * intros [= ->]. exists (length st), d. split.
        { by rewrite lookup_app_r, Nat.sub_diag by lia. }
        split; [done|]. intros j d' Hj Hl.
        apply lookup_lt_Some in Hl. rewrite length_app in Hl. simpl in Hl. lia.
      * intros (i & d0 & Hi & Hv & Hlater).
        destruct (decide (i = length st)) as [->|Hne].
        { rewrite lookup_app_r, Nat.sub_diag in Hi by lia. simpl in Hi.
          congruence. }
        assert (i < length st) as Hlt.
        { apply lookup_lt_Some in Hi. rewrite length_app in Hi. simpl in Hi. lia. }
        specialize (Hlater (length st) d Hlt).
        rewrite lookup_app_r, Nat.sub_diag in Hlater by lia.
        specialize (Hlater eq_refl). congruence.
    + rewrite IH. split.
      * intros (i & d0 & Hi & Hv & Hlater). exists i, d0.
        split; [by apply lookup_app_l_Some|]. split; [done|].
        intros j d' Hj Hl.
        destruct (decide (j < length st)) as [Hlt|Hge].
        { rewrite lookup_app_l in Hl by done. by eapply Hlater. }
        assert (j = length st) as ->.
        { apply lookup_lt_Some in Hl. rewrite length_app in Hl. simpl in Hl. lia. }
        rewrite lookup_app_r, Nat.sub_diag in Hl by lia. simpl in Hl. congruence.
      * intros (i & d0 & Hi & Hv & Hlater).
        assert (i < length st) as Hlt.
        { destruct (decide (i < length st)); [done|].
          assert (i = length st) as ->.
          { apply lookup_lt_Some in Hi. rewrite length_app in Hi. simpl in Hi. lia. }
          rewrite lookup_app_r, Nat.sub_diag in Hi by lia. simpl in Hi.
          congruence. }
        exists i, d0. rewrite lookup_app_l in Hi by done.
        split; [done|]. split; [done|]. intros j d' Hj Hl.
        apply (Hlater j d' Hj). by apply lookup_app_l_Some.
Qed.

Lemma search_None key st :
  GroupingContext.search key (rev st) = None ↔ ∀ d, d ∈ st → d !! key = None.
Proof.
  induction st as [|d st IH] using rev_ind.
  - simpl. split; [by intros _ ? ?%elem_of_nil|done].
  - rewrite search_snoc. destruct (d !! key) as [v'|] eqn:Hd.
    + split; [done|]. intros H. rewrite H in Hd; [done|].
      apply elem_of_app. right. by left.
    + rewrite IH. split.
      * intros H d' [Hin| ->%list_elem_of_singleton]%elem_of_app; [by apply H|done].
      * intros H d' Hin. apply H, elem_of_app. by left.
Qed.

(** X5. [GroupingContext.__getitem__] changes nothing, and returns the
    value of the key in the innermost overlay of the stack that holds the
    key; it raises, and then the [KeyError] of that key, exactly when no
    overlay holds it. *)
Theorem getitem_reads_the_innermost_overlay key w :
  (GroupingContext.getitem key w).2 = w ∧
  (∀ v, (GroupingContext.getitem key w).1 = Ok v ↔
        ∃ i d, stack w !! i = Some d ∧ d !! key = Some v ∧
               ∀ j d', i < j → stack w !! j = Some d' → d' !! key = None) ∧
  (∀ e, (GroupingContext.getitem key w).1 = Err e ↔
        e = KeyError key ∧ ∀ d, d ∈ stack w → d !! key = None).
Proof.
  split; [apply getitem_world|]. unfold GroupingContext.getitem. split.
  - intros v. rewrite <- search_Some.
    destruct (GroupingContext.search key (rev (stack w))); simpl; [|done].
    split; congruence.
  - intros e. rewrite <- search_None.
    destruct (GroupingContext.search key (rev (stack w))); simpl.
    + split; [done|]. by intros [_ ?].
    + split; [by intros [= <-]|]. by intros [-> _].
Qed.

Lemma setitem_snoc key value st d h :
  GroupingContext.setitem key value {| stack := st ++ [d]; heap := h |} =
  (Ok tt, {| stack := st ++ [<[key := value]> d]; heap := h |}).
Proof.
  unfold GroupingContext.setitem, set_stack. simpl.
  rewrite last_snoc, length_app. simpl.
  replace (pred (length st + 1)) with (length st + 0) by lia.
  by rewrite insert_app_r.
Qed.

(** X6. [GroupingContext.__setitem__] raises [IndexError] on an empty
    stack. Otherwise the key reads back as the value written, every other
    key reads as before, and only the innermost overlay differs: the outer
    overlays and the components are untouched. *)
Theorem setitem_writes_the_innermost_overlay key value w :
  (stack w = [] →
   GroupingContext.setitem key value w = (Err IndexError, w)) ∧
  (stack w ≠ [] →
   ∃ w', GroupingContext.setitem key value w = (Ok tt, w') ∧
         GroupingContext.getitem key w' = (Ok value, w') ∧
         (∀ k, k ≠ key →
            (GroupingContext.getitem k w').1 = (GroupingContext.getitem k w).1) ∧
         removelast (stack w') = removelast (stack w) ∧
         heap w' = heap w).
Proof.
  split.
  - intros E. unfold GroupingContext.setitem. by rewrite E.
  - intros Hne. destruct w as [st h]. simpl in *.
    destruct (exists_last Hne) as (st' & d & ->).
    rewrite setitem_snoc. eexists. split; [done|].
    unfold GroupingContext.getitem. simpl. rewrite !search_snoc.
    rewrite lookup_insert_eq. split; [done|]. split.
    + intros k Hk. rewrite !search_snoc, lookup_insert_ne by done.
      destruct (d !! k); [done|].
      by destruct (GroupingContext.search k (rev st')).
    + by rewrite !removelast_last.
Qed.

(** X7. A write inside a scope is seen inside and undone outside: after
    [push] and a write the key reads as the value written, in a stack that
    is the old one with one overlay on top, and [push], a write and [pop]
    together leave the context exactly as it was. *)
Theorem scoped_write_is_undone key value w :
  (let! _ := GroupingContext.push in
   let! _ := GroupingContext.setitem key value in
   GroupingContext.getitem key) w
  = (Ok value, set_stack (stack w ++ [{[key := value]}]) w) ∧
  (let! _ := GroupingContext.push in
   let! _ := GroupingContext.setitem key value in
   GroupingContext.pop) w = (Ok tt, w).
Proof.
  destruct w as [st h].
  pose proof (push_setitem key value {| stack := st; heap := h |}) as Hps.
  unfold bind in Hps. unfold bind.
  destruct (GroupingContext.push {| stack := st; heap := h |}) as [[[]|e] w1];
    [|done].
  destruct (GroupingContext.setitem key value w1) as [[[]|e] w2]; [|done].
  injection Hps as ->. unfold set_stack. simpl. split.
  - unfold GroupingContext.getitem. simpl. rewrite search_snoc.
    by rewrite lookup_singleton_eq.
  - unfold GroupingContext.pop, set_stack. simpl.
    rewrite removelast_last. by destruct st.
Qed.

(** X8. [GroupingContext.__init__] always succeeds and leaves a context
    at top level: the stack is the configuration's initial context under one
    overlay, [variant] reads [None], every other key reads as the initial
    context has it (a [KeyError] if it has not), and the components are
    untouched. *)
Theorem fresh_context_is_top_level initial_context w :
  ∃ w', GroupingContext.init initial_context w = (Ok tt, w') ∧
        stack w' = [initial_context; {["variant" := PyNone]}] ∧
        heap w' = heap w ∧
        GroupingContext.getitem "variant" w' = (Ok PyNone, w') ∧
        ∀ key, key ≠ "variant" →
          (GroupingContext.getitem key w').1 =
          match initial_context !! key with
          | Some v => Ok v
          | None => Err (KeyError key)
          end.
Proof.
  unfold GroupingContext.init. rewrite push_setitem. eexists. split; [done|].
  simpl. split; [done|]. split; [done|]. split.
  - unfold GroupingContext.getitem. simpl. by rewrite lookup_singleton_eq.
  - intros key Hne. unfold GroupingContext.getitem. simpl.
    rewrite lookup_singleton_ne by done.
    by destruct (initial_context !! key).
Qed.

(** ** Invoking a strategy *)

Lemma resolve_interfaces_Some paths event args out :
  Strategy.resolve_interfaces paths event args = Some out ↔
  ∃ found, out = args ++ found ∧
           Forall2 (λ p i, event_interfaces event !! p = Some i) paths found.
Proof.
  revert args. induction paths as [|p paths IH]; intros args; simpl.
  - split.
    + intros [= <-]. exists []. by rewrite app_nil_r.
    + intros (found & -> & ->%Forall2_nil_inv_l). by rewrite app_nil_r.
  - destruct (event_interfaces event !! p) as [i|] eqn:Hp.
    + rewrite IH. split.
      * intros (found & -> & Hall). exists (i :: found).
        rewrite <- app_assoc. split; [done|]. by constructor.
      * intros (found & -> & Hall).
        apply Forall2_cons_inv_l in Hall as (i' & found' & Hi & Hall & ->).
        assert (i' = i) as -> by congruence.
        exists found'. by rewrite <- app_assoc.
    + split; [done|]. intros (found & _ & Hall).
      apply Forall2_cons_inv_l in Hall as (i' & found' & Hi & _). congruence.
Qed.

(** X9. The interface loop of [Strategy.get_grouping_component] returns
    the event's interfaces in the order the strategy declares them, one for
    each declared path, and answers [None] exactly when the event lacks one
    of the declared paths. *)
Theorem resolve_interfaces_in_declared_order paths event :
  (∀ args, Strategy.resolve_interfaces paths event [] = Some args ↔
           Forall2 (λ p i, event_interfaces event !! p = Some i) paths args) ∧
  (Strategy.resolve_interfaces paths event [] = None ↔
   ∃ p, p ∈ paths ∧ event_interfaces event !! p = None).
Proof.
  split.
  - intros args. rewrite resolve_interfaces_Some. split.
    + by intros (found & -> & H).
    + intros H. by exists args.
  - split.
    + generalize (@nil Interface). induction paths as [|p paths IH]; intros acc.
      * done.
      * simpl. destruct (event_interfaces event !! p) as [i|] eqn:Hp.
        -- intros (q & Hq & Hm)%IH. exists q. split; [by right|done].
        -- intros _. exists p. split; [by left|done].
    + intros (p & Hin & Hp). by eapply resolve_interfaces_missing.
Qed.

Lemma get_grouping_component_run self event variant s args :
  Strategy.resolve_interfaces (Strategy.interfaces self) event [] = Some args →
  Strategy.get_grouping_component self event variant s =
  match Strategy.func self args event
          (set_stack (stack (world s) ++ [scope_overlay variant]) (world s)) with
  | (r, w') =>
      match stack w' with
      | [] => (Err IndexError, {| world := w'; trace := EvCall :: trace s |})
      | _ => (r, {| world := leave w'; trace := EvCall :: trace s |})
      end
  end.
Proof.
  intros Hargs. destruct s as [w tr].
  unfold Strategy.get_grouping_component. rewrite Hargs.
  assert ((lift_world GroupingContext.push >>
           match variant with
           | PyNone => ret tt
           | _ => lift_world (GroupingContext.setitem "variant" variant)
           end) {| world := w; trace := tr |} =
          (Ok tt, {| world := set_stack (stack w ++ [scope_overlay variant]) w;
                     trace := tr |})) as Hscope.
  { unfold bind, lift_world, GroupingContext.push, modify. simpl.
    destruct variant; simpl; try done;
      unfold GroupingContext.setitem, set_stack; simpl;
      rewrite last_snoc, length_app; simpl;
      replace (pred (length (stack w) + 1)) with (length (stack w) + 0) by lia;
      rewrite insert_app_r; simpl; by rewrite insert_empty. }
  unfold scoped, finally, Strategy.call, invoke, emit, modify.
  unfold bind in Hscope. unfold bind.
  destruct (lift_world GroupingContext.push {| world := w; trace := tr |})
    as [[[]|e] s1]; [|done].
  destruct (match variant with
            | PyNone => ret tt
            | _ => lift_world (GroupingContext.setitem "variant" variant)
            end s1) as [[[]|e] s2]; [|done].
  injection Hscope as ->. simpl. unfold lift_world. simpl.
  destruct (Strategy.func self args event _) as [r w']. simpl.
  unfold GroupingContext.pop, leave. by destruct (stack w'), r.
Qed.

(** X10. [Strategy.get_grouping_component] runs the strategy function in
    a scope of its own. For a function that leaves the stack as it finds it,
    the call returns what the function returns on the stack extended by one
    overlay, restores the caller's stack, and counts one invocation; inside,
    a given variant reads as given, and without one the caller's variant is
    still read. *)
Theorem get_grouping_component_scopes_the_pin self event variant s args :
  Strategy.resolve_interfaces (Strategy.interfaces self) event [] = Some args →
  keeps_stack (Strategy.func self args event) →
  let inner := set_stack (stack (world s) ++ [scope_overlay variant]) (world s) in
  let out := Strategy.func self args event inner in
  Strategy.get_grouping_component self event variant s =
    (out.1, {| world := set_stack (stack (world s)) out.2;
               trace := EvCall :: trace s |}) ∧
  (variant ≠ PyNone →
   GroupingContext.getitem "variant" inner = (Ok variant, inner)) ∧
  (variant = PyNone →
   (GroupingContext.getitem "variant" inner).1 =
   (GroupingContext.getitem "variant" (world s)).1).
Proof.
  intros Hargs Hkeep inner out.
  rewrite (get_grouping_component_run _ _ _ _ _ Hargs).
  fold inner. fold out. pose proof (Hkeep inner) as Hk. fold out in Hk.
  split; [|split].
  - clearbody out. destruct out as [r w']. simpl in *.
    unfold leave. rewrite Hk. unfold inner. simpl.
    rewrite removelast_last.
    destruct (stack (world s) ++ [scope_overlay variant]) eqn:E'; [|done].
    by apply app_eq_nil in E' as [_ ?].
  - intros Hv. unfold GroupingContext.getitem, inner. simpl.
    rewrite rev_app_distr. simpl.
    destruct variant; try done; simpl; by rewrite lookup_singleton_eq.
  - intros ->. unfold GroupingContext.getitem, inner. simpl.
    rewrite rev_app_distr. simpl. rewrite lookup_empty.
    by destruct (GroupingContext.search _ _).
Qed.

(** ** Delegation *)

Lemma call_with_variants_pinned f variants w tr v :
  (GroupingContext.getitem "variant" w).1 = Ok (PyStr v) →
  call_with_variants f variants {| world := w; trace := tr |} =
  if bool_decide (v ∈ variants) || bool_decide ("!" +:+ v ∈ variants)
  then ((f w).1, {| world := (f w).2; trace := EvCall :: tr |})
  else (Err AssertionError, {| world := w; trace := tr |}).
Proof.
  intros Hpin.
  assert (lift_world (GroupingContext.getitem "variant")
            {| world := w; trace := tr |}
          = (Ok (PyStr v), {| world := w; trace := tr |})) as Hget.
  { unfold lift_world. simpl. pose proof (getitem_world "variant" w) as Hw.
    destruct (GroupingContext.getitem "variant" w) as [r w']. simpl in *.
    by subst. }
  unfold call_with_variants. rewrite (bind_ok _ _ _ _ _ Hget).
  unfold assert_own_variant.
  destruct (bool_decide (v ∈ variants) || bool_decide ("!" +:+ v ∈ variants));
    [|done].
  unfold bind, ret, invoke, emit, modify, bind, lift_world. simpl.
  by destruct (f w).
Qed.

(** X11. [GroupingContext.get_grouping_component]. Without a delegate for
    the interface's path the call raises the dispatch [RuntimeError] and
    changes nothing. With a delegate made by [produces_variants] and a
    pinned variant, a variant that is not one of the delegate's candidates
    is an [AssertionError] after one invocation, and otherwise the call
    returns the component the function filed under the pinned variant, not
    the dictionary. *)
Theorem delegation_returns_the_pinned_component
    delegates interface args event s :
  (delegates !! path interface = None →
   Delegation.get_grouping_component delegates interface args event s =
   (Err (RuntimeError (NoDelegate (path interface))), s)) ∧
  (∀ strategy variants f v,
     delegates !! path interface = Some strategy →
     Strategy.func strategy (interface :: args) event
       = produces_variants variants f →
     (GroupingContext.getitem "variant" (world s)).1 = Ok (PyStr v) →
     (¬ (v ∈ variants ∨ "!" +:+ v ∈ variants) →
      Delegation.get_grouping_component delegates interface args event s =
      (Err AssertionError,
       {| world := world s; trace := EvCall :: trace s |})) ∧
     (∀ c w',
        v ∈ variants ∨ "!" +:+ v ∈ variants →
        f (world s) = (Ok (Some {[v := c]}), w') →
        (GroupingContext.getitem "variant" w').1 = Ok (PyStr v) →
        Delegation.get_grouping_component delegates interface args event s =
        (Ok (Delegation.Component c),
         {| world := w'; trace := EvCall :: trace s |}))).
Proof.
  split.
  - intros Hnone. unfold Delegation.get_grouping_component. by rewrite Hnone.
  - intros strategy variants f v Hsome Hfunc Hpin.
    destruct s as [w tr]. simpl in *.
    unfold Delegation.get_grouping_component. rewrite Hsome.
    unfold Strategy.call, invoke, emit, modify. rewrite Hfunc.
    unfold produces_variants.
    pose proof (call_with_variants_pinned f variants w [] v Hpin) as Hcall.
    split.
    + intros Hout.
      rewrite bool_decide_eq_false_2, bool_decide_eq_false_2 in Hcall by tauto.
      simpl in Hcall. unfold bind, lift_world. simpl. by rewrite Hcall.
    + intros c w' Hin Hf Hpin'.
      assert (bool_decide (v ∈ variants) || bool_decide ("!" +:+ v ∈ variants)
              = true) as Hb.
      { apply orb_true_iff.
        destruct Hin; [left|right]; by apply bool_decide_eq_true. }
      rewrite Hb, Hf in Hcall. simpl in Hcall.
      unfold bind, lift_world. simpl. rewrite Hcall. simpl.
      pose proof (getitem_world "variant" w') as Hw.
      destruct (GroupingContext.getitem "variant" w') as [r w'']. simpl in *.
      subst. rewrite map_size_singleton. simpl.
      by rewrite lookup_singleton_eq.
Qed.

(** ** Loop invariants *)

Lemma for_fold_state_inv {S A B} (P : S → Prop) xs (body : B → A → M S B) acc s :
  (∀ acc x s, P s → P (body acc x s).2) → P s →
  P (for_fold xs body acc s).2.
Proof.
  intros Hbody. revert acc s. induction xs as [|x xs IH]; intros acc s Hs; [done|].
  simpl. unfold bind. specialize (Hbody acc x s Hs).
  destruct (body acc x s) as [[acc'|e] s1]; simpl in *; [by apply IH|done].
Qed.

Lemma for_fold_result_inv {S A B} (I : B → Prop) xs (body : B → A → M S B)
    acc s acc' s' :
  (∀ acc x s acc' s', x ∈ xs → I acc → body acc x s = (Ok acc', s') → I acc') →
  I acc → for_fold xs body acc s = (Ok acc', s') → I acc'.
Proof.
  revert acc s. induction xs as [|x xs IH]; intros acc s Hbody Hacc.
  - by intros [= <- _].
  - simpl. unfold bind. destruct (body acc x s) as [[acc1|e] s1] eqn:E; [|done].
    apply IH.
    + intros ? ? ? ? ? Hin. apply Hbody. by right.
    + eapply Hbody; [by left|done|done].
Qed.

Lemma replicate_snoc_cons {A} n (x : A) l :
  replicate n x ++ x :: l = x :: replicate n x ++ l.
Proof. induction n as [|n IH]; simpl; [done|]. by rewrite IH. Qed.

(** ** The first loop *)

Lemma collect_variant_cases f st variant s :
  trace (collect_variant f st variant s).2 = EvCall :: trace s ∧
  (∀ st', (collect_variant f st variant s).1 = Ok st' →
     st' = st ∨
     ∃ l c, st' = record_component st (is_mandatory variant)
                    (lstrip_bang variant) l c).
Proof.
  unfold collect_variant, bind. rewrite compute_variant_run.
  destruct (f _) as [r w']. destruct (stack w') as [|o os]; [by split|].
  set (s1 := {| world := leave w'; trace := EvCall :: trace s |}).
  destruct (match r with Ok variants => _ | Err e => Err e end) as [[l|]|e];
    simpl.
  - unfold read_component. destruct (heap (world s1) !! l) as [c|]; simpl.
    + split; [done|]. intros st' [= <-]. right. by exists l, c.
    + by split.
  - split; [done|]. intros st' [= <-]. by left.
  - by split.
Qed.

Lemma collect_variant_stack f st variant s :
  keeps_stack f →
  stack (world (collect_variant f st variant s).2) = stack (world s).
Proof.
  intros Hkeep. unfold collect_variant, bind. rewrite compute_variant_run.
  specialize (Hkeep (enter (lstrip_bang variant) (world s))).
  destruct (f _) as [r w']. simpl in Hkeep.
  assert (stack (leave w') = stack (world s)) as Hleave.
  { unfold leave. simpl. rewrite Hkeep. unfold enter. simpl.
    by rewrite removelast_last. }
  assert (stack w' ≠ []) as Hne.
  { rewrite Hkeep. unfold enter. simpl. by destruct (stack (world s)). }
  destruct (stack w') as [|o os]; [done|].
  destruct (match r with Ok variants => _ | Err e => Err e end) as [[l|]|e];
    simpl; try done.
  unfold read_component. simpl. by destruct (heap w' !! l).
Qed.

Lemma collect_loop_trace f variants st s :
  ∃ n, trace (for_fold variants (collect_variant f) st s).2
       = replicate n EvCall ++ trace s ∧
       (n ≤ length variants)%nat ∧
       (∀ st', (for_fold variants (collect_variant f) st s).1 = Ok st' →
               n = length variants).
Proof.
  revert st s. induction variants as [|v vs IH]; intros st s.
  - exists 0. by split.
  - simpl. unfold bind.
    destruct (collect_variant_cases f st v s) as [Htr _].
    destruct (collect_variant f st v s) as [[st1|e] s1]; simpl in *.
    + destruct (IH st1 s1) as (n & Hn & Hle & Hok). exists (S n).
      rewrite Hn, Htr. split; [by rewrite replicate_snoc_cons|].
      split; [lia|]. intros st' H. by rewrite (Hok st' H).
    + exists 1. rewrite Htr. split; [done|]. split; [lia|done].
Qed.

Lemma collected_init variants : collected variants locals_init.
Proof.
  split; [|split]; simpl.
  - intros k c. by rewrite lookup_empty.
  - by intros k ?%elem_of_nil.
  - intros h m. by rewrite lookup_empty.
Qed.

Lemma collected_record variants st v l c :
  v ∈ variants → collected variants st →
  collected variants
    (record_component st (is_mandatory v) (lstrip_bang v) l c).
Proof.
  intros Hv (Hrv & Hopt & Hman). split; [|split]; simpl.
  - intros k c'. destruct (decide (lstrip_bang v = k)) as [<-|Hne].
    + rewrite lookup_insert_eq. intros [= <-]. split; [by exists v|by exists l].
    + rewrite lookup_insert_ne by done. apply Hrv.
  - intros k Hk.
    assert (k ∈ optional_contributing_variants st ∨
            (k = lstrip_bang v ∧ is_mandatory v = false)) as [Hold|[-> Hm]].
    { destruct (contributes c), (is_mandatory v); simpl in Hk; auto.
      apply elem_of_app in Hk as [?|Hk]; [auto|].
      apply list_elem_of_singleton in Hk as ->. auto. }
    + destruct (Hopt k Hold) as [Hex Hsome]. split; [done|].
      destruct (decide (lstrip_bang v = k)) as [<-|Hne].
      * by rewrite lookup_insert_eq.
      * by rewrite lookup_insert_ne.
    + split; [by exists v|]. by rewrite lookup_insert_eq.
  - intros h m.
    destruct (contributes c && is_mandatory v) eqn:E; [|apply Hman].
    apply andb_true_iff in E as [_ Hm].
    destruct (decide (get_hash c = h)) as [<-|Hne].
    + rewrite lookup_insert_eq. intros [= <-]. by exists v.
    + rewrite lookup_insert_ne by done. apply Hman.
Qed.

Lemma collect_loop_collected f variants st s st' s' :
  collected variants st →
  for_fold variants (collect_variant f) st s = (Ok st', s') →
  collected variants st'.
Proof.
  apply (for_fold_result_inv (collected variants)).
  intros acc v s0 acc' s0' Hv Hacc Hrun.
  destruct (collect_variant_cases f acc v s0) as [_ Hcases].
  rewrite Hrun in Hcases.
  destruct (Hcases acc' eq_refl) as [->|(l & c & ->)]; [done|].
  by apply collected_record.
Qed.

(** ** The second loop *)

Lemma suppress_variant_cases st variant s :
  (suppress_variant st variant s).2 = s ∨
  ∃ r l c h,
    rv st !! variant = Some (Some l) ∧
    heap (world s) !! l = Some c ∧
    suppress_variant st variant s =
      (Ok tt,
       {| world := set_heap (<[l := update c false h]> (heap (world s)))
                     (world s);
          trace := EvUpdate r l h :: trace s |}) ∧
    ((r = NotUsed ∧ prevent_contribution st = true) ∨
     (r = HashMatch ∧ prevent_contribution st = false ∧
      ∃ m, mandatory_contributing_hashes st !! get_hash c = Some m ∧
           h = "ignored because hash matches " +:+ m +:+ " variant")).
Proof.
  destruct (rv st !! variant) as [[l|]|] eqn:Hrv.
  2,3: left; unfold suppress_variant; by rewrite Hrv.
  destruct (heap (world s) !! l) as [c|] eqn:Hl.
  2: { left. unfold suppress_variant. rewrite Hrv.
       destruct (prevent_contribution st) eqn:Hp.
       - rewrite (prevent_contribution_empty _ Hp), unused_variant_name_empty.
         rewrite bind_lift_result_ok.
         unfold component_update, bind, read_component. by rewrite Hl.
       - unfold bind, read_component. by rewrite Hl. }
  destruct (prevent_contribution st) eqn:Hp.
  - right.
    exists NotUsed, l, c, "ignored because other mandatory variant is not used".
    split; [done|]. split; [done|].
    split; [by apply suppress_variant_not_used|]. by left.
  - destruct (mandatory_contributing_hashes st !! get_hash c) as [m|] eqn:Hm.
    + right.
      exists HashMatch, l, c,
        ("ignored because hash matches " +:+ m +:+ " variant").
      split; [done|]. split; [done|].
      split; [by apply (suppress_variant_hash_match st variant s l c m)|].
      right. split; [done|]. split; [done|]. by exists m.
    + left. by rewrite (suppress_variant_keep st variant s l c).
Qed.

Lemma suppress_loop_spec variants st ks s :
  collected variants st →
  (∀ k, k ∈ ks → k ∈ optional_contributing_variants st) →
  let out := for_each ks (suppress_variant st) s in
  ∃ ups,
    trace out.2 = ups ++ trace s ∧
    stack (world out.2) = stack (world s) ∧
    Forall is_update ups ∧
    (∀ r l h, EvUpdate r l h ∈ ups →
       (∃ v, v ∈ variants ∧ is_mandatory v = false ∧
             rv st !! lstrip_bang v = Some (Some l)) ∧
       (∃ c, heap (world out.2) !! l = Some c ∧ suppressed c) ∧
       ((r = NotUsed ∧ prevent_contribution st = true) ∨
        (r = HashMatch ∧ prevent_contribution st = false ∧
         ∃ m, m ∈ variants ∧ is_mandatory m = true ∧
              h = "ignored because hash matches " +:+ lstrip_bang m
                  +:+ " variant"))) ∧
    (∀ l c, heap (world s) !! l = Some c → suppressed c →
            ∃ c', heap (world out.2) !! l = Some c' ∧ suppressed c').
Proof.
  intros Hcol. revert s. induction ks as [|k ks IH]; intros s Hks out.
  - exists []. subst out. simpl. split; [done|]. split; [done|].
    split; [constructor|]. split; [by intros ? ? ? ?%elem_of_nil|eauto].
  - assert (∀ k', k' ∈ ks → k' ∈ optional_contributing_variants st) as Hks'.
    { intros k' ?. apply Hks. by right. }
    subst out. simpl. unfold bind.
    destruct (suppress_variant_cases st k s)
      as [Hsame|(r & l & c & h & Hrv & Hl & Hrun & Hrule)].
    + destruct (suppress_variant st k s) as [[[]|e] s1]; simpl in Hsame; subst s1.
      * apply IH, Hks'.
      * exists []. simpl. split; [done|]. split; [done|].
        split; [constructor|]. split; [by intros ? ? ? ?%elem_of_nil|eauto].
    + rewrite Hrun.
      set (s1 := {| world := set_heap (<[l := update c false h]> (heap (world s)))
                               (world s);
                    trace := EvUpdate r l h :: trace s |}).
      destruct (IH s1 Hks') as (ups & Htr & Hst & Hups & Hev & Hkeep).
      exists (ups ++ [EvUpdate r l h]).
      split; [by rewrite Htr, <- app_assoc|]. split; [by rewrite Hst|].
      split; [apply Forall_app; split; [done|by repeat constructor]|].
      split.
      * intros r' l' h' [Hin|Hin%list_elem_of_singleton]%elem_of_app;
          [by apply Hev|].
        injection Hin as -> -> ->.
        destruct Hcol as (_ & Hopt & Hman).
        destruct (Hopt k (Hks k ltac:(by left))) as [(v & Hv & Hm & ->) _].
        split; [by exists v|]. split.
        -- apply (Hkeep l (update c false h)); [apply lookup_insert_eq|].
           split; [done|by eexists].
        -- destruct Hrule as [?|(-> & Hp & m & Hm' & ->)]; [by left|].
           right. split; [done|]. split; [done|].
           destruct (Hman _ _ Hm') as (m0 & ? & ? & ->). by exists m0.
      * intros l0 c0 Hl0 Hc0. destruct (decide (l = l0)) as [<-|Hne].
        -- apply (Hkeep l (update c false h)); [apply lookup_insert_eq|].
           split; [done|by eexists].
        -- apply (Hkeep l0 c0); [|done]. simpl. by rewrite lookup_insert_ne.
Qed.

(** ** The whole call *)

Lemma call_with_variants_top f variants w tr :
  (GroupingContext.getitem "variant" w).1 = Ok PyNone →
  call_with_variants f variants {| world := w; trace := tr |} =
  match for_fold variants (collect_variant f) locals_init
          {| world := w; trace := tr |} with
  | (Err e, s1) => (Err e, s1)
  | (Ok st, s1) =>
      match for_each (optional_contributing_variants st)
              (suppress_variant st) s1 with
      | (Ok _, s2) => (Ok (Some (rv st)), s2)
      | (Err e, s2) => (Err e, s2)
      end
  end.
Proof.
  intros Htop. unfold call_with_variants.
  rewrite (bind_ok _ _ _ _ _ (top_level_getitem w tr Htop)).
  unfold bind. destruct (for_fold _ _ _ _) as [[st|e] s1]; [|done].
  by destruct (for_each _ _ s1) as [[[]|e] s2].
Qed.

Lemma call_with_variants_not_top f variants w tr :
  (GroupingContext.getitem "variant" w).1 ≠ Ok PyNone →
  let out := call_with_variants f variants {| world := w; trace := tr |} in
  out.2 = {| world := w; trace := tr |} ∨
  out = ((f w).1, {| world := (f w).2; trace := EvCall :: tr |}).
Proof.
  intros Hnot out. subst out.
  destruct (GroupingContext.getitem "variant" w) as [r w0] eqn:Hget.
  pose proof (getitem_world "variant" w) as Hw. rewrite Hget in Hw.
  simpl in *. subst w0.
  destruct r as [[| v | b | n]|e].
  - done.
  - rewrite (call_with_variants_pinned f variants w tr v) by (by rewrite Hget).
    destruct (_ || _); auto.
  - left. unfold call_with_variants, bind, lift_world. simpl. by rewrite Hget.
  - left. unfold call_with_variants, bind, lift_world. simpl. by rewrite Hget.
  - left. unfold call_with_variants, bind, lift_world. simpl. by rewrite Hget.
Qed.

Lemma update_not_a_call r l h n : EvUpdate r l h ∉ replicate n EvCall.
Proof. by intros [? _]%elem_of_replicate. Qed.

Lemma top_level_or_not w :
  (GroupingContext.getitem "variant" w).1 = Ok PyNone ∨
  (GroupingContext.getitem "variant" w).1 ≠ Ok PyNone.
Proof.
  destruct (GroupingContext.getitem "variant" w).1 as [[| | |]|]; auto.
Qed.

(** X12. At top level [call_with_variants] invokes the function at most
    once per candidate and performs its updates only after all invocations:
    the trace grows by some updates on top of [n] invocations, with [n] at
    most the number of candidates, and exactly that number when the call
    returns or when any update was performed. *)
Theorem top_level_computes_every_candidate_once f variants w tr :
  (GroupingContext.getitem "variant" w).1 = Ok PyNone →
  let out := call_with_variants f variants {| world := w; trace := tr |} in
  ∃ ups n,
    trace out.2 = ups ++ replicate n EvCall ++ tr ∧
    Forall is_update ups ∧
    (n ≤ length variants)%nat ∧
    ((∃ r, out.1 = Ok r) ∨ ups ≠ [] → n = length variants).
Proof.
  intros Htop out. subst out. rewrite (call_with_variants_top _ _ _ _ Htop).
  destruct (collect_loop_trace f variants locals_init
              {| world := w; trace := tr |}) as (n & Hn & Hle & Hok).
  destruct (for_fold variants (collect_variant f) locals_init _)
    as [[st|e] s1] eqn:E1; simpl in *.
  - pose proof (collect_loop_collected f variants _ _ _ _
                  (collected_init variants) E1) as Hcol.
    destruct (suppress_loop_spec variants st
                (optional_contributing_variants st) s1 Hcol ltac:(done))
      as (ups & Htr & _ & Hups & _).
    exists ups, n. rewrite (Hok st eq_refl) in *.
    destruct (for_each _ _ s1) as [[[]|e] s2]; simpl in *;
      rewrite Htr, Hn; by repeat split.
  - exists [], n. split; [done|]. split; [constructor|]. split; [done|].
    by intros [[r ?]|?].
Qed.



(** X14. One run of [call_with_variants] applies one suppression rule:
    either all its updates are of the not-used kind, or all are of the
    hash-match kind, and then each hint names the stripped name of a
    candidate with the marker. *)
Theorem one_suppression_rule_per_run f variants s :
  ∃ new,
    trace (call_with_variants f variants s).2 = new ++ trace s ∧
    ((∀ r l h, EvUpdate r l h ∈ new → r = NotUsed) ∨
     (∀ r l h, EvUpdate r l h ∈ new →
        r = HashMatch ∧
        ∃ m, m ∈ variants ∧ is_mandatory m = true ∧
             h = "ignored because hash matches " +:+ lstrip_bang m
                 +:+ " variant")).
Proof.
  destruct s as [w tr].
  destruct (top_level_or_not w) as [Htop|Hnot].
  - rewrite (call_with_variants_top _ _ _ _ Htop).
    destruct (collect_loop_trace f variants locals_init
                {| world := w; trace := tr |}) as (n & Hn & _ & _).
    destruct (for_fold variants (collect_variant f) locals_init _)
      as [[st|e] s1] eqn:E1; simpl in *.
    + pose proof (collect_loop_collected f variants _ _ _ _
                    (collected_init variants) E1) as Hcol.
      destruct (suppress_loop_spec variants st
                  (optional_contributing_variants st) s1 Hcol ltac:(done))
        as (ups & Htr & _ & _ & Hev & _).
      exists (ups ++ replicate n EvCall). split.
      { destruct (for_each _ _ s1) as [[[]|e] s2]; simpl in *;
          by rewrite Htr, Hn, app_assoc. }
      destruct (prevent_contribution st) eqn:Hp; [left|right];
        intros r l h [Hin|Hin]%elem_of_app;
        try (by apply update_not_a_call in Hin);
        destruct (Hev r l h Hin) as (_ & _ & [[-> ?]|(-> & ? & Hm)]);
        try done; congruence.
    + exists (replicate n EvCall). split; [done|]. left.
      intros r l h Hin. by apply update_not_a_call in Hin.
  - destruct (call_with_variants_not_top f variants w tr Hnot) as [E|E];
      rewrite E; simpl.
    + exists []. split; [done|]. left. by intros ? ? ? ?%elem_of_nil.
    + exists [EvCall]. split; [done|]. left.
      intros r l h Hin. by apply (update_not_a_call r l h 1) in Hin.
Qed.


(** X16. [call_with_variants] restores the context stack, on success and
    on failure, for every function that leaves the stack as it finds it. *)
Theorem call_with_variants_restores_the_stack f variants s :
  keeps_stack f →
  stack (world (call_with_variants f variants s).2) = stack (world s).
Proof.
  intros Hkeep. destruct s as [w tr].
  destruct (top_level_or_not w) as [Htop|Hnot].
  - rewrite (call_with_variants_top _ _ _ _ Htop).
    pose proof (for_fold_state_inv
                  (λ s', stack (world s') = stack w) variants
                  (collect_variant f) locals_init {| world := w; trace := tr |})
      as H1.
    simpl in H1.
    specialize (H1 (λ acc v s0 Hs0,
                      eq_trans (collect_variant_stack f acc v s0 Hkeep) Hs0)
                   eq_refl).
    destruct (for_fold variants (collect_variant f) locals_init _)
      as [[st|e] s1] eqn:E1; simpl in *; [|done].
    pose proof (collect_loop_collected f variants _ _ _ _
                  (collected_init variants) E1) as Hcol.
    destruct (suppress_loop_spec variants st
                (optional_contributing_variants st) s1 Hcol ltac:(done))
      as (ups & _ & Hst & _).
    destruct (for_each _ _ s1) as [[[]|e] s2]; simpl in *; congruence.
  - destruct (call_with_variants_not_top f variants w tr Hnot) as [E|E];
      rewrite E; simpl; [done|apply Hkeep].
Qed.

(** ** More on the two loops of the build *)

Lemma for_each_app {S A} (xs ys : list A) (body : A → M S unit) s :
  for_each (xs ++ ys) body s = (for_each xs body >> for_each ys body) s.
Proof.
  revert s. induction xs as [|x xs IH]; intros s; simpl; [done|].
  unfold bind. destruct (body x s) as [[[]|e] s1]; [|done].
  rewrite IH. done.
Qed.

Lemma for_fold_app {S A B} (xs ys : list A) (body : B → A → M S B) acc s :
  for_fold (xs ++ ys) body acc s =
  bind (for_fold xs body acc) (for_fold ys body) s.
Proof.
  revert acc s. induction xs as [|x xs IH]; intros acc s; simpl; [done|].
  unfold bind. destruct (body acc x s) as [[acc'|e] s1]; [|done].
  rewrite IH. done.
Qed.

Lemma add_strategies_app STRATEGIES id by_class l1 l2
    (d : gmap string Strategy.t) :
  add_strategies modify STRATEGIES id by_class (l1 ++ l2) d =
  match add_strategies modify STRATEGIES id by_class l1 d with
  | (Ok _, d1) => add_strategies modify STRATEGIES id by_class l2 d1
  | (Err e, d1) => (Err e, d1)
  end.
Proof.
  unfold add_strategies. rewrite for_each_app. unfold bind.
  by destruct (for_each l1 _ d) as [[[]|e] d1].
Qed.

Lemma add_strategies_ok_scored STRATEGIES id by_class strategies
    (d d' : gmap string Strategy.t) :
  add_strategies modify STRATEGIES id by_class strategies d = (Ok tt, d') →
  all_scored STRATEGIES strategies.
Proof.
  revert d. induction strategies as [|a l IH]; intros d; [by constructor|].
  rewrite add_strategies_cons.
  destruct (STRATEGIES !! a) as [t|] eqn:Ht; [|done].
  destruct (Strategy.score t) as [z|] eqn:Hz; [|done].
  intros H. constructor; [|by eapply IH]. exists t. by rewrite Hz.
Qed.

Lemma add_strategies_keyed STRATEGIES id by_class strategies
    (d d' : gmap string Strategy.t) :
  registry_wf STRATEGIES → keyed_by_id d →
  add_strategies modify STRATEGIES id by_class strategies d = (Ok tt, d') →
  keyed_by_id d'.
Proof.
  intros Hreg. revert d. induction strategies as [|a l IH]; intros d Hd.
  - by intros [= <-].
  - rewrite add_strategies_cons.
    destruct (STRATEGIES !! a) as [t|] eqn:Ht; [|done].
    destruct (Strategy.score t); [|done].
    apply IH. intros k s. destruct (decide (a = k)) as [<-|Hne].
    + rewrite lookup_insert_eq. intros [= <-]. by apply Hreg.
    + rewrite lookup_insert_ne by done.
      intros [_ H]%lookup_evicted_Some. by apply Hd.
Qed.

Lemma add_strategies_last_wins STRATEGIES id bs l1 a l2 t
    (d d' : gmap string Strategy.t) :
  registry_wf STRATEGIES →
  STRATEGIES !! a = Some t →
  (∀ b tb, b ∈ l2 → STRATEGIES !! b = Some tb →
     Strategy.strategy_class tb ≠ Strategy.strategy_class t) →
  add_strategies modify STRATEGIES id (by_class_of bs) (l1 ++ a :: l2) d
    = (Ok tt, d') →
  d' !! a = Some t.
Proof.
  intros Hreg Ht Hlater. rewrite add_strategies_app.
  destruct (add_strategies modify STRATEGIES id (by_class_of bs) l1 d)
    as [[[]|e] d1]; [|done].
  rewrite add_strategies_cons, Ht.
  destruct (Strategy.score t); [|done].
  apply (add_strategies_inherits STRATEGIES id bs l2 _ d' a t Hreg).
  - apply lookup_insert_eq.
  - by apply Hreg.
  - done.
Qed.

Lemma last_of_class (STRATEGIES : registry) (c : string)
    (strategies : list string) :
  (∀ a t, a ∈ strategies → STRATEGIES !! a = Some t →
          Strategy.strategy_class t ≠ c) ∨
  (∃ l1 a l2 t,
     strategies = l1 ++ a :: l2 ∧ STRATEGIES !! a = Some t ∧
     Strategy.strategy_class t = c ∧
     ∀ b tb, b ∈ l2 → STRATEGIES !! b = Some tb →
             Strategy.strategy_class tb ≠ c).
Proof.
  induction strategies as [|a l IH].
  - left. by intros ? ? ?%elem_of_nil.
  - destruct IH as [Hnone|(l1 & a' & l2 & t & -> & Ht & Hc & Hlater)].
    + destruct (STRATEGIES !! a) as [t|] eqn:Ht.
      * destruct (decide (Strategy.strategy_class t = c)) as [Hc|Hc].
        -- right. by exists [], a, l, t.
        -- left. intros b tb [->|Hb]%elem_of_cons Htb; [congruence|].
           by eapply Hnone.
      * left. intros b tb [->|Hb]%elem_of_cons Htb; [congruence|].
        by eapply Hnone.
    + right. by exists (a :: l1), a', l2, t.
Qed.

Lemma delegates_loop_ok_registered STRATEGIES id delegates nd
    (d : gmap string Strategy.t) nd' d' :
  for_fold delegates (λ (new_delegates : gset string) (strategy_id : string),
     let! strategy := lift_result (lookup_strategy STRATEGIES strategy_id) in
     claim_interfaces modify id strategy new_delegates) nd d = (Ok nd', d') →
  all_registered STRATEGIES delegates.
Proof.
  revert nd d. induction delegates as [|a l IH]; intros nd d; [by constructor|].
  rewrite delegates_loop_cons.
  destruct (STRATEGIES !! a) as [s|] eqn:Hs; [|done].
  destruct (for_fold (Strategy.interfaces s) _ nd d) as [[nd1|e] d1]; [|done].
  intros H. constructor; [by exists s|by eapply IH].
Qed.

Section MoreBuildTheorems.
Variable cleandoc : string → string.

Lemma build_ok_inv STRATEGIES id strategies delegates changelog hidden base
    risk initial_context σ bs bd bc c :
  base_dicts σ base bs bd bc →
  let out := create_strategy_configuration cleandoc STRATEGIES id strategies
               delegates changelog hidden base risk initial_context σ in
  out.1 = Ok c →
  ∃ ds nd dd,
    add_strategies modify STRATEGIES id (by_class_of bs)
      (default [] strategies) bs = (Ok tt, ds) ∧
    add_delegates modify STRATEGIES id (default [] delegates) bd
      = (Ok nd, dd) ∧
    strategy_dicts out.2 !! StrategyConfiguration.strategies c = Some ds ∧
    strategy_dicts out.2 !! StrategyConfiguration.delegates c = Some dd ∧
    context_dicts out.2 !! StrategyConfiguration.initial_context c
      = Some (merged_context initial_context bc) ∧
    c = {| StrategyConfiguration.id := id;
           StrategyConfiguration.base := base;
           StrategyConfiguration.strategies := fresh (dom (strategy_dicts σ));
           StrategyConfiguration.delegates :=
             fresh (dom (strategy_dicts
                           (write_strategy_dict
                              (fresh (dom (strategy_dicts σ))) bs σ)));
           StrategyConfiguration.initial_context :=
             fresh (dom (context_dicts σ));
           StrategyConfiguration.changelog := cleandoc (default "" changelog);
           StrategyConfiguration.hidden := hidden;
           StrategyConfiguration.risk := default RISK_LEVEL_LOW risk |}.
Proof.
  intros Hbase out. subst out.
  rewrite (create_strategy_configuration_run cleandoc _ _ _ _ _ _ _ _ _ _ _ _ _
             Hbase).
  destruct (add_strategies modify STRATEGIES id (by_class_of bs)
              (default [] strategies) bs) as [[[]|e] ds] eqn:Es; simpl; [|done].
  destruct (add_delegates modify STRATEGIES id (default [] delegates) bd)
    as [[nd|e] dd] eqn:Ed; simpl; [|done].
  intros [= <-]. exists ds, nd, dd. simpl.
  split; [done|]. split; [done|].
  assert (fresh (dom (strategy_dicts σ)) ≠
          fresh (dom (strategy_dicts
                        (write_strategy_dict (fresh (dom (strategy_dicts σ)))
                           bs σ)))) as Hne.
  { intros E.
    pose proof (fresh_strategy_dict
                  (write_strategy_dict (fresh (dom (strategy_dicts σ))) bs σ))
      as Hf.
    rewrite <- E in Hf. by rewrite lookup_write_strategy_dict in Hf. }
  split; [rewrite lookup_insert_ne by done; apply lookup_insert_eq|].
  split; [apply lookup_insert_eq|]. split; [apply lookup_insert_eq|done].
Qed.

Lemma build_result STRATEGIES id strategies delegates changelog hidden base
    risk initial_context σ bs bd bc :
  base_dicts σ base bs bd bc →
  (∃ c, (create_strategy_configuration cleandoc STRATEGIES id strategies
           delegates changelog hidden base risk initial_context σ).1 = Ok c) ∨
  (∃ e, (create_strategy_configuration cleandoc STRATEGIES id strategies
           delegates changelog hidden base risk initial_context σ).1 = Err e ∧
        ((add_strategies modify STRATEGIES id (by_class_of bs)
            (default [] strategies) bs).1 = Err e ∨
         ((∃ ds, add_strategies modify STRATEGIES id (by_class_of bs)
                   (default [] strategies) bs = (Ok tt, ds)) ∧
          (add_delegates modify STRATEGIES id (default [] delegates) bd).1
            = Err e))).
Proof.
  intros Hbase.
  rewrite (create_strategy_configuration_run cleandoc _ _ _ _ _ _ _ _ _ _ _ _ _
             Hbase).
  destruct (add_strategies modify STRATEGIES id (by_class_of bs)
              (default [] strategies) bs) as [[[]|e] ds] eqn:Es; simpl.
  - destruct (add_delegates modify STRATEGIES id (default [] delegates) bd)
      as [[nd|e] dd] eqn:Ed; simpl.
    + left. by eexists.
    + right. exists e. split; [done|]. right. split; [by exists ds|done].
  - right. exists e. split; [done|]. by left.
Qed.

(** X17. What the docstring of [create_strategy_configuration] calls
    impossible: a successful build never removes a strategy class. On a
    registry and a seed filed by id, the built [strategies] dictionary is
    filed by id, holds for every seed entry an entry of the same class, and
    holds each requested strategy that no later request of the same class
    follows. *)
Theorem build_never_drops_a_class STRATEGIES id strategies delegates changelog
    hidden base risk initial_context σ bs bd bc c :
  base_dicts σ base bs bd bc →
  registry_wf STRATEGIES → keyed_by_id bs →
  let out := create_strategy_configuration cleandoc STRATEGIES id strategies
               delegates changelog hidden base risk initial_context σ in
  out.1 = Ok c →
  ∃ d,
    strategy_dicts out.2 !! StrategyConfiguration.strategies c = Some d ∧
    keyed_by_id d ∧
    (∀ k s, bs !! k = Some s →
       ∃ k' s', d !! k' = Some s' ∧
                Strategy.strategy_class s' = Strategy.strategy_class s) ∧
    (∀ l1 a l2 t,
       default [] strategies = l1 ++ a :: l2 →
       STRATEGIES !! a = Some t →
       (∀ b tb, b ∈ l2 → STRATEGIES !! b = Some tb →
          Strategy.strategy_class tb ≠ Strategy.strategy_class t) →
       d !! a = Some t).
Proof.
  intros Hbase Hreg Hbs out Hok.
  destruct (build_ok_inv _ _ _ _ _ _ _ _ _ _ _ _ _ _ Hbase Hok)
    as (ds & nd & dd & Hs & _ & Hds & _).
  exists ds. split; [done|].
  split; [exact (add_strategies_keyed _ _ _ _ _ _ Hreg Hbs Hs)|].
  assert (∀ l1 a l2 t,
            default [] strategies = l1 ++ a :: l2 →
            STRATEGIES !! a = Some t →
            (∀ b tb, b ∈ l2 → STRATEGIES !! b = Some tb →
               Strategy.strategy_class tb ≠ Strategy.strategy_class t) →
            ds !! a = Some t) as Hlast.
  { intros l1 a l2 t Hsplit Ht Hlater. rewrite Hsplit in Hs.
    exact (add_strategies_last_wins _ _ _ _ _ _ _ _ _ Hreg Ht Hlater Hs). }
  split; [|done].
  intros k s Hk.
  destruct (last_of_class STRATEGIES (Strategy.strategy_class s)
              (default [] strategies))
    as [Hnone|(l1 & a & l2 & t & Hsplit & Ht & Hc & Hlater)].
  - exists k, s. split; [|done].
    by apply (add_strategies_inherits STRATEGIES id bs (default [] strategies)
                bs ds k s Hreg Hk (Hbs k s Hk) Hnone).
  - exists a, t. split; [|done].
    apply (Hlast l1 a l2 t Hsplit Ht). intros b tb Hb Htb. rewrite Hc.
    by eapply Hlater.
Qed.

(** X19. When a build succeeds. Given the base's dictionaries,
    [create_strategy_configuration] returns a configuration exactly when
    every requested strategy is registered with a score, every requested
    delegate is registered, and the requested delegates declare no interface
    twice. *)
Theorem build_succeeds_iff STRATEGIES id strategies delegates changelog
    hidden base risk initial_context σ bs bd bc :
  base_dicts σ base bs bd bc →
  (∃ c, (create_strategy_configuration cleandoc STRATEGIES id strategies
           delegates changelog hidden base risk initial_context σ).1 = Ok c) ↔
  all_scored STRATEGIES (default [] strategies) ∧
  all_registered STRATEGIES (default [] delegates) ∧
  NoDup (claimed_interfaces STRATEGIES (default [] delegates)).
Proof.
  intros Hbase. split.
  - intros [c Hok].
    destruct (build_ok_inv _ _ _ _ _ _ _ _ _ _ _ _ _ _ Hbase Hok)
      as (ds & nd & dd & Hs & Hd & _).
    split; [by eapply add_strategies_ok_scored|].
    unfold add_delegates in Hd.
    split; [by eapply delegates_loop_ok_registered|].
    by apply delegates_loop_ok in Hd as (? & _).
  - intros (Hscored & Hreg & Hnd).
    rewrite (create_strategy_configuration_run cleandoc _ _ _ _ _ _ _ _ _ _ _
               _ _ Hbase).
    destruct (add_strategies_succeeds STRATEGIES id (by_class_of bs)
                (default [] strategies) bs Hscored) as [ds ->].
    destruct (delegates_loop_succeeds STRATEGIES id (default [] delegates)
                ∅ bd Hreg Hnd) as (nd & dd & Hd); [set_solver|].
    unfold add_delegates. rewrite Hd. simpl. by eexists.
Qed.

(** X20. The first unusable id decides the error of a build. If the
    requested strategies before it are registered with a score, an
    unregistered strategy id fails the build with the [LookupError] of that
    id and an unscored one with the [RuntimeError] that names the id and the
    configuration; if all strategies pass and the delegates before it are
    registered without a duplicate interface, an unregistered delegate id
    fails the build with its [LookupError]. *)
Theorem first_unusable_id_fails_the_build STRATEGIES id strategies delegates
    changelog hidden base risk initial_context σ bs bd bc l1 a l2 :
  base_dicts σ base bs bd bc →
  let out := create_strategy_configuration cleandoc STRATEGIES id strategies
               delegates changelog hidden base risk initial_context σ in
  (default [] strategies = l1 ++ a :: l2 →
   all_scored STRATEGIES l1 →
   (STRATEGIES !! a = None → out.1 = Err (LookupError a)) ∧
   (∀ t, STRATEGIES !! a = Some t → Strategy.score t = None →
         out.1 = Err (RuntimeError (UnscoredStrategy a id)))) ∧
  (default [] delegates = l1 ++ a :: l2 →
   all_scored STRATEGIES (default [] strategies) →
   all_registered STRATEGIES l1 →
   NoDup (claimed_interfaces STRATEGIES l1) →
   STRATEGIES !! a = None → out.1 = Err (LookupError a)).
Proof.
  intros Hbase out. subst out.
  rewrite (create_strategy_configuration_run cleandoc _ _ _ _ _ _ _ _ _ _ _ _ _
             Hbase).
  split.
  - intros Hsplit Hscored. rewrite Hsplit, add_strategies_app.
    destruct (add_strategies_succeeds STRATEGIES id (by_class_of bs) l1 bs
                Hscored) as [d1 ->].
    rewrite add_strategies_cons. split.
    + by intros ->.
    + by intros t -> ->.
  - intros Hsplit Hscored Hreg Hnd Ha.
    destruct (add_strategies_succeeds STRATEGIES id (by_class_of bs)
                (default [] strategies) bs Hscored) as [ds ->]. simpl.
    unfold add_delegates. rewrite Hsplit, for_fold_app. unfold bind at 1.
    destruct (delegates_loop_succeeds STRATEGIES id l1 ∅ bd Hreg Hnd)
      as (nd & dd & ->); [set_solver|].
    rewrite delegates_loop_cons, Ha. done.
Qed.

(** X21. A successful build returns a configuration with the id, base
    and [hidden] flag given, the risk given or else [RISK_LEVEL_LOW], and an
    initial context that reads key by key as the given one where that has
    the key, and as the base's otherwise. *)
Theorem build_merges_the_initial_context STRATEGIES id strategies delegates
    changelog hidden base risk initial_context σ bs bd bc c :
  base_dicts σ base bs bd bc →
  let out := create_strategy_configuration cleandoc STRATEGIES id strategies
               delegates changelog hidden base risk initial_context σ in
  out.1 = Ok c →
  StrategyConfiguration.id c = id ∧
  StrategyConfiguration.base c = base ∧
  StrategyConfiguration.hidden c = hidden ∧
  StrategyConfiguration.risk c = default RISK_LEVEL_LOW risk ∧
  ∃ cd,
    context_dicts out.2 !! StrategyConfiguration.initial_context c = Some cd ∧
    ∀ key,
      cd !! key =
      match initial_context with
      | Some updates =>
          match updates !! key with
          | Some v => Some v
          | None => bc !! key
          end
      | None => bc !! key
      end.
Proof.
  intros Hbase out Hok.
  destruct (build_ok_inv _ _ _ _ _ _ _ _ _ _ _ _ _ _ Hbase Hok)
    as (ds & nd & dd & _ & _ & _ & _ & Hcd & ->).
  simpl. repeat (split; [done|]).
  exists (merged_context initial_context bc). split; [done|].
  intros key. unfold merged_context.
  destruct initial_context as [updates|]; [|done].
  case_bool_decide as He.
  - subst updates. by rewrite lookup_empty.
  - rewrite lookup_union. by destruct (updates !! key), (bc !! key).
Qed.

End MoreBuildTheorems.

(** ** Iterating over the strategies *)

Lemma insert_by_key_perm x sorted : insert_by_key x sorted ≡ₚ x :: sorted.
Proof.
  induction sorted as [|y rest IH]; simpl; [done|].
  destruct (x.1 <=? y.1)%Z; [done|].
  rewrite IH. apply Permutation_swap.
Qed.

Lemma stable_sort_perm keyed : stable_sort keyed ≡ₚ keyed.
Proof.
  induction keyed as [|x keyed IH]; simpl; [done|].
  unfold stable_sort in *. simpl. by rewrite insert_by_key_perm, IH.
Qed.

Lemma insert_by_key_sorted x sorted :
  StronglySorted (λ a b : Z * Strategy.t, (a.1 ≤ b.1)%Z) sorted →
  StronglySorted (λ a b : Z * Strategy.t, (a.1 ≤ b.1)%Z) (insert_by_key x sorted).
Proof.
  induction 1 as [|y rest Hs IH Hy]; simpl.
  - repeat constructor.
  - destruct (x.1 <=? y.1)%Z eqn:E.
    + apply Z.leb_le in E. constructor; [by constructor|].
      constructor; [done|]. eapply Forall_impl; [exact Hy|]. simpl. lia.
    + apply Z.leb_gt in E. constructor; [done|].
      rewrite insert_by_key_perm. constructor; [lia|done].
Qed.

Lemma stable_sort_sorted keyed :
  StronglySorted (λ a b : Z * Strategy.t, (a.1 ≤ b.1)%Z) (stable_sort keyed).
Proof.
  induction keyed as [|x keyed IH]; [constructor|].
  by apply insert_by_key_sorted.
Qed.

Lemma insert_by_key_stable (z : Z) x sorted :
  filter (λ y : Z * Strategy.t, y.1 = z) (insert_by_key x sorted) =
  filter (λ y : Z * Strategy.t, y.1 = z) (x :: sorted).
Proof.
  induction sorted as [|y rest IH]; simpl; [done|].
  destruct (x.1 <=? y.1)%Z eqn:E; [done|]. apply Z.leb_gt in E.
  rewrite (filter_cons _ y), IH, !filter_cons.
  repeat case_decide; try done; lia.
Qed.

Lemma stable_sort_stable (z : Z) keyed :
  filter (λ y : Z * Strategy.t, y.1 = z) (stable_sort keyed) =
  filter (λ y : Z * Strategy.t, y.1 = z) keyed.
Proof.
  induction keyed as [|x keyed IH]; [done|].
  unfold stable_sort in *. simpl. rewrite insert_by_key_stable, !filter_cons.
  by rewrite IH.
Qed.

Lemma score_keys_cases values :
  (Exists (λ x, Strategy.score x = None) values ∧
   score_keys values = Err TypeError) ∨
  (∃ keyed, score_keys values = Ok keyed ∧ keyed.*2 = values ∧
            Forall (λ p : Z * Strategy.t,
                      Strategy.score p.2 = Some (- p.1)%Z) keyed).
Proof.
  induction values as [|x values IH]; simpl.
  - right. by exists [].
  - destruct (Strategy.score x) as [score|] eqn:Ex.
    + destruct IH as [[Hex ->]|(keyed & -> & Hv & Hall)].
      * left. split; [by right|done].
      * right. eexists. split; [done|]. rewrite fmap_cons, Hv.
        split; [done|].
        constructor; [|done]. simpl. rewrite Ex. f_equal. lia.
    + left. split; [by left|done].
Qed.

Lemma filter_fmap_keyed (z : Z) (keyed : list (Z * Strategy.t)) :
  Forall (λ p : Z * Strategy.t, Strategy.score p.2 = Some (- p.1)%Z) keyed →
  filter (λ x, Strategy.score x = Some z) keyed.*2 =
  (filter (λ y : Z * Strategy.t, y.1 = (- z)%Z) keyed).*2.
Proof.
  induction 1 as [|p keyed Hp _ IH]; [done|].
  rewrite fmap_cons, !filter_cons, IH.
  repeat case_decide; try done.
  - rewrite Hp in *. simplify_eq. lia.
  - rewrite Hp in *. exfalso. apply H. f_equal. lia.
Qed.

Lemma stable_sort_descending (keyed : list (Z * Strategy.t)) :
  Forall (λ p : Z * Strategy.t, Strategy.score p.2 = Some (- p.1)%Z) keyed →
  StronglySorted
    (λ a b, ∃ sa sb, Strategy.score a = Some sa ∧
                     Strategy.score b = Some sb ∧ (sb ≤ sa)%Z)
    (stable_sort keyed).*2.
Proof.
  intros Hall.
  assert (Forall (λ p : Z * Strategy.t,
                    Strategy.score p.2 = Some (- p.1)%Z) (stable_sort keyed))
    as Hall'.
  { by rewrite stable_sort_perm. }
  pose proof (stable_sort_sorted keyed) as Hs.
  induction Hs as [|p rest Hs IH Hp]; [constructor|].
  apply Forall_cons in Hall' as [Hp' Hall']. rewrite fmap_cons.
  constructor; [by apply IH|].
  apply Forall_fmap. rewrite Forall_forall in Hp, Hall'.
  apply Forall_forall. intros q Hq. simpl.
  exists (- p.1)%Z, (- q.1)%Z. split; [done|]. split; [by apply Hall'|].
  specialize (Hp q Hq). lia.
Qed.

(** X22. The sort of [iter_strategies]. If some value has no score the
    sort is a [TypeError]. Otherwise it returns a permutation of the values
    in which no strategy comes before one of higher score, and strategies of
    equal score keep their order. *)
Theorem sorted_by_score_is_a_stable_descending_sort values :
  (Exists (λ x, Strategy.score x = None) values ∧
   sorted_by_score values = Err TypeError) ∨
  (∃ l, sorted_by_score values = Ok l ∧
        l ≡ₚ values ∧
        StronglySorted
          (λ a b, ∃ sa sb, Strategy.score a = Some sa ∧
                           Strategy.score b = Some sb ∧ (sb ≤ sa)%Z) l ∧
        ∀ z, filter (λ x, Strategy.score x = Some z) l =
             filter (λ x, Strategy.score x = Some z) values).
Proof.
  unfold sorted_by_score.
  destruct (score_keys_cases values) as [[Hex ->]|(keyed & -> & Hv & Hall)];
    [by left|right].
  eexists. split; [done|].
  split; [by rewrite stable_sort_perm, Hv|].
  split; [by apply stable_sort_descending|].
  intros z. rewrite <- Hv.
  rewrite !filter_fmap_keyed; [by rewrite stable_sort_stable|done|].
  by rewrite stable_sort_perm.
Qed.

(** X23. [StrategyConfiguration.iter_strategies] leaves the store as it
    is. It is a [TypeError] when some strategy of the dictionary has no
    score, and otherwise yields as many strategies as the dictionary has
    entries, exactly the dictionary's values, highest score first. *)
Theorem iter_strategies_yields_every_strategy_once self σ d :
  strategy_dicts σ !! StrategyConfiguration.strategies self = Some d →
  (iter_strategies self σ).2 = σ ∧
  (((∃ k s, d !! k = Some s ∧ Strategy.score s = None) ∧
    (iter_strategies self σ).1 = Err TypeError) ∨
   (∃ l, (iter_strategies self σ).1 = Ok l ∧
         length l = size d ∧
         (∀ s, s ∈ l ↔ ∃ k, d !! k = Some s) ∧
         StronglySorted
           (λ a b, ∃ sa sb, Strategy.score a = Some sa ∧
                            Strategy.score b = Some sb ∧ (sb ≤ sa)%Z) l)).
Proof.
  intros Hd.
  unfold iter_strategies, bind, read_strategy_dict, lift_result,
    sorted_by_score.
  rewrite Hd.
  destruct (score_keys_cases (map_to_list d).*2)
    as [[Hex ->]|(keyed & -> & Hv & Hall)]; simpl.
  - split; [done|]. left. split; [|done].
    apply Exists_exists in Hex as (s & Hin & Hs).
    apply list_elem_of_fmap in Hin as ([k s'] & -> & Hin).
    apply elem_of_map_to_list in Hin. by exists k, s'.
  - split; [done|]. right. eexists. split; [done|].
    assert ((stable_sort keyed).*2 ≡ₚ (map_to_list d).*2) as Hp.
    { by rewrite stable_sort_perm, Hv. }
    split; [by rewrite Hp, length_fmap, length_map_to_list|].
    split; [|by apply stable_sort_descending].
    intros s. rewrite Hp, list_elem_of_fmap. split.
    + intros ([k s'] & -> & Hin). exists k. by apply elem_of_map_to_list.
    + intros [k Hk]. exists (k, s). split; [done|].
      by apply elem_of_map_to_list.
Qed.

Lemma add_strategies_scored STRATEGIES id by_class strategies
    (d d' : gmap string Strategy.t) :
  (∀ k s, d !! k = Some s → is_Some (Strategy.score s)) →
  add_strategies modify STRATEGIES id by_class strategies d = (Ok tt, d') →
  ∀ k s, d' !! k = Some s → is_Some (Strategy.score s).
Proof.
  revert d. induction strategies as [|a l IH]; intros d Hd.
  - by intros [= <-].
  - rewrite add_strategies_cons.
    destruct (STRATEGIES !! a) as [t|] eqn:Ht; [|done].
    destruct (Strategy.score t) as [z|] eqn:Hz; [|done].
    apply IH. intros k s. destruct (decide (a = k)) as [<-|Hne].
    + rewrite lookup_insert_eq. intros [= <-]. by rewrite Hz.
    + rewrite lookup_insert_ne by done.
      intros [_ H]%lookup_evicted_Some. by eapply Hd.
Qed.

Section BuildThenIterate.
Variable cleandoc : string → string.

(** X24. Build, then iterate. On a seed whose strategies all have a
    score, every strategy of a built configuration has a score, so
    [iter_strategies] on the built configuration returns, without changing
    the store, a list that is a permutation of the built dictionary's
    values. *)
Theorem built_configuration_iterates STRATEGIES id strategies delegates
    changelog hidden base risk initial_context σ bs bd bc c :
  base_dicts σ base bs bd bc →
  (∀ k s, bs !! k = Some s → is_Some (Strategy.score s)) →
  let out := create_strategy_configuration cleandoc STRATEGIES id strategies
               delegates changelog hidden base risk initial_context σ in
  out.1 = Ok c →
  ∃ d l,
    strategy_dicts out.2 !! StrategyConfiguration.strategies c = Some d ∧
    (∀ k s, d !! k = Some s → is_Some (Strategy.score s)) ∧
    iter_strategies c out.2 = (Ok l, out.2) ∧
    l ≡ₚ (map_to_list d).*2.
Proof.
  intros Hbase Hscored out Hok.
  destruct (build_ok_inv cleandoc _ _ _ _ _ _ _ _ _ _ _ _ _ _ Hbase Hok)
    as (ds & nd & dd & Hs & _ & Hds & _).
  fold out in Hds.
  pose proof (add_strategies_scored _ _ _ _ _ _ Hscored Hs) as Hds'.
  unfold iter_strategies, bind, read_strategy_dict, lift_result,
    sorted_by_score.
  rewrite Hds.
  destruct (score_keys_cases (map_to_list ds).*2)
    as [[Hex _]|(keyed & -> & Hv & Hall)]; simpl.
  - apply Exists_exists in Hex as (s & Hin & Hnone).
    apply list_elem_of_fmap in Hin as ([k s'] & -> & Hin).
    apply elem_of_map_to_list in Hin.
    destruct (Hds' k s' Hin) as [z Hz]. simpl in Hnone. congruence.
  - exists ds. eexists. split; [done|]. split; [done|]. split; [done|].
    by rewrite stable_sort_perm, Hv.
Qed.

End BuildThenIterate.

(** ** Flattening a component *)

Section FlattenTheorems.
Context {C : Type}.
Variable component_id : C → string.
Variable variant_provider : C → bool.
Variable component_values : C → list C.

Lemma lookup_by_component_id (values : list C) k :
  by_component_id component_id values !! k =
  last (filter (λ c, component_id c = k) values).
Proof.
  unfold by_component_id.
  induction values as [|c values IH] using rev_ind; [done|].
  rewrite foldl_app, filter_app. simpl. rewrite filter_cons, filter_nil.
  case_decide as Hc.
  - rewrite last_snoc. subst k. apply lookup_insert_eq.
  - rewrite app_nil_r, lookup_insert_ne by done. apply IH.
Qed.

(** X25. [flatten_variants_from_component] by key: for a variant
    provider a key holds the last of the component's values with that id,
    for any other component only its own id has an entry, the component
    itself. *)
Theorem flatten_keeps_the_last_value_of_each_id component k :
  flatten_variants_from_component component_id variant_provider
    component_values component !! k =
  if variant_provider component
  then last (filter (λ c, component_id c = k) (component_values component))
  else if decide (k = component_id component) then Some component else None.
Proof.
  unfold flatten_variants_from_component.
  destruct (variant_provider component); simpl.
  - apply lookup_by_component_id.
  - case_decide as Hk.
    + subst k. apply lookup_singleton_eq.
    + by apply lookup_singleton_ne.
Qed.

(** X26. [flatten_variants_from_component] files every entry under the
    entry's own id and looks one level down only: an entry is one of the
    provider's direct values, or the component itself when it is no
    provider. *)
Theorem flatten_looks_one_level_down component k c :
  flatten_variants_from_component component_id variant_provider
    component_values component !! k = Some c →
  component_id c = k ∧
  (if variant_provider component then c ∈ component_values component
   else c = component).
Proof.
  unfold flatten_variants_from_component.
  destruct (variant_provider component); simpl.
  - rewrite lookup_by_component_id. intros Hlast.
    apply last_Some in Hlast as [l' Hl'].
    assert (c ∈ filter (λ c, component_id c = k) (component_values component))
      as Hin.
    { rewrite Hl'. apply elem_of_app. right. by apply list_elem_of_singleton. }
    apply list_elem_of_filter in Hin as [? ?]. done.
  - intros [<- <-]%lookup_singleton_Some. done.
Qed.

End FlattenTheorems.

(** ** The theorems at concrete inputs *)

Lemma example_registry_wf : registry_wf example_registry.
Proof.
  unfold example_registry.
  apply (registry_wf_insert _ frame_v0), (registry_wf_insert _ frame_v1),
    (registry_wf_insert _ frame_v2), (registry_wf_insert _ stacktrace_v1),
    registry_wf_empty.
Qed.

Lemma example_base_dicts :
  base_dicts example_store (Some example_base)
    {["frame:v0" := frame_v0]} {["frame" := frame_v0]} ∅.
Proof. repeat split; vm_compute; reflexivity. Qed.

Lemma example_seed_keyed : keyed_by_id {["frame:v0" := frame_v0]}.
Proof. by intros k s [<- <-]%lookup_singleton_Some. Qed.

Lemma strategy_registers_witness :
  ∃ ifaces name' ids' i,
    Some ["frame"] = Some ifaces ∧
    effective_name None ifaces = Some name' ∧
    effective_ids (Some "frame:v1") None = Some ids' ∧
    last ids' = Some i ∧
    registered "frame:v1" "frame" ["frame"] (Some 100%Z) no_component
      = registered i name' ifaces (Some 100%Z) no_component ∧
    (∀ k, k ∈ ids' →
       lookup_strategy
         {["frame:v1" := registered "frame:v1" "frame" ["frame"] (Some 100%Z)
                           no_component]} k
       = Ok (registered k name' ifaces (Some 100%Z) no_component)) ∧
    (∀ k, k ∉ ids' →
       ({["frame:v1" := registered "frame:v1" "frame" ["frame"] (Some 100%Z)
                          no_component]} : registry) !! k
       = (∅ : registry) !! k).
Proof.
  apply (strategy_registers (Some "frame:v1") None (Some ["frame"]) None
           (Some 100%Z) no_component ∅).
  vm_compute. reflexivity.
Defined.

Lemma strategy_fails_cleanly_witness :
  (strategy (Some "frame:v9") (Some ["frame:v9"]) (Some ["frame"]) None None
     no_component example_registry).2 = example_registry.
Proof.
  apply (strategy_fails_cleanly (Some "frame:v9") (Some ["frame:v9"])
           (Some ["frame"]) None None no_component example_registry TypeError).
  reflexivity.
Defined.

Lemma strategy_decorator_wf_witness :
  registry_wf
    (strategy None (Some ["frame:v3"; "frame:v4"]) (Some ["frame"]) None
       (Some 100%Z) no_component example_registry).2.
Proof. apply strategy_decorator_wf, example_registry_wf. Defined.

Lemma class_of_splits_at_the_first_colon_witness :
  class_of ("frame" +:+ ":" +:+ "v1:beta") = "frame".
Proof.
  apply (proj1 class_of_splits_at_the_first_colon "frame" "v1:beta").
  reflexivity.
Defined.

Lemma getitem_reads_the_innermost_overlay_witness :
  (GroupingContext.getitem "variant" (enter "app" top_level_world)).1
    = Ok (PyStr "app").
Proof.
  apply (proj1 (proj2 (getitem_reads_the_innermost_overlay "variant"
                          (enter "app" top_level_world)))).
  exists 2, {["variant" := PyStr "app"]}.
  split; [reflexivity|]. split; [reflexivity|].
  intros [|[|[|j]]] d' Hlt; try lia. discriminate.
Defined.

Lemma setitem_writes_the_innermost_overlay_witness :
  ∃ w', GroupingContext.setitem "variant" (PyStr "app") top_level_world
          = (Ok tt, w') ∧
        GroupingContext.getitem "variant" w' = (Ok (PyStr "app"), w') ∧
        (∀ k, k ≠ "variant" →
           (GroupingContext.getitem k w').1 =
           (GroupingContext.getitem k top_level_world).1) ∧
        removelast (stack w') = removelast (stack top_level_world) ∧
        heap w' = heap top_level_world.
Proof.
  apply (proj2 (setitem_writes_the_innermost_overlay "variant" (PyStr "app")
                  top_level_world)).
  discriminate.
Defined.

Lemma fresh_context_is_top_level_witness :
  ∃ w', GroupingContext.init {["normalize" := PyBool true]} top_level_world
          = (Ok tt, w') ∧
        (GroupingContext.getitem "normalize" w').1 = Ok (PyBool true) ∧
        (GroupingContext.getitem "depth" w').1 = Err (KeyError "depth").
Proof.
  destruct (fresh_context_is_top_level {["normalize" := PyBool true]}
              top_level_world) as (w' & Hrun & _ & _ & _ & Hkey).
  exists w'. split; [exact Hrun|].
  split; (rewrite Hkey; [reflexivity|discriminate]).
Defined.

Lemma resolve_interfaces_in_declared_order_witness :
  Strategy.resolve_interfaces ["frame"] frame_event []
    = Some [{| path := "frame"; payload := "f" |}] ∧
  Strategy.resolve_interfaces ["frame"; "stacktrace"] frame_event [] = None.
Proof.
  split.
  - apply (proj1 (resolve_interfaces_in_declared_order ["frame"] frame_event)).
    repeat constructor.
  - apply (proj2 (resolve_interfaces_in_declared_order ["frame"; "stacktrace"]
                    frame_event)).
    exists "stacktrace". split; [|reflexivity]. right. left.
Defined.

Lemma get_grouping_component_scopes_the_pin_witness :
  let inner := set_stack (stack top_level_world ++ [scope_overlay (PyStr "app")])
                 top_level_world in
  Strategy.get_grouping_component frame_v1 frame_event (PyStr "app")
    top_level_machine =
    (Ok None, {| world := top_level_world; trace := [EvCall] |}) ∧
  GroupingContext.getitem "variant" inner = (Ok (PyStr "app"), inner).
Proof.
  intros inner.
  destruct (get_grouping_component_scopes_the_pin frame_v1 frame_event
              (PyStr "app") top_level_machine
              [{| path := "frame"; payload := "f" |}])
    as (Hrun & Hpin & _).
  - reflexivity.
  - intros w. reflexivity.
  - split; [exact Hrun|]. apply Hpin. discriminate.
Defined.

Lemma delegation_returns_the_pinned_component_witness :
  Delegation.get_grouping_component ∅ {| path := "frame"; payload := "f" |} []
    frame_event top_level_machine =
  (Err (RuntimeError (NoDelegate "frame")), top_level_machine) ∧
  Delegation.get_grouping_component {["frame" := frames_strategy]}
    {| path := "frame"; payload := "f" |} [] frame_event
    {| world := enter "frames" top_level_world; trace := [] |} =
  (Ok (Delegation.Component (Some 1%positive)),
   {| world := enter "frames" top_level_world; trace := [EvCall] |}).
Proof.
  split.
  - apply (proj1 (delegation_returns_the_pinned_component ∅
                    {| path := "frame"; payload := "f" |} [] frame_event
                    top_level_machine)).
    vm_compute. reflexivity.
  - pose proof (proj2 (delegation_returns_the_pinned_component
                    {["frame" := frames_strategy]}
                    {| path := "frame"; payload := "f" |} [] frame_event
                    {| world := enter "frames" top_level_world; trace := [] |})
             frames_strategy ["!frames"; "app"] frames_func "frames") as H.
    destruct H as [_ H].
    + apply lookup_singleton_eq.
    + reflexivity.
    + vm_compute; reflexivity.
    + apply (H (Some 1%positive) (enter "frames" top_level_world)).
      * right. left.
      * vm_compute; reflexivity.
      * vm_compute; reflexivity.
Defined.

Lemma top_level_computes_every_candidate_once_witness :
  let out := call_with_variants scenario_A_func ["!system"; "app"]
               top_level_machine in
  ∃ ups n,
    trace out.2 = ups ++ replicate n EvCall ++ [] ∧
    Forall is_update ups ∧
    (n ≤ 2)%nat ∧
    ((∃ r, out.1 = Ok r) ∨ ups ≠ [] → n = 2).
Proof.
  apply (top_level_computes_every_candidate_once scenario_A_func
           ["!system"; "app"] top_level_world []).
  vm_compute. reflexivity.
Defined.


Lemma one_suppression_rule_per_run_witness :
  ∃ new,
    trace (call_with_variants silent_system_func ["!system"; "app"]
             top_level_machine).2 = new ++ [].
Proof.
  destruct (one_suppression_rule_per_run silent_system_func
              ["!system"; "app"] top_level_machine) as (new & Hnew & _).
  exists new. exact Hnew.
Defined.


Lemma call_with_variants_restores_the_stack_witness :
  stack (world (call_with_variants scenario_A_func ["!system"; "app"]
                  top_level_machine).2) = stack top_level_world.
Proof.
  apply (call_with_variants_restores_the_stack scenario_A_func
           ["!system"; "app"] top_level_machine).
  intros w. unfold scenario_A_func, by_variant.
  destruct (GroupingContext.getitem "variant" w) as [[[]|?] ?]; try done.
  by destruct (_ !! _).
Defined.

Lemma null_mandatory_leaves_optional_witness :
  call_with_variants scenario_B_func ["!system"; "app"]
    {| world := top_level_world; trace := [] |} =
  (Ok (Some {["app" := Some 2%positive]}),
   {| world := leave (enter "app" top_level_world);
      trace := [EvCall; EvCall] |}).
Proof.
  apply (null_mandatory_leaves_optional scenario_B_func [] top_level_world
           (enter "system" top_level_world) (enter "app" top_level_world)
           2%positive component_h1).
  - vm_compute. reflexivity.
  - vm_compute. reflexivity.
  - discriminate.
  - vm_compute. reflexivity.
  - discriminate.
  - vm_compute. reflexivity.
  - reflexivity.
Defined.

Lemma example_build_is_ok :
  (create_strategy_configuration (λ s, s) example_registry "c"
     (Some ["frame:v1"; "stacktrace:v1"]) (Some ["frame:v1"]) None false
     (Some example_base) None (Some {["normalize" := PyBool true]})
     example_store).1
  = Ok {| StrategyConfiguration.id := "c";
          StrategyConfiguration.base := Some example_base;
          StrategyConfiguration.strategies := 3%positive;
          StrategyConfiguration.delegates := 4%positive;
          StrategyConfiguration.initial_context := 2%positive;
          StrategyConfiguration.changelog := "";
          StrategyConfiguration.hidden := false;
          StrategyConfiguration.risk := RISK_LEVEL_LOW |}.
Proof.
  rewrite (create_strategy_configuration_run (λ s, s) _ _ _ _ _ _ _ _ _ _ _ _ _
             example_base_dicts).
  reflexivity.
Qed.

Lemma example_request_distinct :
  distinct_classes example_registry ["frame:v1"; "stacktrace:v1"].
Proof.
  intros a b ta tb Ha Hb Hta Htb Hc.
  apply elem_of_cons in Ha as [->|Ha%list_elem_of_singleton];
    apply elem_of_cons in Hb as [->|Hb%list_elem_of_singleton];
    subst; try done;
    vm_compute in Hta; vm_compute in Htb;
    injection Hta as <-; injection Htb as <-; discriminate.
Qed.

Lemma example_seed_one_per_class : one_per_class {["frame:v0" := frame_v0]}.
Proof.
  intros k1 s1 k2 s2 [<- _]%lookup_singleton_Some [<- _]%lookup_singleton_Some.
  done.
Qed.

Lemma build_never_drops_a_class_witness :
  let out := create_strategy_configuration (λ s, s) example_registry "c"
               (Some ["frame:v1"; "stacktrace:v1"]) (Some ["frame:v1"]) None
               false (Some example_base) None
               (Some {["normalize" := PyBool true]}) example_store in
  ∃ d,
    strategy_dicts out.2 !! 3%positive = Some d ∧
    keyed_by_id d ∧
    (∃ k' s', d !! k' = Some s' ∧ Strategy.strategy_class s' = "frame") ∧
    d !! "stacktrace:v1" = Some stacktrace_v1.
Proof.
  intros out.
  destruct (build_never_drops_a_class (λ s, s) example_registry "c"
              (Some ["frame:v1"; "stacktrace:v1"]) (Some ["frame:v1"]) None
              false (Some example_base) None
              (Some {["normalize" := PyBool true]}) example_store _ _ _ _
              example_base_dicts example_registry_wf example_seed_keyed
              example_build_is_ok) as (d & Hd & Hk & Hcls & Hlast).
  exists d. split; [exact Hd|]. split; [exact Hk|]. split.
  - apply (Hcls "frame:v0" frame_v0). apply lookup_singleton_eq.
  - apply (Hlast ["frame:v1"] "stacktrace:v1" [] stacktrace_v1);
      [reflexivity|vm_compute; reflexivity|].
    intros b tb Hb. exfalso. exact (proj1 (elem_of_nil b) Hb).
Defined.

Lemma build_keeps_one_strategy_per_class_witness :
  let out := create_strategy_configuration (λ s, s) example_registry "c"
               (Some ["frame:v1"; "stacktrace:v1"]) (Some ["frame:v1"]) None
               false (Some example_base) None
               (Some {["normalize" := PyBool true]}) example_store in
  ∃ d,
    strategy_dicts out.2 !! 3%positive = Some d ∧
    one_per_class d ∧
    d !! "frame:v1" = Some frame_v1.
Proof.
  intros out.
  destruct (build_keeps_one_strategy_per_class (λ s, s) example_registry "c"
              (Some ["frame:v1"; "stacktrace:v1"]) (Some ["frame:v1"]) None
              false (Some example_base) None
              (Some {["normalize" := PyBool true]}) example_store _ _ _ _
              example_base_dicts example_registry_wf example_seed_keyed
              example_seed_one_per_class example_request_distinct
              example_build_is_ok) as (d & Hd & _ & Hone & Hreq & _).
  exists d. split; [exact Hd|]. split; [exact Hone|].
  destruct (Hreq "frame:v1") as [_ ->]; [by left|].
  vm_compute. reflexivity.
Defined.

Lemma build_succeeds_iff_witness :
  (∃ c, (create_strategy_configuration (λ s, s) example_registry "c"
           (Some ["frame:v1"]) (Some ["frame:v1"; "frame:v2"]) None false
           (Some example_base) None None example_store).1 = Ok c) ↔
  all_scored example_registry ["frame:v1"] ∧
  all_registered example_registry ["frame:v1"; "frame:v2"] ∧
  NoDup (claimed_interfaces example_registry ["frame:v1"; "frame:v2"]).
Proof.
  apply (build_succeeds_iff (λ s, s) example_registry "c"
           (Some ["frame:v1"]) (Some ["frame:v1"; "frame:v2"]) None false
           (Some example_base) None None example_store _ _ _
           example_base_dicts).
Defined.

Lemma first_unusable_id_fails_the_build_witness :
  (create_strategy_configuration (λ s, s) example_registry "c"
     (Some ["frame:v1"; "frame:v9"; "frame:v2"]) None None false
     (Some example_base) None None example_store).1
  = Err (LookupError "frame:v9").
Proof.
  apply (proj1 (first_unusable_id_fails_the_build (λ s, s) example_registry
                  "c" (Some ["frame:v1"; "frame:v9"; "frame:v2"]) None None
                  false (Some example_base) None None example_store _ _ _
                  ["frame:v1"] "frame:v9" ["frame:v2"] example_base_dicts)).
  - reflexivity.
  - constructor; [|constructor]. exists frame_v1.
    split; [vm_compute; reflexivity|by eexists].
  - vm_compute. reflexivity.
Defined.

Lemma build_merges_the_initial_context_witness :
  let out := create_strategy_configuration (λ s, s) example_registry "c"
               (Some ["frame:v1"; "stacktrace:v1"]) (Some ["frame:v1"]) None
               false (Some example_base) None
               (Some {["normalize" := PyBool true]}) example_store in
  ∃ cd, context_dicts out.2 !! 2%positive = Some cd ∧
        cd !! "normalize" = Some (PyBool true).
Proof.
  intros out.
  destruct (build_merges_the_initial_context (λ s, s) example_registry "c"
              (Some ["frame:v1"; "stacktrace:v1"]) (Some ["frame:v1"]) None
              false (Some example_base) None
              (Some {["normalize" := PyBool true]}) example_store _ _ _ _
              example_base_dicts example_build_is_ok)
    as (_ & _ & _ & _ & cd & Hcd & Hkey).
  exists cd. split; [exact Hcd|]. rewrite Hkey. vm_compute. reflexivity.
Defined.

Lemma iter_strategies_yields_every_strategy_once_witness :
  (iter_strategies example_base example_store).2 = example_store.
Proof.
  apply (iter_strategies_yields_every_strategy_once example_base example_store
           {["frame:v0" := frame_v0]}).
  vm_compute. reflexivity.
Defined.

Lemma built_configuration_iterates_witness :
  let out := create_strategy_configuration (λ s, s) example_registry "c"
               (Some ["frame:v1"; "stacktrace:v1"]) (Some ["frame:v1"]) None
               false (Some example_base) None
               (Some {["normalize" := PyBool true]}) example_store in
  ∃ d l,
    strategy_dicts out.2 !! 3%positive = Some d ∧
    (∀ k s, d !! k = Some s → is_Some (Strategy.score s)) ∧
    iter_strategies
      {| StrategyConfiguration.id := "c";
         StrategyConfiguration.base := Some example_base;
         StrategyConfiguration.strategies := 3%positive;
         StrategyConfiguration.delegates := 4%positive;
         StrategyConfiguration.initial_context := 2%positive;
         StrategyConfiguration.changelog := "";
         StrategyConfiguration.hidden := false;
         StrategyConfiguration.risk := RISK_LEVEL_LOW |} out.2
      = (Ok l, out.2) ∧
    l ≡ₚ (map_to_list d).*2.
Proof.
  assert (∀ k s, ({["frame:v0" := frame_v0]} : registry) !! k = Some s →
                 is_Some (Strategy.score s)) as Hscored.
  { intros k s [<- <-]%lookup_singleton_Some. by eexists. }
  exact (built_configuration_iterates (λ s, s) example_registry "c"
           (Some ["frame:v1"; "stacktrace:v1"]) (Some ["frame:v1"]) None
           false (Some example_base) None
           (Some {["normalize" := PyBool true]}) example_store _ _ _ _
           example_base_dicts Hscored example_build_is_ok).
Defined.

Lemma flatten_looks_one_level_down_witness :
  tree_id (VariantTree "app" true []) = "app" ∧
  (if tree_provider example_tree
   then VariantTree "app" true [] ∈ tree_children example_tree
   else VariantTree "app" true [] = example_tree).
Proof.
  apply (flatten_looks_one_level_down tree_id tree_provider tree_children
           example_tree "app" (VariantTree "app" true [])).
  vm_compute. reflexivity.
Defined.
